(** * Restricted Zone Monitor: the zone-intrusion alerting engine

    A shallow embedding of [alert_manager.py] (the point-in-polygon test, the
    zone lookup and the alert ledger), of [Config.load_zones] and of
    [ZoneMarker.mark_zones_callback], followed by the properties of the
    engine.

    Conventions of the embedding:
    - Python numbers (the [int] vertices of a zone, the [float] centre of a
      box, the [float] clock) are exact rationals [Q] in the model of the
      ledger.  The point-in-polygon test is given twice: over [Q], and over
      the doubles of IEEE 754 ([Module Double]), where the crossing
      abscissa of an edge is rounded as Python rounds it.
    - A Python exception is a value [Raise e] of the [result] type; the state
      reached before an exception is dropped, since nothing in the program
      catches it.
    - [time.time()] is the explicit argument [current_time].
    - The dictionaries [active_alerts] and [track_positions] are finite maps
      ([gmap]) keyed by the track identifier. *)

From Stdlib Require Import QArith Qminmax Lqa Sorted SpecFloat.
From stdpp Require Import gmap list fin_maps strings.

Local Open Scope Q_scope.

(** ** Exceptions *)

Inductive exn : Set :=
| IndexError
| UnboundLocalError
| ZeroDivisionError.

Inductive result (A : Type) : Type :=
| Ok (a : A)
| Raise (e : exn).

Arguments Ok {A} a.
Arguments Raise {A} e.

#[global] Instance result_ret : MRet result := @Ok.
#[global] Instance result_bind : MBind result :=
  λ A B f m, match m with Ok a => f a | Raise e => Raise e end.

(** A [for] loop whose body may raise. *)
Fixpoint for_each {S A : Type} (body : S → A → result S) (s : S) (l : list A)
  : result S :=
  match l with
  | [] => Ok s
  | a :: l' => s' ← body s a; for_each body s' l'
  end.

(** ** Python arithmetic on numbers *)

Module Py.

Definition lt (a b : Q) : bool := negb (Qle_bool b a).
Definition le (a b : Q) : bool := Qle_bool a b.
Definition eq (a b : Q) : bool := Qeq_bool a b.

(** [min(a, b)] and [max(a, b)] keep the first argument on a tie. *)
Definition min (a b : Q) : Q := if lt b a then b else a.
Definition max (a b : Q) : Q := if lt a b then b else a.

(** True division [a / b]. *)
Definition div (a b : Q) : result Q :=
  if eq b 0 then Raise ZeroDivisionError else Ok (a / b).

(** [l[i]] for a non-negative index. *)
Definition index {A : Type} (l : list A) (i : nat) : result A :=
  match l !! i with
  | Some a => Ok a
  | None => Raise IndexError
  end.

End Py.

(** ** Geometry: [AlertManager.check_point_in_polygon] *)

Abbreviation point := (Q * Q)%type.
Abbreviation polygon := (list point).

(** The local variables that live across the iterations of the edge loop.
    [xinters] is unbound ([None]) until its first assignment. *)
Record ray_state : Type := RayState {
  inside : bool;
  xinters : option Q;
  p1 : point
}.

(** One iteration of the loop, for the edge from [p1] to [p2]. *)
Definition polygon_edge (x y : Q) (st : ray_state) (p2 : point)
  : result ray_state :=
  let '(p1x, p1y) := p1 st in
  let '(p2x, p2y) := p2 in
  let unchanged : result (bool * option Q) := Ok (inside st, xinters st) in
  r ← (if Py.lt (Py.min p1y p2y) y then
         if Py.le y (Py.max p1y p2y) then
           if Py.le x (Py.max p1x p2x) then
             xi ← (if negb (Py.eq p1y p2y) then
                     q ← Py.div ((y - p1y) * (p2x - p1x)) (p2y - p1y);
                     Ok (Some (q + p1x))
                   else Ok (xinters st));
             c ← (if Py.eq p1x p2x then Ok true
                  else match xi with
                       | Some v => Ok (Py.le x v)
                       | None => Raise UnboundLocalError
                       end);
             Ok (if c : bool then negb (inside st) else inside st, xi)
           else unchanged
         else unchanged
       else unchanged);
  Ok (RayState r.1 r.2 p2).

Definition check_point_in_polygon (pt : point) (poly : polygon) : result bool :=
  let '(x, y) := pt in
  let n := length poly in
  first ← Py.index poly 0;
  st ← for_each
         (λ st i, p2 ← Py.index poly (i mod n); polygon_edge x y st p2)
         (RayState false None first)
         (seq 1 n);
  Ok (inside st).

(** ** Configuration: [config.py] *)

Module Config.

(** [ALARM_DURATION = 3  # seconds after leaving zone] *)
Definition ALARM_DURATION : Q := 3.

(** The content of [restricted_zones.json] once parsed: a dictionary from
    keys to lists of zones.  [None] is a missing file.  A file that is not
    such a dictionary (malformed JSON, a value that is not a list of zones)
    is outside this type: on it [json.load] or the iteration raises, and
    only [FileNotFoundError] is caught. *)
Abbreviation zones_file := (option (gmap string (list polygon))).

(** [load_zones]: the zones under the key ['zones'], or the empty list when
    the key or the file is missing ([FileNotFoundError] is caught).  No
    other check is made on the zones read. *)
Definition load_zones (file : zones_file) : result (list polygon) :=
  match file with
  | Some data => Ok (default [] (data !! "zones"%string))
  | None => Ok []
  end.

(** [save_zones]: overwrite the file with [{'zones': zones}]. *)
Definition save_zones (zones : list polygon) : zones_file :=
  Some {[ "zones"%string := zones ]}.

End Config.

(** ** The alert ledger: [alert_manager.py] *)

Module Alert.

Record t : Type := Make {
  track_id : Z;
  zone_id : Z;
  entry_time : Q;
  last_seen_in_zone : Q;
  is_active : bool
}.

Definition set_last_seen_in_zone (v : Q) (a : t) : t :=
  Make (track_id a) (zone_id a) (entry_time a) v (is_active a).

Definition set_is_active (v : bool) (a : t) : t :=
  Make (track_id a) (zone_id a) (entry_time a) (last_seen_in_zone a) v.

End Alert.

Module Track.

(** An observation [{'track_id': ..., 'bbox': (x1, y1, x2, y2), ...}]; the
    other keys of the dictionary are not read by the alert manager.  A
    dictionary without one of the two keys, on which the lookup raises
    [KeyError], is outside this type. *)
Record t : Type := Make {
  track_id : Z;
  bbox : Q * Q * Q * Q
}.

End Track.

Record AlertManager : Type := Manager {
  active_alerts : gmap Z Alert.t;
  track_positions : gmap Z point
}.

(** [AlertManager.__init__] *)
Definition init : AlertManager := Manager ∅ ∅.

Definition get_bbox_center (bbox : Q * Q * Q * Q) : point :=
  let '(x1, y1, x2, y2) := bbox in
  let center_x := (x1 + x2) / 2 in
  let center_y := (y1 + y2) / 2 in
  (center_x, center_y).

(** The loop [for zone_id, zone in enumerate(zones)] of
    [check_zone_penetration], from index [zone_id] on. *)
Fixpoint scan_zones (center_point : point) (zones : list polygon) (zone_id : Z)
  : result (bool * Z) :=
  match zones with
  | [] => Ok (false, (-1)%Z)
  | zone :: rest =>
      hit ← check_point_in_polygon center_point zone;
      if hit : bool then Ok (true, zone_id)
      else scan_zones center_point rest (zone_id + 1)%Z
  end.

Definition check_zone_penetration (self : AlertManager) (track_id : Z)
    (bbox : Q * Q * Q * Q) (zones : list polygon)
  : result (AlertManager * (bool * Z)) :=
  let center_point := get_bbox_center bbox in
  let self := Manager (active_alerts self)
                      (<[track_id := center_point]> (track_positions self)) in
  r ← scan_zones center_point zones 0%Z;
  Ok (self, r).

(** Body of the first loop of [update_alerts] ("check for new zone
    penetrations").  The local dictionary [current_zone_occupancy] is written
    but never read, and is left out. *)
Definition enter_zone (current_time : Q) (zones : list polygon)
    (self : AlertManager) (track : Track.t) : result AlertManager :=
  let track_id := Track.track_id track in
  let bbox := Track.bbox track in
  '(self, (penetrated, zone_id)) ←
    check_zone_penetration self track_id bbox zones;
  if penetrated : bool then
    match active_alerts self !! track_id with
    | None =>
        Ok (Manager
              (<[track_id := Alert.Make track_id zone_id current_time
                               current_time true]> (active_alerts self))
              (track_positions self))
    | Some alert =>
        Ok (Manager
              (<[track_id := Alert.set_is_active true
                               (Alert.set_last_seen_in_zone current_time alert)]>
                 (active_alerts self))
              (track_positions self))
    end
  else Ok self.

(** [next((t for t in tracks if t['track_id'] == track_id), None)] *)
Definition current_track_of (tracks : list Track.t) (track_id : Z)
  : option Track.t :=
  find (λ t, bool_decide (Track.track_id t = track_id)) tracks.

(** Body of the second loop of [update_alerts] ("handle tracks that left
    zones or disappeared"), run for the item [(track_id, alert)] of the
    ledger; the state is the manager and the list [alerts_to_remove]. *)
Definition leave_zone (current_time : Q) (tracks : list Track.t)
    (zones : list polygon) (active_track_ids : gset Z)
    (st : AlertManager * list Z) (item : Z * Alert.t)
  : result (AlertManager * list Z) :=
  let '(self, alerts_to_remove) := st in
  let '(track_id, alert) := item in
  if bool_decide (track_id ∉ active_track_ids) then
    let time_since_last_seen := current_time - Alert.last_seen_in_zone alert in
    if Py.le Config.ALARM_DURATION time_since_last_seen then
      Ok (self, alerts_to_remove ++ [track_id])
    else Ok (self, alerts_to_remove)
  else
    match current_track_of tracks track_id with
    | Some current_track =>
        '(self, (penetrated, _)) ←
          check_zone_penetration self track_id (Track.bbox current_track) zones;
        if negb penetrated then
          let self := Manager
                        (<[track_id := Alert.set_is_active false alert]>
                           (active_alerts self))
                        (track_positions self) in
          if bool_decide (track_id ∈ dom (track_positions self)) then
            let time_since_left := current_time - Alert.last_seen_in_zone alert in
            if Py.le Config.ALARM_DURATION time_since_left then
              Ok (self, alerts_to_remove ++ [track_id])
            else Ok (self, alerts_to_remove)
          else Ok (self, alerts_to_remove)
        else Ok (self, alerts_to_remove)
    | None => Ok (self, alerts_to_remove)
    end.

(** Third loop: "remove expired alerts". *)
Definition remove_expired (self : AlertManager) (alerts_to_remove : list Z)
  : AlertManager :=
  foldl (λ self track_id,
           Manager (delete track_id (active_alerts self))
                   (delete track_id (track_positions self)))
        self alerts_to_remove.

(** Fourth loop: "clean up positions for disappeared tracks". *)
Definition clean_positions (self : AlertManager) (active_track_ids : gset Z)
  : AlertManager :=
  let disappeared_tracks := dom (track_positions self) ∖ active_track_ids in
  Manager (active_alerts self)
          (foldl (λ positions track_id, delete track_id positions)
                 (track_positions self) (elements disappeared_tracks)).

(** The first two loops of [update_alerts]: the ledger as it stands when the
    list [alerts_to_remove] is complete and nothing has been deleted yet. *)
Definition update_alerts_sweep (self : AlertManager) (current_time : Q)
    (tracks : list Track.t) (zones : list polygon)
  : result (AlertManager * list Z) :=
  let active_track_ids : gset Z := list_to_set (map Track.track_id tracks) in
  self ← for_each (enter_zone current_time zones) self tracks;
  for_each (leave_zone current_time tracks zones active_track_ids)
           (self, []) (map_to_list (active_alerts self)).

Definition update_alerts (self : AlertManager) (current_time : Q)
    (tracks : list Track.t) (zones : list polygon)
  : result (AlertManager * gset Z) :=
  let active_track_ids : gset Z := list_to_set (map Track.track_id tracks) in
  '(self, alerts_to_remove) ←
    update_alerts_sweep self current_time tracks zones;
  let self := remove_expired self alerts_to_remove in
  let self := clean_positions self active_track_ids in
  Ok (self, dom (active_alerts self)).

Definition get_alerted_tracks (self : AlertManager) : gset Z :=
  dom (active_alerts self).

(** [get_alert_status]; the manager is returned next to the answer, so that
    what the call does to the ledger is part of its result. *)
Definition get_alert_status (self : AlertManager) (current_time : Q)
    (track_id : Z) : AlertManager * (bool * Q) :=
  match active_alerts self !! track_id with
  | None => (self, (false, 0))
  | Some alert =>
      if Alert.is_active alert then (self, (true, 0))
      else
        let time_since_left := current_time - Alert.last_seen_in_zone alert in
        let time_remaining := Py.max 0 (Config.ALARM_DURATION - time_since_left) in
        (self, (Py.lt 0 time_remaining, time_remaining))
  end.

Definition get_alert_statistics (self : AlertManager) : nat :=
  size (active_alerts self).

(** ** Zone registration: [zone_marker.py] *)

Inductive mouse_event : Set :=
| EVENT_LBUTTONDOWN
| EVENT_RBUTTONDOWN
| EVENT_OTHER.

(** What the callback prints. *)
Inductive message : Set :=
| Zone_saved (total : nat)
| Need_at_least_3_points.

Record ZoneMarker : Type := Marker {
  current_zone_points : list point;
  zones : list polygon
}.

(** The marker, the zone file and the console. *)
Definition marker_world : Type :=
  (ZoneMarker * Config.zones_file * list message)%type.

Definition mark_zones_callback (w : marker_world) (event : mouse_event)
    (x y : Q) : result marker_world :=
  let '(self, file, out) := w in
  match event with
  | EVENT_LBUTTONDOWN =>
      Ok (Marker (current_zone_points self ++ [(x, y)]) (zones self), file, out)
  | EVENT_RBUTTONDOWN =>
      if bool_decide (3 ≤ length (current_zone_points self))%nat then
        let zones := zones self ++ [current_zone_points self] in
        Ok (Marker [] zones, Config.save_zones zones,
            out ++ [Zone_saved (length zones)])
      else Ok (self, file, out ++ [Need_at_least_3_points])
  | EVENT_OTHER => Ok w
  end.

(** ** Vocabulary of the geometric statements

    These definitions describe what the edge loop computes; they are not part
    of the program. *)

(** Whether the loop flips [inside] on the edge from [a] to [b]. *)
Definition toggles (x y : Q) (a b : point) : bool :=
  Py.lt (Py.min a.2 b.2) y
  && Py.le y (Py.max a.2 b.2)
  && Py.le x (Py.max a.1 b.1)
  && (Py.eq a.1 b.1 || Py.le x ((y - a.2) * (b.1 - a.1) / (b.2 - a.2) + a.1)).

(** The edges walked from [a] through the vertices [l]. *)
Fixpoint edges_from (a : point) (l : list point) : list (point * point) :=
  match l with
  | [] => []
  | b :: l' => (a, b) :: edges_from b l'
  end.

(** The edges of a closed polygon, the last one back to the first vertex. *)
Definition polygon_edges (poly : polygon) : list (point * point) :=
  match poly with
  | [] => []
  | v0 :: rest => edges_from v0 (rest ++ [v0])
  end.

(** Parity of the number of edges on which [g] holds. *)
Fixpoint odd_count (g : point * point → bool) (es : list (point * point))
  : bool :=
  match es with
  | [] => false
  | e :: es' => xorb (g e) (odd_count g es')
  end.

(** Parity of the number of edges that flip [inside]. *)
Definition parity (x y : Q) (es : list (point * point)) : bool :=
  odd_count (λ e, toggles x y e.1 e.2) es.

(** Twice the signed area of the triangle [a], [b], [p]: positive when [p]
    is strictly on the left of the line from [a] to [b], negative when it is
    strictly on its right. *)
Definition cross (a b p : point) : Q :=
  (b.1 - a.1) * (p.2 - a.2) - (b.2 - a.2) * (p.1 - a.1).

Definition point_eq (p q : point) : Prop := p.1 == q.1 ∧ p.2 == q.2.

(** [q] lies on the closed segment from [a] to [b]. *)
Definition on_segment (q a b : point) : Prop :=
  ∃ t : Q, 0 <= t ∧ t <= 1
           ∧ q.1 == a.1 + t * (b.1 - a.1) ∧ q.2 == a.2 + t * (b.2 - a.2).

(** A polygon is simple when two of its edges meet only if they are
    consecutive, and then only in the vertex they share: the end of the first
    one when the second follows it, the first vertex of the polygon for the
    first and the last edge. *)
Definition simple (poly : polygon) : Prop :=
  ∀ l1 e l2 e' l3 q,
    polygon_edges poly = l1 ++ e :: l2 ++ e' :: l3 →
    on_segment q e.1 e.2 → on_segment q e'.1 e'.2 →
    (l2 = [] ∧ point_eq q e.2) ∨ (l1 = [] ∧ l3 = [] ∧ point_eq q e.1).

(** Every vertex is on the same side (weakly) of the line through every
    edge: on its left for a counter-clockwise polygon, on its right for a
    clockwise one. *)
Definition convex (poly : polygon) : Prop :=
  (∀ e v, e ∈ polygon_edges poly → v ∈ poly → 0 <= cross e.1 e.2 v)
  ∨ (∀ e v, e ∈ polygon_edges poly → v ∈ poly → cross e.1 e.2 v <= 0).

Definition convex_polygon (poly : polygon) : Prop :=
  (3 ≤ length poly)%nat ∧ convex poly ∧ simple poly.

(** [p] is strictly inside: strictly on the inner side of every edge. *)
Definition strictly_interior (p : point) (poly : polygon) : Prop :=
  (∀ e, e ∈ polygon_edges poly → 0 < cross e.1 e.2 p)
  ∨ (∀ e, e ∈ polygon_edges poly → cross e.1 e.2 p < 0).

(** [p] is strictly outside the axis-aligned range of the vertices. *)
Definition outside_extent (p : point) (poly : polygon) : Prop :=
  (∀ v, v ∈ poly → p.1 < v.1) ∨ (∀ v, v ∈ poly → v.1 < p.1)
  ∨ (∀ v, v ∈ poly → p.2 < v.2) ∨ (∀ v, v ∈ poly → v.2 < p.2).

(** *** Auxiliary notions of the proofs about ray casting *)

(** The vertex [v] is strictly below the height [y]. *)
Definition below (y : Q) (v : point) : bool := Py.lt v.2 y.

(** The edge crosses the height [y] upwards / downwards. *)
Definition crosses_up (y : Q) (e : point * point) : bool :=
  below y e.1 && negb (below y e.2).

Definition crosses_down (y : Q) (e : point * point) : bool :=
  negb (below y e.1) && below y e.2.

(** The flag [β] is raised at the start of the edge and lowered at its end. *)
Definition drops (β : point → bool) (e : point * point) : Prop :=
  β e.1 = true ∧ β e.2 = false.

(** In the closed upper half-plane, [v] is further than [u] on the way
    round the origin, counter-clockwise from the positive x axis. *)
Definition ahead (u v : point) : Prop :=
  0 < u.1 * v.2 - u.2 * v.1 ∨ (u.2 == 0 ∧ v.2 == 0 ∧ 0 < u.1 ∧ v.1 < 0).

(** Seen through [g], the end of the edge is counter-clockwise from its
    start. *)
Definition turns_left (g : point → point) (e : point * point) : Prop :=
  0 < (g e.1).1 * (g e.2).2 - (g e.1).2 * (g e.2).1.

(** ** Vocabulary of the statements about the ledger *)

(** What [check_zone_penetration] answers for a box: the test does not
    depend on the manager. *)
Definition penetrates (bbox : Q * Q * Q * Q) (zones : list polygon)
  : result (bool * Z) :=
  scan_zones (get_bbox_center bbox) zones 0%Z.

(** What a tick sees of a track: nothing when it is not in the observation
    set, else whether the centre of its box is in a zone, and in which. *)
Definition observation (tracks : list Track.t) (zones : list polygon)
    (track_id : Z) : option (bool * Z) :=
  match current_track_of tracks track_id with
  | Some t =>
      match penetrates (Track.bbox t) zones with
      | Ok r => Some r
      | Raise _ => None
      end
  | None => None
  end.

(** The record of a track found in a zone: created, or refreshed. *)
Definition entered (current_time : Q) (zone_id track_id : Z)
    (old : option Alert.t) : Alert.t :=
  match old with
  | None => Alert.Make track_id zone_id current_time current_time true
  | Some alert =>
      Alert.set_is_active true (Alert.set_last_seen_in_zone current_time alert)
  end.

(** The grace period of a record is over. *)
Definition expired (current_time : Q) (alert : Alert.t) : bool :=
  Py.le Config.ALARM_DURATION (current_time - Alert.last_seen_in_zone alert).

(** The record of a track after a tick, from what the tick sees of it. *)
Definition tick_alert (current_time : Q) (obs : option (bool * Z))
    (track_id : Z) (old : option Alert.t) : option Alert.t :=
  match obs with
  | Some (true, zone_id) => Some (entered current_time zone_id track_id old)
  | Some (false, _) =>
      match old with
      | Some alert =>
          if expired current_time alert then None
          else Some (Alert.set_is_active false alert)
      | None => None
      end
  | None =>
      match old with
      | Some alert => if expired current_time alert then None else Some alert
      | None => None
      end
  end.

(** The record of a track when the sweep is over and nothing is deleted
    yet. *)
Definition sweep_alert (current_time : Q) (obs : option (bool * Z))
    (track_id : Z) (old : option Alert.t) : option Alert.t :=
  match obs with
  | Some (true, zone_id) => Some (entered current_time zone_id track_id old)
  | Some (false, _) => Alert.set_is_active false <$> old
  | None => old
  end.

(** Whether the sweep puts a record on the list [alerts_to_remove]. *)
Definition leaves (current_time : Q) (obs : option (bool * Z))
    (alert : Alert.t) : bool :=
  match obs with
  | Some (true, _) => false
  | _ => expired current_time alert
  end.

(** The identifiers of the observations are pairwise distinct. *)
Definition unique_ids (tracks : list Track.t) : Prop :=
  NoDup (map Track.track_id tracks).

(** No zone is the empty list of vertices. *)
Definition zones_nonempty (zones : list polygon) : Prop :=
  Forall (λ zone, zone ≠ []) zones.

(** On this tick the track is missing from the observations, or the centre
    of its box is outside every zone. *)
Definition away (tracks : list Track.t) (zones : list polygon) (track_id : Z)
  : Prop :=
  ∀ t, t ∈ tracks → Track.track_id t = track_id →
       ∃ r, scan_zones (get_bbox_center (Track.bbox t)) zones 0 = Ok (false, r).

(** What a frame leaves of the record [alert] of a track that stays away,
    when [alert] was last seen in a zone at time 0: before time 3 the track
    is in the set returned and its record is [alert] but for [is_active],
    which is false when the track is observed on that frame; from time 3 on
    the track is not in the set and has no record. *)
Definition after_frame (track_id : Z) (alert : Alert.t)
    (frame : Q * list Track.t) (o : Q * AlertManager * gset Z) : Prop :=
  let '(current_time, self, alerted_tracks) := o in
  current_time = frame.1
  ∧ (frame.1 < 3 →
     track_id ∈ alerted_tracks
     ∧ ∃ active,
         active_alerts self !! track_id
         = Some (Alert.set_is_active active alert)
         ∧ (track_id ∈ map Track.track_id frame.2 → active = false))
  ∧ (3 <= frame.1 →
     (track_id ∉ alerted_tracks) ∧ active_alerts self !! track_id = None).

(** The monitoring loop of [main.py]: one call of [update_alerts] per frame,
    on the same zones; the result lists, frame by frame, the time, the
    manager after the call and the set the call returned. *)
Fixpoint monitor (self : AlertManager) (zones : list polygon)
    (frames : list (Q * list Track.t))
  : result (list (Q * AlertManager * gset Z)) :=
  match frames with
  | [] => Ok []
  | (current_time, tracks) :: frames' =>
      '(self', alerted_tracks) ← update_alerts self current_time tracks zones;
      out ← monitor self' zones frames';
      Ok ((current_time, self', alerted_tracks) :: out)
  end.

(** The managers reached from a fresh one by calls of [update_alerts] that
    return, at times that do not decrease; the index is the time of the last
    call. *)
Inductive reachable : Q → AlertManager → Prop :=
| reachable_init (t : Q) : reachable t init
| reachable_tick (t : Q) (self : AlertManager) (current_time : Q)
    (tracks : list Track.t) (zones : list polygon)
    (self' : AlertManager) (alerted_tracks : gset Z) :
    reachable t self →
    t <= current_time →
    update_alerts self current_time tracks zones = Ok (self', alerted_tracks) →
    reachable current_time self'.

(** Every record was entered before it was last seen, and last seen at the
    time [t] at the latest. *)
Definition ledger_ok (t : Q) (alerts : gmap Z Alert.t) : Prop :=
  map_Forall (λ _ alert,
                Alert.entry_time alert <= Alert.last_seen_in_zone alert
                ∧ Alert.last_seen_in_zone alert <= t) alerts.

(** How a tick at [current_time] may write the timestamps of a record:
    a record that was not there has both set to the time of the tick; a
    record that was there keeps [entry_time], and [last_seen_in_zone] is kept
    or set to the time of the tick. *)
Definition record_step (current_time : Q) (old : option Alert.t)
    (new : Alert.t) : Prop :=
  match old with
  | None =>
      Alert.entry_time new = current_time
      ∧ Alert.last_seen_in_zone new = current_time
  | Some alert =>
      Alert.entry_time new = Alert.entry_time alert
      ∧ (Alert.last_seen_in_zone new = Alert.last_seen_in_zone alert
         ∨ Alert.last_seen_in_zone new = current_time)
  end.

(** The ledger [alerts] comes from [alerts0] by such writes, no record
    deleted. *)
Definition ledger_step (current_time : Q) (alerts0 alerts : gmap Z Alert.t)
  : Prop :=
  (∀ tid new, alerts !! tid = Some new →
              record_step current_time (alerts0 !! tid) new)
  ∧ (∀ tid, is_Some (alerts0 !! tid) → is_Some (alerts !! tid)).

(** ** Data of the examples *)

Definition square : polygon := [(0, 0); (10, 0); (10, 10); (0, 10)].

(** Two points, one short of a zone. *)
Definition segment : polygon := [(0, 0); (10, 10)].

(** Track 7, on the square and away from it. *)
Definition track7_inside : Track.t := Track.Make 7 (0, 0, 10, 10).
Definition track7_outside : Track.t := Track.Make 7 (20, 20, 30, 30).

(** The record of track 7 once it was found in the square at time 0, and
    the manager that holds it. *)
Definition alert7 : Alert.t := Alert.Make 7 0 0 0 true.

Definition after_entry : AlertManager :=
  Manager {[ 7%Z := alert7 ]} {[ 7%Z := get_bbox_center (0, 0, 10, 10) ]}.

(** The same once track 7 was seen outside the square. *)
Definition after_departure : AlertManager :=
  Manager {[ 7%Z := Alert.set_is_active false alert7 ]}
          {[ 7%Z := get_bbox_center (20, 20, 30, 30) ]}.

(** ** Further code: the key loop of [ZoneMarker.setup_zones]

    A marking session, from the point where the frame is read: the zones
    are loaded, the current points are emptied, and the loop takes the mouse
    events (through the callback) and the keys as they come.  The window
    calls and [draw_current_zone], which only read the marker, are left
    out; they can fail (the drawing of a zone without vertices does), so
    the model tells what a session that returns has done, not that it
    returns. *)

(** What comes in during a session: a mouse event, or the value of
    [cv2.waitKey(1)]. *)
Inductive marker_input : Type :=
| Mouse (event : mouse_event) (x y : Q)
| Key (code : Z).

(** The lines printed during a session: those of the callback, and the one
    of the key ['d']. *)
Inductive console_line : Set :=
| Callback_line (m : message)
| Last_zone_deleted (total : nat).

Definition session_world : Type :=
  (ZoneMarker * Config.zones_file * list console_line)%type.

(** [ord('q')], [ord('c')], [ord('d')] and the code of Esc. *)
Definition ord_q : Z := 113.
Definition ord_c : Z := 99.
Definition ord_d : Z := 100.
Definition key_esc : Z := 27.

(** The body of the loop once [waitKey] has returned [code]; the boolean is
    true on [break]. *)
Definition setup_zones_key (w : session_world) (code : Z)
  : session_world * bool :=
  let '(self, file, out) := w in
  let key := Z.land code 255 in
  if bool_decide (key = ord_q) || bool_decide (key = key_esc) then (w, true)
  else if bool_decide (key = ord_c) then
    match current_zone_points self with
    | [] => (w, false)
    | _ :: _ =>
        (Marker (removelast (current_zone_points self)) (zones self), file, out,
         false)
    end
  else if bool_decide (key = ord_d) then
    match zones self with
    | [] => (w, false)
    | _ :: _ =>
        let zones := removelast (zones self) in
        (Marker (current_zone_points self) zones, Config.save_zones zones,
         out ++ [Last_zone_deleted (length zones)],
         false)
    end
  else (w, false).

(** A mouse event during the session goes through the callback. *)
Definition setup_zones_mouse (w : session_world) (event : mouse_event)
    (x y : Q) : result session_world :=
  let '(self, file, out) := w in
  r ← mark_zones_callback (self, file, []) event x y;
  Ok (r.1.1, r.1.2, out ++ (Callback_line <$> r.2)).

(** The loop, until a key breaks it or the inputs run out. *)
Fixpoint setup_zones_loop (w : session_world) (inputs : list marker_input)
  : result session_world :=
  match inputs with
  | [] => Ok w
  | Mouse event x y :: inputs' =>
      w' ← setup_zones_mouse w event x y;
      setup_zones_loop w' inputs'
  | Key code :: inputs' =>
      let r := setup_zones_key w code in
      if r.2 then Ok r.1 else setup_zones_loop r.1 inputs'
  end.

(** [setup_zones]: the marker, the file and the console when the session
    ends; [self.zones] of the marker is what the method returns. *)
Definition setup_zones (file : Config.zones_file) (inputs : list marker_input)
  : result session_world :=
  zones ← Config.load_zones file;
  setup_zones_loop (Marker [] zones, file, []) inputs.

(** ** Further code: [RestrictedZoneMonitor.load_zones] of [main.py] *)

Module RestrictedZoneMonitor.

(** The monitor; its tracker is not part of the model. *)
Record t : Type := Make {
  alert_manager : AlertManager;
  zones : list polygon
}.

(** [load_zones]: the monitor with its zones loaded, the console, and the
    value returned. *)
Definition load_zones (self : t) (file : Config.zones_file)
    (out : list string) : result (t * list string * bool) :=
  zones ← Config.load_zones file;
  let self := Make (alert_manager self) zones in
  match zones with
  | [] =>
      Ok (self,
          out ++ ["No restricted zones found. Please mark zones first."%string],
          false)
  | _ :: _ => Ok (self, out, true)
  end.

End RestrictedZoneMonitor.

(** ** Further code: what is drawn about the alarm

    [Visualization.draw_alarm_status] of [tracker.py] and
    [RestrictedZoneMonitor.draw_additional_alerts] of [main.py].  A frame is
    its shape and the drawing calls made on it, in order. *)

Module Draw.

Inductive call : Type :=
| putText (text : string) (org : Z * Z) (fontFace : Z) (fontScale : Q)
    (color : Z * Z * Z) (thickness : Z)
| rectangle (pt1 pt2 : Z * Z) (color : Z * Z * Z) (thickness : Z).

(** [shape] is (rows, columns). *)
Record frame : Type := Frame {
  shape : Z * Z;
  calls : list call
}.

(** [cv2.FONT_HERSHEY_SIMPLEX], the value of [Config.FONT]. *)
Definition FONT : Z := 0.

(** [Config.ALARM_COLOR = (0, 0, 255)] *)
Definition ALARM_COLOR : Z * Z * Z := (0, 0, 255)%Z.

Definition draw_alarm_status (fr : frame) (alert_manager : AlertManager)
  : frame :=
  let total_alerts := get_alert_statistics alert_manager in
  if bool_decide (0 < total_alerts)%nat then
    Frame (shape fr)
          (calls fr ++ [putText "ALARM!" (10, 30)%Z FONT 1 ALARM_COLOR 2])
  else
    Frame (shape fr)
          (calls fr
           ++ [putText "Monitoring..." (10, 30)%Z FONT (7 # 10)
                       (0, 255, 0)%Z 2]).

Definition draw_additional_alerts (fr : frame) (alerted_tracks : gset Z)
  : frame :=
  if bool_decide (alerted_tracks ≠ ∅) then
    Frame (shape fr)
          (calls fr
           ++ [rectangle (0, 0)%Z ((shape fr).2, (shape fr).1) ALARM_COLOR 10])
  else fr.

End Draw.

(** ** Vocabulary of the further statements *)

(** The axis-aligned rectangle from [(x0, y0)] to [(x1, y1)]. *)
Definition rectangle_zone (x0 y0 x1 y1 : Q) : polygon :=
  [(x0, y0); (x1, y0); (x1, y1); (x0, y1)].

(** On this tick the centre of the box of the track is in some zone. *)
Definition in_zone (tracks : list Track.t) (zones : list polygon)
    (track_id : Z) : Prop :=
  ∃ t zone_id,
    t ∈ tracks ∧ Track.track_id t = track_id
    ∧ scan_zones (get_bbox_center (Track.bbox t)) zones 0 = Ok (true, zone_id).

(** Every record is filed under its own identifier and names a zone of the
    list. *)
Definition records_consistent (zones : list polygon)
    (alerts : gmap Z Alert.t) : Prop :=
  map_Forall (λ track_id alert,
                Alert.track_id alert = track_id
                ∧ (0 ≤ Alert.zone_id alert < Z.of_nat (length zones))%Z)
             alerts.

(** The left clicks that mark the points [pts], in order. *)
Definition clicks (pts : list point) : list marker_input :=
  map (λ p : point, Mouse EVENT_LBUTTONDOWN p.1 p.2) pts.

(** ** The containment test in double precision

    The centre of a box is a Python [float]: a binary64 number of IEEE 754,
    every operation rounding to the nearest, ties to even.  [Module Double]
    is [check_point_in_polygon] once more, line by line, with the numbers in
    that format: the operations are those of the specification of binary64
    of the Standard Library ([SpecFloat], precision 53, largest exponent
    1024).  An [int] vertex below 2^53 in magnitude stands for the double of
    the same value ([of_Z]), which is what Python makes of it in an operation
    with a [float]. *)

Module Double.

Definition t : Set := spec_float.

Definition prec : Z := 53.
Definition emax : Z := 1024.

Definition sub (a b : t) : t := SFsub prec emax a b.
Definition add (a b : t) : t := SFadd prec emax a b.
Definition mul (a b : t) : t := SFmul prec emax a b.

(** Comparisons; every comparison with a NaN is false. *)
Definition lt (a b : t) : bool := SFltb a b.
Definition le (a b : t) : bool := SFleb a b.
Definition eq (a b : t) : bool := SFeqb a b.

(** [min(a, b)] and [max(a, b)] keep the first argument unless the second
    one is strictly smaller, respectively larger. *)
Definition min (a b : t) : t := if lt b a then b else a.
Definition max (a b : t) : t := if lt a b then b else a.

(** True division: by a zero of either sign it raises. *)
Definition div (a b : t) : result t :=
  if eq b (S754_zero false) then Raise ZeroDivisionError
  else Ok (SFdiv prec emax a b).

(** The double of an integer. *)
Definition of_Z (n : Z) : t := binary_normalize prec emax n 0 false.

Definition point : Set := (t * t)%type.
Definition polygon : Set := list point.

Record ray_state : Type := RayState {
  inside : bool;
  xinters : option t;
  p1 : point
}.

(** One iteration of the loop, for the edge from [p1] to [p2]. *)
Definition polygon_edge (x y : t) (st : ray_state) (p2 : point)
  : result ray_state :=
  let '(p1x, p1y) := p1 st in
  let '(p2x, p2y) := p2 in
  let unchanged : result (bool * option t) := Ok (inside st, xinters st) in
  r ← (if lt (min p1y p2y) y then
         if le y (max p1y p2y) then
           if le x (max p1x p2x) then
             xi ← (if negb (eq p1y p2y) then
                     q ← div (mul (sub y p1y) (sub p2x p1x)) (sub p2y p1y);
                     Ok (Some (add q p1x))
                   else Ok (xinters st));
             c ← (if eq p1x p2x then Ok true
                  else match xi with
                       | Some v => Ok (le x v)
                       | None => Raise UnboundLocalError
                       end);
             Ok (if c : bool then negb (inside st) else inside st, xi)
           else unchanged
         else unchanged
       else unchanged);
  Ok (RayState r.1 r.2 p2).

Definition check_point_in_polygon (pt : point) (poly : polygon)
  : result bool :=
  let '(x, y) := pt in
  let n := length poly in
  first ← Py.index poly 0;
  st ← for_each
         (λ st i, p2 ← Py.index poly (i mod n); polygon_edge x y st p2)
         (RayState false None first)
         (seq 1 n);
  Ok (inside st).

(** *** The exact value of a double

    These definitions are not part of the program. *)

(** A zero or a number [m * 2^e] in the format: neither an infinity nor a
    NaN. *)
Definition is_finite (a : t) : bool :=
  match a with
  | S754_zero _ => true
  | S754_finite _ m e => bounded prec emax m e
  | S754_infinity _ | S754_nan => false
  end.

Definition finite_point (p : point) : bool := is_finite p.1 && is_finite p.2.

(** The value in units of [2^-1074], the smallest positive double. *)
Definition scaled (a : t) : Z :=
  match a with
  | S754_finite s m e => cond_Zopp s (Z.pos m * 2 ^ (e + 1074))
  | _ => 0%Z
  end.

(** The value of a finite double, in lowest terms. *)
Definition to_Q (a : t) : Q := Qred (scaled a # 2 ^ 1074).

Definition to_point (p : point) : Q * Q := (to_Q p.1, to_Q p.2).

Definition to_polygon (poly : polygon) : list (Q * Q) := map to_point poly.

Fixpoint edges_from (a : point) (l : list point) : list (point * point) :=
  match l with
  | [] => []
  | b :: l' => (a, b) :: edges_from b l'
  end.

Definition polygon_edges (poly : polygon) : list (point * point) :=
  match poly with
  | [] => []
  | v0 :: rest => edges_from v0 (rest ++ [v0])
  end.

(** The crossing abscissa as the loop computes it. *)
Definition crossing (y : t) (a b : point) : result t :=
  q ← div (mul (sub y a.2) (sub b.1 a.1)) (sub b.2 a.2);
  Ok (add q a.1).

End Double.

(** The three comparisons that guard the crossing test, and the crossing
    abscissa of the edge from [a] to [b] at the height [y], in exact
    arithmetic. *)
Definition guards (x y : Q) (a b : point) : bool :=
  Py.lt (Py.min a.2 b.2) y && Py.le y (Py.max a.2 b.2)
  && Py.le x (Py.max a.1 b.1).

Definition crossing (y : Q) (a b : point) : Q :=
  (y - a.2) * (b.1 - a.1) / (b.2 - a.2) + a.1.

(** Rounding does no harm on an edge when, the guards being passed, the
    crossing is computed without error and, unless the edge is vertical, the
    computed crossing is on the same side of [x] as the exact one. *)
Definition edge_decided (x y : Double.t)
    (e : Double.point * Double.point) : bool :=
  negb (guards (Double.to_Q x) (Double.to_Q y)
               (Double.to_point e.1) (Double.to_point e.2))
  || match Double.crossing y e.1 e.2 with
     | Ok c =>
         Py.eq (Double.to_Q (e.1).1) (Double.to_Q (e.2).1)
         || Bool.eqb (Double.le x c)
                     (Py.le (Double.to_Q x)
                            (crossing (Double.to_Q y) (Double.to_point e.1)
                                      (Double.to_point e.2)))
     | Raise _ => false
     end.

Definition rounding_harmless (x y : Double.t) (poly : Double.polygon)
  : bool :=
  forallb (edge_decided x y) (Double.polygon_edges poly).

(** Strictly outside the range of the vertices on a side where the guards
    alone reject every edge: below, above or to the right. *)
Definition outside_guarded (p : point) (poly : polygon) : Prop :=
  (∀ v, v ∈ poly → v.1 < p.1)
  ∨ (∀ v, v ∈ poly → p.2 < v.2) ∨ (∀ v, v ∈ poly → v.2 < p.2).


(** Example data: the double next above 1/3, printed 0.33333333333333337 by
    Python, and a triangle. *)
Definition third_up : Double.t := S754_finite false 6004799503160662 (-54).

Definition triangle : polygon := [(5, 0); (1, 3); (0, 0)].

Definition double_triangle : Double.polygon :=
  [(Double.of_Z 5, Double.of_Z 0); (Double.of_Z 1, Double.of_Z 3);
   (Double.of_Z 0, Double.of_Z 0)].

(** A triangle with two vertices far to the right, and the double -1.5. *)
Definition far_triangle : polygon :=
  [(9007199254740994, 0); (-1, 1); (9007199254740994, 2)].

Definition double_far_triangle : Double.polygon :=
  [(Double.of_Z 9007199254740994, Double.of_Z 0);
   (Double.of_Z (-1), Double.of_Z 1);
   (Double.of_Z 9007199254740994, Double.of_Z 2)].

Definition minus_three_halves : Double.t :=
  S754_finite true 6755399441055744 (-52).

Definition double_segment : Double.polygon :=
  [(Double.of_Z 0, Double.of_Z 0); (Double.of_Z 1, Double.of_Z 3)].

(** ** Lemmas on the error monad and on Python arithmetic *)

Lemma for_each_app {S A} (body : S → A → result S) s l1 l2 :
  for_each body s (l1 ++ l2) = (s' ← for_each body s l1; for_each body s' l2).
Proof.
  revert s. induction l1 as [|a l1 IH]; intros s; simpl; [done|].
  destruct (body s a); simpl; [apply IH | done].
Qed.

Lemma for_each_ext {S A} (f g : S → A → result S) s l :
  (∀ s a, a ∈ l → f s a = g s a) → for_each f s l = for_each g s l.
Proof.
  revert s. induction l as [|a l IH]; intros s Hfg; simpl; [done|].
  rewrite Hfg by left. destruct (g s a); simpl; [|done].
  apply IH. intros s' a' Ha'. apply Hfg. by right.
Qed.

Module PyFacts.

Lemma lt_true a b : Py.lt a b = true ↔ a < b.
Proof.
  unfold Py.lt. rewrite negb_true_iff. split.
  - intros H. apply Qnot_le_lt. intros Hle.
    apply Qle_bool_iff in Hle. congruence.
  - intros H. destruct (Qle_bool b a) eqn:E; [|done].
    apply Qle_bool_iff in E. lra.
Qed.

Lemma lt_false a b : Py.lt a b = false ↔ b <= a.
Proof.
  unfold Py.lt. rewrite negb_false_iff. apply Qle_bool_iff.
Qed.

Lemma le_true a b : Py.le a b = true ↔ a <= b.
Proof. apply Qle_bool_iff. Qed.

Lemma le_false a b : Py.le a b = false ↔ b < a.
Proof.
  unfold Py.le. split.
  - intros H. apply Qnot_le_lt. intros Hle.
    apply Qle_bool_iff in Hle. congruence.
  - intros H. destruct (Qle_bool a b) eqn:E; [|done].
    apply Qle_bool_iff in E. lra.
Qed.

Lemma eq_true a b : Py.eq a b = true ↔ a == b.
Proof. apply Qeq_bool_iff. Qed.

Lemma eq_false a b : Py.eq a b = false ↔ ¬ a == b.
Proof.
  unfold Py.eq. split.
  - intros H Heq. apply Qeq_bool_iff in Heq. congruence.
  - intros H. destruct (Qeq_bool a b) eqn:E; [|done].
    apply Qeq_bool_iff in E. done.
Qed.

Lemma min_spec a b : (b < a ∧ Py.min a b = b) ∨ (a <= b ∧ Py.min a b = a).
Proof.
  unfold Py.min. destruct (Py.lt b a) eqn:E.
  - left. by apply lt_true in E.
  - right. by apply lt_false in E.
Qed.

Lemma max_spec a b : (a < b ∧ Py.max a b = b) ∨ (b <= a ∧ Py.max a b = a).
Proof.
  unfold Py.max. destruct (Py.lt a b) eqn:E.
  - left. by apply lt_true in E.
  - right. by apply lt_false in E.
Qed.

End PyFacts.

(** ** The edge loop of [check_point_in_polygon] *)

Section EdgeLoop.

Variables x y : Q.

(** The three guards before the toggle test exclude a horizontal edge. *)
Lemma guarded_edge_not_horizontal (p1y p2y : Q) :
  Py.lt (Py.min p1y p2y) y = true →
  Py.le y (Py.max p1y p2y) = true →
  Py.eq p1y p2y = false.
Proof.
  intros Hlo Hhi. apply PyFacts.lt_true in Hlo. apply PyFacts.le_true in Hhi.
  apply PyFacts.eq_false. intros Heq.
  destruct (PyFacts.min_spec p1y p2y) as [[? Hm]|[? Hm]]; rewrite Hm in Hlo;
    destruct (PyFacts.max_spec p1y p2y) as [[? HM]|[? HM]]; rewrite HM in Hhi;
    lra.
Qed.

Lemma div_guarded (a p1y p2y : Q) :
  Py.eq p1y p2y = false → Py.div a (p2y - p1y) = Ok (a / (p2y - p1y)).
Proof.
  intros Hne. unfold Py.div.
  destruct (Py.eq (p2y - p1y) 0) eqn:E; [|done].
  apply PyFacts.eq_true in E. apply PyFacts.eq_false in Hne.
  exfalso. apply Hne. lra.
Qed.

(** An iteration never raises, and what it does to [inside] does not
    depend on the value [xinters] had before. *)
Lemma polygon_edge_toggles (st : ray_state) (p2 : point) :
  ∃ xi, polygon_edge x y st p2
        = Ok (RayState (xorb (inside st) (toggles x y (p1 st) p2)) xi p2).
Proof.
  unfold polygon_edge, toggles.
  destruct (p1 st) as [p1x p1y], p2 as [p2x p2y]. simpl.
  destruct (Py.lt (Py.min p1y p2y) y) eqn:Hlo; simpl;
    [|destruct (inside st); eauto].
  destruct (Py.le y (Py.max p1y p2y)) eqn:Hhi; simpl;
    [|destruct (inside st); eauto].
  destruct (Py.le x (Py.max p1x p2x)) eqn:Hx; simpl;
    [|destruct (inside st); eauto].
  rewrite (guarded_edge_not_horizontal _ _ Hlo Hhi). simpl.
  rewrite div_guarded by (by apply guarded_edge_not_horizontal). simpl.
  destruct (Py.eq p1x p2x); simpl; [destruct (inside st); eauto|].
  destruct (Py.le x (_ / _ + _)); simpl; destruct (inside st); eauto.
Qed.

Lemma for_each_polygon_edge (l : list point) (st : ray_state) :
  ∃ st', for_each (polygon_edge x y) st l = Ok st'
         ∧ inside st' = xorb (inside st) (parity x y (edges_from (p1 st) l)).
Proof.
  unfold parity.
  revert st. induction l as [|p2 l IH]; intros st; simpl.
  - exists st. by rewrite xorb_false_r.
  - destruct (polygon_edge_toggles st p2) as [xi ->]. simpl.
    destruct (IH (RayState (xorb (inside st) (toggles x y (p1 st) p2)) xi p2))
      as (st' & -> & Hin).
    exists st'. split; [done|]. rewrite Hin. simpl.
    by rewrite xorb_assoc.
Qed.

(** The indices [i % n] for [i] in [range(1, n + 1)] walk through the
    polygon from its second vertex and end on its first. *)
Lemma index_middle {A} (pre l : list A) (a : A) :
  Py.index (pre ++ a :: l) (length pre) = Ok a.
Proof.
  unfold Py.index. rewrite lookup_app_r by lia. by rewrite Nat.sub_diag.
Qed.

Lemma for_each_index {S A} (f : S → A → result S) (pre l : list A) s :
  for_each (λ s i, p2 ← Py.index (pre ++ l) i; f s p2) s
           (seq (length pre) (length l))
  = for_each f s l.
Proof.
  revert pre s. induction l as [|a l IH]; intros pre s; [done|].
  cbn [length seq for_each]. rewrite index_middle.
  cbn [mbind result_bind].
  destruct (f s a) as [s'|e]; [|done].
  specialize (IH (pre ++ [a]) s').
  rewrite <- !app_assoc, length_app in IH. cbn [length app] in IH.
  rewrite Nat.add_1_r in IH. exact IH.
Qed.

Lemma edge_loop_unrolled {S A} (f : S → A → result S) v0 rest s :
  for_each (λ s i, p2 ← Py.index (v0 :: rest) (i mod length (v0 :: rest));
                   f s p2)
           s (seq 1 (length (v0 :: rest)))
  = for_each f s (rest ++ [v0]).
Proof.
  change (length (v0 :: rest)) with (Datatypes.S (length rest)).
  rewrite seq_S, !for_each_app.
  rewrite (for_each_ext _ (λ s i, p2 ← Py.index (v0 :: rest) i; f s p2)).
  - pose proof (for_each_index f [v0] rest s) as Hrest.
    cbn [length app] in Hrest. rewrite Hrest.
    destruct (for_each f s rest) as [s'|e]; [|done].
    cbn [mbind result_bind for_each].
    replace ((1 + length rest) mod Datatypes.S (length rest))%nat
      with 0%nat by (symmetry; apply Nat.Div0.mod_same).
    done.
  - intros s' i Hi. apply elem_of_seq in Hi.
    by rewrite Nat.mod_small by lia.
Qed.

Lemma check_point_in_polygon_parity (v0 : point) (rest : list point) :
  check_point_in_polygon (x, y) (v0 :: rest)
  = Ok (parity x y (polygon_edges (v0 :: rest))).
Proof.
  unfold check_point_in_polygon.
  change (Py.index (v0 :: rest) 0) with (Ok v0). cbn [mbind result_bind].
  rewrite (edge_loop_unrolled (polygon_edge x y)).
  destruct (for_each_polygon_edge (rest ++ [v0]) (RayState false None v0))
    as (st' & -> & Hin).
  simpl. by rewrite Hin.
Qed.

End EdgeLoop.

Lemma check_point_in_polygon_empty (pt : point) :
  check_point_in_polygon pt [] = Raise IndexError.
Proof. by destruct pt. Qed.

(** ** Counting toggles along the edges *)

Lemma odd_count_ext (g h : point * point → bool) es :
  (∀ e, e ∈ es → g e = h e) → odd_count g es = odd_count h es.
Proof.
  induction es as [|e es IH]; intros Hgh; simpl; [done|].
  rewrite Hgh by left. f_equal. apply IH. intros e' He'. apply Hgh. by right.
Qed.

Lemma odd_count_none g es :
  (∀ e, e ∈ es → g e = false) → odd_count g es = false.
Proof.
  induction es as [|e es IH]; intros Hg; simpl; [done|].
  rewrite Hg by left. simpl. apply IH. intros e' He'. apply Hg. by right.
Qed.

Lemma odd_count_app g es1 es2 :
  odd_count g (es1 ++ es2) = xorb (odd_count g es1) (odd_count g es2).
Proof.
  induction es1 as [|e es1 IH]; simpl.
  - by destruct (odd_count g es2).
  - rewrite IH. by rewrite xorb_assoc.
Qed.

(** Exactly one edge counted: the parity is odd. *)
Lemma odd_count_one g es1 e es2 :
  g e = true →
  (∀ e', e' ∈ es1 → g e' = false) → (∀ e', e' ∈ es2 → g e' = false) →
  odd_count g (es1 ++ e :: es2) = true.
Proof.
  intros He H1 H2. rewrite odd_count_app. simpl.
  by rewrite He, (odd_count_none g es1), (odd_count_none g es2).
Qed.

Lemma last_nonempty_default (l : list point) (c a b : point) :
  List.last (c :: l) a = List.last (c :: l) b.
Proof.
  revert c. induction l as [|d l IH]; intros c; [done|].
  change (List.last (d :: l) a = List.last (d :: l) b). apply IH.
Qed.

Lemma last_cons_point (l : list point) (a b : point) :
  List.last (b :: l) a = List.last l b.
Proof.
  revert b. induction l as [|c l IH]; intros b; [done|].
  change (List.last (c :: l) a = List.last (c :: l) b).
  apply last_nonempty_default.
Qed.

(** Along a path, the changes of a flag [β] between the ends of each edge
    add up to the change between the two ends of the path. *)
Lemma odd_count_telescope (β : point → bool) a l :
  odd_count (λ e, xorb (β e.1) (β e.2)) (edges_from a l)
  = xorb (β a) (β (List.last l a)).
Proof.
  revert a. induction l as [|b l IH]; intros a.
  - simpl. by destruct (β a).
  - change (edges_from a (b :: l)) with ((a, b) :: edges_from b l).
    cbn [odd_count fst snd]. rewrite IH, last_cons_point.
    by destruct (β a), (β b), (β (List.last l b)).
Qed.

Lemma last_snoc_point (l : list point) (a d : point) :
  List.last (l ++ [a]) d = a.
Proof. apply last_last. Qed.

(** Around a closed polygon the changes cancel. *)
Lemma odd_count_closed (β : point → bool) poly :
  odd_count (λ e, xorb (β e.1) (β e.2)) (polygon_edges poly) = false.
Proof.
  destruct poly as [|v0 rest]; [done|]. unfold polygon_edges.
  rewrite odd_count_telescope, last_snoc_point. by destruct (β v0).
Qed.

(** ** The edges of a polygon *)

Lemma edges_from_ends a l e :
  e ∈ edges_from a l → e.1 ∈ a :: l ∧ e.2 ∈ l.
Proof.
  revert a. induction l as [|b l IH]; intros a He; simpl in He.
  - by apply elem_of_nil in He.
  - apply elem_of_cons in He as [->|He]; simpl.
    + split; [left | left].
    + apply IH in He as [H1 H2]. split; right; done.
Qed.

Lemma polygon_edges_ends poly e :
  e ∈ polygon_edges poly → e.1 ∈ poly ∧ e.2 ∈ poly.
Proof.
  destruct poly as [|v0 rest]; simpl; intros He.
  - by apply elem_of_nil in He.
  - apply edges_from_ends in He as [H1 H2]. split.
    + apply elem_of_cons in H1 as [->|H1]; [left|].
      apply elem_of_app in H1 as [H1|H1]; [by right|].
      apply list_elem_of_singleton in H1 as ->. left.
    + apply elem_of_app in H2 as [H2|H2]; [by right|].
      apply list_elem_of_singleton in H2 as ->. left.
Qed.

(** Two edges in a row share a vertex. *)
Lemma edges_from_consecutive a l l1 e e' l3 :
  edges_from a l = l1 ++ e :: e' :: l3 → e.2 = e'.1.
Proof.
  revert a l1. induction l as [|b l IH]; intros a l1 Heq.
  - by destruct l1.
  - destruct l1 as [|e0 l1]; simpl in Heq.
    + destruct l as [|c l]; [done|]. simpl in Heq. by simplify_eq.
    + injection Heq as _ Heq. by apply (IH b l1).
Qed.

Lemma edges_from_first a l e es :
  edges_from a l = e :: es → e.1 = a.
Proof. destruct l; simpl; [done|]. by intros [= <- _]. Qed.

Lemma edges_from_last a l es e :
  edges_from a l = es ++ [e] → e.2 = List.last l a.
Proof.
  revert a es. induction l as [|b l IH]; intros a es Heq.
  - by destruct es.
  - destruct l as [|c l].
    + simpl in Heq. destruct es as [|e0 es].
      * injection Heq as <-. done.
      * injection Heq as _ Heq. by destruct es.
    + destruct es as [|e0 es]; [done|].
      change (edges_from a (b :: c :: l)) with ((a, b) :: edges_from b (c :: l))
        in Heq.
      injection Heq as _ Heq. apply IH in Heq. rewrite Heq.
      symmetry. apply last_cons_point.
Qed.

(** The last edge of a polygon ends where the first one starts. *)
Lemma polygon_edges_closed poly e es e' :
  polygon_edges poly = e :: es ++ [e'] → e'.2 = e.1.
Proof.
  destruct poly as [|v0 rest]; [done|]. unfold polygon_edges. intros Heq.
  rewrite (edges_from_first _ _ _ _ Heq).
  rewrite (edges_from_last v0 (rest ++ [v0]) (e :: es) e' Heq).
  apply last_snoc_point.
Qed.

(** ** Which edges flip [inside] *)

Lemma le_crossing_pos (x n d a1 : Q) :
  0 < d → x <= n / d + a1 ↔ (x - a1) * d <= n.
Proof.
  intros Hd. assert (Hq : n / d * d == n) by (field; lra).
  set (q := n / d) in *. clearbody q. split; intros H; nra.
Qed.

Lemma le_crossing_neg (x n d a1 : Q) :
  d < 0 → x <= n / d + a1 ↔ n <= (x - a1) * d.
Proof.
  intros Hd. assert (Hq : n / d * d == n) by (field; lra).
  set (q := n / d) in *. clearbody q. split; intros H; nra.
Qed.

(** [toggles] as a proposition, the minima and maxima resolved. *)
Lemma toggles_true x y (a b : point) :
  toggles x y a b = true ↔
  ((a.2 < y ∧ y <= b.2) ∨ (b.2 < y ∧ y <= a.2))
  ∧ (x <= a.1 ∨ x <= b.1)
  ∧ (a.1 == b.1 ∨ x <= (y - a.2) * (b.1 - a.1) / (b.2 - a.2) + a.1).
Proof.
  destruct a as [a1 a2], b as [b1 b2]. unfold toggles. simpl.
  rewrite !andb_true_iff, orb_true_iff, PyFacts.lt_true, !PyFacts.le_true,
    PyFacts.eq_true.
  destruct (PyFacts.min_spec a2 b2) as [[? ->]|[? ->]];
    destruct (PyFacts.max_spec a2 b2) as [[? ->]|[? ->]];
    destruct (PyFacts.max_spec a1 b1) as [[? ->]|[? ->]];
    (split; [intros [[[? ?] ?] ?] | intros [[[? ?]|[? ?]] [[?|?] ?]]]);
    repeat split; try done; try lra; try (left; lra); try (right; lra).
Qed.

Lemma toggles_left x y (a b : point) :
  0 < cross a b (x, y) → toggles x y a b = below y a && negb (below y b).
Proof.
  intros Hc. apply eq_true_iff_eq.
  rewrite toggles_true, andb_true_iff, negb_true_iff.
  unfold below. rewrite PyFacts.lt_true, PyFacts.lt_false.
  destruct a as [a1 a2], b as [b1 b2]. unfold cross in Hc. simpl in *.
  split.
  - intros ([[? ?]|[? ?]] & Hx & Hi); [done|exfalso].
    destruct Hi as [Hi|Hi].
    + destruct Hx as [Hx|Hx]; nra.
    + apply le_crossing_neg in Hi; [nra|lra].
  - intros [? ?]. split; [by left|]. split.
    + destruct (Qlt_le_dec a1 b1); [right|left]; nra.
    + right. apply le_crossing_pos; [lra|nra].
Qed.

Lemma toggles_right x y (a b : point) :
  cross a b (x, y) < 0 → toggles x y a b = negb (below y a) && below y b.
Proof.
  intros Hc. apply eq_true_iff_eq.
  rewrite toggles_true, andb_true_iff, negb_true_iff.
  unfold below. rewrite PyFacts.lt_true, PyFacts.lt_false.
  destruct a as [a1 a2], b as [b1 b2]. unfold cross in Hc. simpl in *.
  split.
  - intros ([[? ?]|[? ?]] & Hx & Hi); [exfalso|done].
    destruct Hi as [Hi|Hi].
    + destruct Hx as [Hx|Hx]; nra.
    + apply le_crossing_pos in Hi; [nra|lra].
  - intros [? ?]. split; [by right|]. split.
    + destruct (Qlt_le_dec a1 b1); [right|left]; nra.
    + right. apply le_crossing_neg; [lra|nra].
Qed.

(** Left of both ends of an edge, every edge that straddles the height of
    the point is counted. *)
Lemma toggles_far_left x y (a b : point) :
  x < a.1 → x < b.1 → toggles x y a b = xorb (below y a) (below y b).
Proof.
  intros Ha Hb. apply eq_true_iff_eq.
  rewrite toggles_true. unfold below.
  destruct a as [a1 a2], b as [b1 b2]. simpl in *.
  destruct (Py.lt a2 y) eqn:Ea, (Py.lt b2 y) eqn:Eb; simpl;
    repeat match goal with
           | H : Py.lt _ _ = true |- _ => apply PyFacts.lt_true in H
           | H : Py.lt _ _ = false |- _ => apply PyFacts.lt_false in H
           end;
    (split; [intros ([[? ?]|[? ?]] & _ & _); try done; exfalso; lra | intros H]);
    try done.
  - split; [left; lra|]. split; [left; lra|].
    right. apply le_crossing_pos; [lra|nra].
  - split; [right; lra|]. split; [left; lra|].
    right. apply le_crossing_neg; [lra|nra].
Qed.

Lemma toggles_far_right x y (a b : point) :
  a.1 < x → b.1 < x → toggles x y a b = false.
Proof.
  intros Ha Hb. apply not_true_is_false. rewrite toggles_true.
  intros (_ & [?|?] & _); lra.
Qed.

Lemma toggles_above x y (a b : point) :
  a.2 < y → b.2 < y → toggles x y a b = false.
Proof.
  intros Ha Hb. apply not_true_is_false. rewrite toggles_true.
  intros ([[? ?]|[? ?]] & _); lra.
Qed.

Lemma toggles_under x y (a b : point) :
  y < a.2 → y < b.2 → toggles x y a b = false.
Proof.
  intros Ha Hb. apply not_true_is_false. rewrite toggles_true.
  intros ([[? ?]|[? ?]] & _); lra.
Qed.

(** ** A closed polygon around a point straddles its height *)

Lemma ahead_step (u v w : point) :
  0 <= u.2 → 0 <= v.2 → 0 <= w.2 →
  ahead u v → 0 < v.1 * w.2 - v.2 * w.1 → ahead u w.
Proof.
  destruct u as [u1 u2], v as [v1 v2], w as [w1 w2]. unfold ahead. simpl.
  intros Hu Hv Hw [Huv|(Hu0 & Hv0 & Hu1 & Hv1)] Hvw.
  - assert (Hid : (u1 * w2 - u2 * w1) * v2
                  == (u1 * v2 - u2 * v1) * w2 + (v1 * w2 - v2 * w1) * u2)
      by ring.
    destruct (Qlt_le_dec 0 v2) as [Hv2|Hv2].
    + destruct (Qlt_le_dec 0 (u1 * w2 - u2 * w1)) as [Hpos|Hneg]; [by left|].
      assert (HA : 0 <= (u1 * v2 - u2 * v1) * w2)
        by (apply Qmult_le_0_compat; lra).
      assert (HB : 0 <= (v1 * w2 - v2 * w1) * u2)
        by (apply Qmult_le_0_compat; lra).
      assert (HC : 0 <= (u2 * w1 - u1 * w2) * v2)
        by (apply Qmult_le_0_compat; lra).
      assert (Hw0 : w2 == 0).
      { apply Qle_antisym; [|done]. apply Qnot_lt_le. intros Hpos.
        assert (0 < (u1 * v2 - u2 * v1) * w2)
          by (apply Qmult_lt_0_compat; lra).
        lra. }
      assert (Hu0 : u2 == 0).
      { apply Qle_antisym; [|done]. apply Qnot_lt_le. intros Hpos.
        assert (0 < (v1 * w2 - v2 * w1) * u2)
          by (apply Qmult_lt_0_compat; lra).
        lra. }
      right. split; [done|]. split; [done|].
      clear HA HB HC Hid Hneg. rewrite Hu0 in Huv. rewrite Hw0 in Hvw.
      split; nra.
    + exfalso. assert (Hv0 : v2 == 0) by lra.
      rewrite Hv0 in Huv, Hvw. clear Hid.
      destruct (Qlt_le_dec 0 v1); nra.
  - exfalso. rewrite Hv0 in Hvw. nra.
Qed.

Lemma ahead_irrefl (u : point) : ¬ ahead u u.
Proof. destruct u as [u1 u2]. unfold ahead. simpl. intros [?|?]; lra. Qed.

Section ClosedChain.

(** The vertices as seen from the point, possibly mirrored. *)
Variable g : point → point.

Lemma chain_ahead (u a : point) (l : list point) :
  0 <= (g u).2 → (∀ v, v ∈ a :: l → 0 <= (g v).2) →
  ahead (g u) (g a) →
  (∀ e, e ∈ edges_from a l → turns_left g e) →
  ∀ v, v ∈ l → ahead (g u) (g v).
Proof.
  intros Hu. revert a. induction l as [|b l IH]; intros a Hup Ha Hturn v Hv.
  - by apply elem_of_nil in Hv.
  - assert (Hb : ahead (g u) (g b)).
    { apply (ahead_step _ (g a)); [done|apply Hup; left|
        apply Hup; right; left|done|].
      apply (Hturn (a, b)). left. }
    apply elem_of_cons in Hv as [->|Hv]; [done|].
    apply (IH b); [|done| |done].
    + intros v' Hv'. apply Hup. by right.
    + intros e He. apply Hturn. by right.
Qed.

(** No closed chain turns left at every edge inside a half-plane. *)
Lemma no_closed_chain (poly : polygon) :
  poly ≠ [] →
  (∀ v, v ∈ poly → 0 <= (g v).2) →
  (∀ e, e ∈ polygon_edges poly → turns_left g e) →
  False.
Proof.
  destruct poly as [|v0 rest]; [done|]. intros _ Hup Hturn.
  unfold polygon_edges in Hturn.
  assert (Hup' : ∀ v, v ∈ rest ++ [v0] → 0 <= (g v).2).
  { intros v Hv. apply Hup. apply elem_of_app in Hv as [Hv|Hv]; [by right|].
    apply list_elem_of_singleton in Hv as ->. left. }
  destruct (rest ++ [v0]) as [|b l] eqn:Hpath; [by destruct rest|].
  assert (Hb : ahead (g v0) (g b)).
  { left. apply (Hturn (v0, b)). left. }
  assert (Hall : ∀ v, v ∈ b :: l → ahead (g v0) (g v)).
  { intros v Hv. apply elem_of_cons in Hv as [->|Hv]; [done|].
    apply (chain_ahead v0 b l); [apply Hup; left| |done| |done].
    - intros v' Hv'. by apply Hup'.
    - intros e He. apply Hturn. by right. }
  apply (ahead_irrefl (g v0)). apply Hall. rewrite <- Hpath.
  apply elem_of_app. right. left.
Qed.

End ClosedChain.

(** A flag that is raised somewhere and lowered somewhere else on a closed
    polygon drops along one of its edges. *)
Section Drop.

Variable β : point → bool.

Lemma path_stays (a : point) (l : list point) :
  (∀ e, e ∈ edges_from a l → ¬ drops β e) → β a = true →
  ∀ v, v ∈ l → β v = true.
Proof.
  revert a. induction l as [|b l IH]; intros a Hno Ha v Hv.
  - by apply elem_of_nil in Hv.
  - assert (Hb : β b = true).
    { destruct (β b) eqn:Eb; [done|]. exfalso.
      apply (Hno (a, b)); [left | done]. }
    apply elem_of_cons in Hv as [->|Hv]; [done|].
    apply (IH b); [|done|done]. intros e He. apply Hno. by right.
Qed.

Lemma path_reaches (a : point) (l : list point) (v : point) :
  (∀ e, e ∈ edges_from a l → ¬ drops β e) → v ∈ a :: l → β v = true →
  β (List.last l a) = true.
Proof.
  revert a v. induction l as [|b l IH]; intros a v Hno Hv Hβ.
  - apply list_elem_of_singleton in Hv as ->. done.
  - rewrite last_cons_point.
    apply elem_of_cons in Hv as [->|Hv].
    + assert (Hb : β b = true) by (apply (path_stays a (b :: l)); [done..|left]).
      apply (IH b b); [|left|done]. intros e He. apply Hno. by right.
    + apply (IH b v); [|done|done]. intros e He. apply Hno. by right.
Qed.

Lemma closed_path_drops (poly : polygon) (vT vF : point) :
  vT ∈ poly → β vT = true → vF ∈ poly → β vF = false →
  ∃ e, e ∈ polygon_edges poly ∧ drops β e.
Proof.
  intros HvT HT HvF HF.
  destruct (decide (Exists (λ e, β e.1 = true ∧ β e.2 = false)
                           (polygon_edges poly))) as [Hex|Hno].
  { apply Exists_exists in Hex. done. }
  exfalso.
  assert (Hno' : ∀ e, e ∈ polygon_edges poly → ¬ drops β e).
  { intros e He Hd. apply Hno. apply Exists_exists. eauto. }
  destruct poly as [|v0 rest]; [by apply elem_of_nil in HvT|].
  unfold polygon_edges in Hno'.
  assert (H0 : β v0 = true).
  { rewrite <- (last_snoc_point rest v0 v0).
    apply (path_reaches v0 (rest ++ [v0]) vT); [done| |done].
    apply elem_of_cons in HvT as [->|HvT]; [left|].
    right. apply elem_of_app. by left. }
  assert (β vF = true); [|congruence].
  apply elem_of_cons in HvF as [->|HvF]; [done|].
  apply (path_stays v0 (rest ++ [v0])); [done..|].
  apply elem_of_app. by left.
Qed.

End Drop.

(** ** At most one edge of a convex polygon crosses a height in each
    direction *)

Lemma fraction_bounds (n d : Q) :
  (0 < d ∧ 0 <= n ∧ n <= d) ∨ (d < 0 ∧ d <= n ∧ n <= 0) →
  0 <= n / d ∧ n / d <= 1 ∧ n / d * d == n.
Proof.
  intros Hnd. assert (Hq : n / d * d == n) by (field; lra).
  set (t := n / d) in *. clearbody t.
  destruct Hnd as [(? & ? & ?)|(? & ? & ?)]; repeat split; try done; nra.
Qed.

Lemma product_sign (u v : Q) :
  0 < u * v → (0 < u ∧ 0 < v) ∨ (u < 0 ∧ v < 0).
Proof.
  intros Huv. destruct (Qlt_le_dec 0 u) as [Hp|Hn].
  - left. split; [done|]. nra.
  - assert (Hne : ¬ u == 0) by (intros E; rewrite E in Huv; lra).
    assert (u < 0) by lra. right. split; [done|]. nra.
Qed.

(** Two edges that cross the height [y] in the same direction, each with the
    ends of the other weakly on one and the same side, cross it at the same
    abscissa. *)
Lemma crossing_unique (a1 a2 b1 b2 c1 c2 d1 d2 y t s : Q) :
  0 <= t → t <= 1 → 0 <= s → s <= 1 →
  t * (b2 - a2) == y - a2 → s * (d2 - c2) == y - c2 →
  0 < (b2 - a2) * (d2 - c2) →
  (0 <= cross (a1, a2) (b1, b2) (c1, c2) ∧ 0 <= cross (a1, a2) (b1, b2) (d1, d2)
   ∧ 0 <= cross (c1, c2) (d1, d2) (a1, a2)
   ∧ 0 <= cross (c1, c2) (d1, d2) (b1, b2))
  ∨ (cross (a1, a2) (b1, b2) (c1, c2) <= 0
     ∧ cross (a1, a2) (b1, b2) (d1, d2) <= 0
     ∧ cross (c1, c2) (d1, d2) (a1, a2) <= 0
     ∧ cross (c1, c2) (d1, d2) (b1, b2) <= 0) →
  a1 + t * (b1 - a1) == c1 + s * (d1 - c1).
Proof.
  unfold cross; simpl. intros Ht0 Ht1 Hs0 Hs1 Hty Hsy Hdir Hside.
  set (q := a1 + t * (b1 - a1)). set (q' := c1 + s * (d1 - c1)).
  assert (E : (b2 - a2) * (q - q') ==
              (1 - s) * ((b1 - a1) * (c2 - a2) - (b2 - a2) * (c1 - a1))
              + s * ((b1 - a1) * (d2 - a2) - (b2 - a2) * (d1 - a1))).
  { unfold q, q'.
    assert (E1 : (b1 - a1) * (t * (b2 - a2)) == (b1 - a1) * (y - a2))
      by (rewrite Hty; reflexivity).
    assert (E2 : (b1 - a1) * (s * (d2 - c2)) == (b1 - a1) * (y - c2))
      by (rewrite Hsy; reflexivity).
    lra. }
  assert (E' : (d2 - c2) * (q' - q) ==
               (1 - t) * ((d1 - c1) * (a2 - c2) - (d2 - c2) * (a1 - c1))
               + t * ((d1 - c1) * (b2 - c2) - (d2 - c2) * (b1 - c1))).
  { unfold q, q'.
    assert (E1 : (d1 - c1) * (t * (b2 - a2)) == (d1 - c1) * (y - a2))
      by (rewrite Hty; reflexivity).
    assert (E2 : (d1 - c1) * (s * (d2 - c2)) == (d1 - c1) * (y - c2))
      by (rewrite Hsy; reflexivity).
    lra. }
  clearbody q q'.
  assert (Hq : (0 <= (b2 - a2) * (q - q') ∧ 0 <= (d2 - c2) * (q' - q))
               ∨ ((b2 - a2) * (q - q') <= 0 ∧ (d2 - c2) * (q' - q) <= 0)).
  { rewrite E, E'. destruct Hside as [(Hc & Hd & Ha & Hb)|(Hc & Hd & Ha & Hb)].
    - left. split; nra.
    - right. split; nra. }
  apply product_sign in Hdir.
  clear - Hq Hdir.
  destruct Hdir as [[Hp Hp']|[Hn Hn']], Hq as [[H1 H2]|[H1 H2]];
    apply Qle_antisym; apply Qnot_lt_le; intros Hlt; nra.
Qed.

Lemma straddling_edges_meet (a b c d : point) (y : Q) :
  ((a.2 < y ∧ y <= b.2) ∧ (c.2 < y ∧ y <= d.2))
  ∨ ((b.2 < y ∧ y <= a.2) ∧ (d.2 < y ∧ y <= c.2)) →
  (0 <= cross a b c ∧ 0 <= cross a b d ∧ 0 <= cross c d a ∧ 0 <= cross c d b)
  ∨ (cross a b c <= 0 ∧ cross a b d <= 0 ∧ cross c d a <= 0 ∧ cross c d b <= 0) →
  ∃ q : point, q.2 == y ∧ on_segment q a b ∧ on_segment q c d.
Proof.
  destruct a as [a1 a2], b as [b1 b2], c as [c1 c2], d as [d1 d2]. simpl.
  intros Hdir Hside.
  destruct (fraction_bounds (y - a2) (b2 - a2)) as (Ht0 & Ht1 & Ht);
    [destruct Hdir as [[[? ?] _]|[[? ?] _]]; [left|right]; lra|].
  destruct (fraction_bounds (y - c2) (d2 - c2)) as (Hs0 & Hs1 & Hs);
    [destruct Hdir as [[_ [? ?]]|[_ [? ?]]]; [left|right]; lra|].
  set (t := (y - a2) / (b2 - a2)) in *.
  set (s := (y - c2) / (d2 - c2)) in *. clearbody t s.
  assert (Hq : a1 + t * (b1 - a1) == c1 + s * (d1 - c1)).
  { apply (crossing_unique a1 a2 b1 b2 c1 c2 d1 d2 y); try done.
    destruct Hdir as [[[? ?] [? ?]]|[[? ?] [? ?]]]; nra. }
  exists (a1 + t * (b1 - a1), y). simpl. split; [reflexivity|]. split.
  - exists t. simpl. repeat split; try done; lra.
  - exists s. simpl. repeat split; try done; lra.
Qed.

Lemma crosses_up_true y e :
  crosses_up y e = true ↔ e.1.2 < y ∧ y <= e.2.2.
Proof.
  unfold crosses_up, below.
  by rewrite andb_true_iff, negb_true_iff, PyFacts.lt_true, PyFacts.lt_false.
Qed.

Lemma crosses_down_true y e :
  crosses_down y e = true ↔ e.2.2 < y ∧ y <= e.1.2.
Proof.
  unfold crosses_down, below.
  rewrite andb_true_iff, negb_true_iff, PyFacts.lt_true, PyFacts.lt_false.
  tauto.
Qed.

Lemma one_crossing_per_direction (poly : polygon) (y : Q) l1 e l2 e' l3 :
  convex poly → simple poly →
  polygon_edges poly = l1 ++ e :: l2 ++ e' :: l3 →
  (crosses_up y e = true ∧ crosses_up y e' = true)
  ∨ (crosses_down y e = true ∧ crosses_down y e' = true) →
  False.
Proof.
  intros Hconv Hsimple Hedges Hdir.
  assert (He : e ∈ polygon_edges poly).
  { rewrite Hedges. apply elem_of_app. right. left. }
  assert (He' : e' ∈ polygon_edges poly).
  { rewrite Hedges. apply elem_of_app. right. right.
    apply elem_of_app. right. left. }
  destruct (polygon_edges_ends _ _ He) as [Ha Hb].
  destruct (polygon_edges_ends _ _ He') as [Hc Hd].
  rewrite !crosses_up_true, !crosses_down_true in Hdir.
  destruct (straddling_edges_meet e.1 e.2 e'.1 e'.2 y) as (q & Hqy & Hq & Hq').
  { done. }
  { destruct Hconv as [Hconv|Hconv]; [left|right]; repeat split;
      by apply Hconv. }
  destruct (Hsimple _ _ _ _ _ q Hedges Hq Hq')
    as [[-> [_ Hqe]]|(-> & -> & [_ Hqe])].
  - assert (Hshare : e.2 = e'.1).
    { destruct poly as [|v0 rest]; [by destruct l1|].
      by apply (edges_from_consecutive v0 (rest ++ [v0]) l1 e e' l3). }
    rewrite Hqy in Hqe. rewrite <- Hshare in Hdir.
    destruct Hdir as [[[? ?] [? ?]]|[[? ?] [? ?]]]; lra.
  - assert (Hshare : e'.2 = e.1) by (by apply (polygon_edges_closed poly e l2 e')).
    rewrite Hqy in Hqe. rewrite Hshare in Hdir.
    destruct Hdir as [[[? ?] [? ?]]|[[? ?] [? ?]]]; lra.
Qed.

(** ** Ray casting on a convex polygon *)

Section RayCasting.

Variables (x y : Q) (poly : polygon).
Hypothesis Hconvex : convex poly.
Hypothesis Hsimple : simple poly.

(** A single edge that crosses in the direction counted gives an odd
    count, since no second edge can cross in that direction. *)
Lemma odd_count_unique_crossing (dir : Q → point * point → bool) e :
  (dir = crosses_up ∨ dir = crosses_down) →
  e ∈ polygon_edges poly → dir y e = true →
  odd_count (dir y) (polygon_edges poly) = true.
Proof.
  intros Hdir He Hup.
  apply list_elem_of_split in He as (l1 & l2 & Hedges).
  rewrite Hedges. apply odd_count_one; [done| |].
  - intros e' He'. destruct (dir y e') eqn:E; [exfalso|done].
    apply list_elem_of_split in He' as (l1a & l1b & ->).
    rewrite <- app_assoc in Hedges. simpl in Hedges.
    apply (one_crossing_per_direction poly y _ _ _ _ _ Hconvex Hsimple Hedges).
    destruct Hdir as [->| ->]; [left|right]; done.
  - intros e' He'. destruct (dir y e') eqn:E; [exfalso|done].
    apply list_elem_of_split in He' as (l2a & l2b & ->).
    apply (one_crossing_per_direction poly y _ _ _ _ _ Hconvex Hsimple Hedges).
    destruct Hdir as [->| ->]; [left|right]; done.
Qed.

(** Seen from a point inside, some vertex is below and some is not. *)
Lemma interior_between :
  poly ≠ [] → strictly_interior (x, y) poly →
  (∃ v, v ∈ poly ∧ below y v = true) ∧ (∃ v, v ∈ poly ∧ below y v = false).
Proof.
  intros Hne Hin. split.
  - destruct (decide (Exists (λ v, below y v = true) poly)) as [Hex|Hno].
    { by apply Exists_exists in Hex. }
    exfalso. apply not_Exists_Forall in Hno; [|apply _].
    rewrite Forall_forall in Hno.
    assert (Hup : ∀ v, v ∈ poly → y <= v.2).
    { intros v Hv. specialize (Hno v Hv). simpl in Hno.
      apply not_true_is_false in Hno. by apply PyFacts.lt_false in Hno. }
    destruct Hin as [Hin|Hin].
    + apply (no_closed_chain (λ v, (v.1 - x, v.2 - y)) poly Hne).
      * intros v Hv. specialize (Hup v Hv). simpl. lra.
      * intros e He. specialize (Hin e He). unfold turns_left, cross in *.
        simpl in *. lra.
    + apply (no_closed_chain (λ v, (x - v.1, v.2 - y)) poly Hne).
      * intros v Hv. specialize (Hup v Hv). simpl. lra.
      * intros e He. specialize (Hin e He). unfold turns_left, cross in *.
        simpl in *. lra.
  - destruct (decide (Exists (λ v, below y v = false) poly)) as [Hex|Hno].
    { by apply Exists_exists in Hex. }
    exfalso. apply not_Exists_Forall in Hno; [|apply _].
    rewrite Forall_forall in Hno.
    assert (Hlow : ∀ v, v ∈ poly → v.2 < y).
    { intros v Hv. specialize (Hno v Hv). simpl in Hno.
      apply not_false_is_true in Hno. by apply PyFacts.lt_true in Hno. }
    destruct Hin as [Hin|Hin].
    + apply (no_closed_chain (λ v, (x - v.1, y - v.2)) poly Hne).
      * intros v Hv. specialize (Hlow v Hv). simpl. lra.
      * intros e He. specialize (Hin e He). unfold turns_left, cross in *.
        simpl in *. lra.
    + apply (no_closed_chain (λ v, (v.1 - x, y - v.2)) poly Hne).
      * intros v Hv. specialize (Hlow v Hv). simpl. lra.
      * intros e He. specialize (Hin e He). unfold turns_left, cross in *.
        simpl in *. lra.
Qed.

Lemma parity_interior :
  poly ≠ [] → strictly_interior (x, y) poly →
  parity x y (polygon_edges poly) = true.
Proof.
  intros Hne Hin.
  destruct (interior_between Hne Hin) as [(vT & HvT & HT) (vF & HvF & HF)].
  unfold parity. destruct Hin as [Hin|Hin].
  - rewrite (odd_count_ext _ (crosses_up y)).
    2: { intros e He. apply toggles_left. by apply Hin. }
    destruct (closed_path_drops (below y) poly vT vF) as (e & He & Hd1 & Hd2);
      [done..|].
    apply (odd_count_unique_crossing crosses_up e); [by left|done|].
    unfold crosses_up. by rewrite Hd1, Hd2.
  - rewrite (odd_count_ext _ (crosses_down y)).
    2: { intros e He. apply toggles_right. by apply Hin. }
    destruct (closed_path_drops (λ v, negb (below y v)) poly vF vT)
      as (e & He & Hd1 & Hd2); [done|by rewrite HF|done|by rewrite HT|].
    apply (odd_count_unique_crossing crosses_down e); [by right|done|].
    unfold crosses_down. rewrite Hd1.
    apply negb_false_iff in Hd2. by rewrite Hd2.
Qed.

End RayCasting.

(** Outside the range of the vertices nothing is counted, or every crossing
    is counted and they cancel around the polygon. *)
Lemma parity_outside_extent (x y : Q) (poly : polygon) :
  outside_extent (x, y) poly → parity x y (polygon_edges poly) = false.
Proof.
  unfold outside_extent, parity. simpl. intros [Hout|[Hout|[Hout|Hout]]].
  - rewrite (odd_count_ext _ (λ e, xorb (below y e.1) (below y e.2))).
    + apply odd_count_closed.
    + intros e He. apply polygon_edges_ends in He as [H1 H2].
      apply toggles_far_left; by apply Hout.
  - apply odd_count_none. intros e He.
    apply polygon_edges_ends in He as [H1 H2].
    apply toggles_far_right; by apply Hout.
  - apply odd_count_none. intros e He.
    apply polygon_edges_ends in He as [H1 H2].
    apply toggles_under; by apply Hout.
  - apply odd_count_none. intros e He.
    apply polygon_edges_ends in He as [H1 H2].
    apply toggles_above; by apply Hout.
Qed.

(** ** The zone lookup *)

Lemma scan_zones_total (center : point) (zones : list polygon) (i : Z) :
  zones_nonempty zones → ∃ r, scan_zones center zones i = Ok r.
Proof.
  intros Hz. revert i. induction Hz as [|zone zones Hne _ IH]; intros i; simpl.
  - eauto.
  - destruct zone as [|v0 rest]; [done|]. destruct center as [x y].
    rewrite check_point_in_polygon_parity. simpl.
    destruct (parity x y _); [eauto|apply IH].
Qed.

Lemma penetrates_total (bbox : Q * Q * Q * Q) (zones : list polygon) :
  zones_nonempty zones → ∃ r, penetrates bbox zones = Ok r.
Proof. apply scan_zones_total. Qed.

(** A hit at index [i]: the zone at [i] contains the point and no zone
    before it does. *)
Lemma scan_zones_hit (center : point) (zones : list polygon) (i0 i : Z) :
  scan_zones center zones i0 = Ok (true, i) ↔
  ∃ k zone, i = (i0 + Z.of_nat k)%Z ∧ zones !! k = Some zone
            ∧ check_point_in_polygon center zone = Ok true
            ∧ ∀ j zone', (j < k)%nat → zones !! j = Some zone' →
                         check_point_in_polygon center zone' = Ok false.
Proof.
  revert i0. induction zones as [|z zones IH]; intros i0; simpl.
  - split; [done|]. by intros (k & zone & _ & ? & _).
  - destruct (check_point_in_polygon center z) as [[|]|e] eqn:Hz; simpl.
    + split.
      * intros [= <-]. exists 0%nat, z. split; [lia|]. split; [done|].
        split; [done|]. intros; lia.
      * intros (k & zone & -> & Hk & Hhit & Hbefore).
        destruct k as [|k]; [f_equal; f_equal; lia|].
        specialize (Hbefore 0%nat z). simpl in Hbefore.
        rewrite Hz in Hbefore. discriminate Hbefore; [lia|done].
    + rewrite IH. split.
      * intros (k & zone & -> & Hk & Hhit & Hbefore).
        exists (S k), zone. split; [lia|]. split; [done|]. split; [done|].
        intros [|j] zone' Hj Hzone'; simpl in Hzone'.
        -- by simplify_eq.
        -- apply (Hbefore j); [lia|done].
      * intros (k & zone & -> & Hk & Hhit & Hbefore).
        destruct k as [|k]; simpl in Hk; [simplify_eq; congruence|].
        exists k, zone. split; [lia|]. split; [done|]. split; [done|].
        intros j zone' Hj Hzone'. apply (Hbefore (S j)); [lia|done].
    + split; [done|].
      intros (k & zone & -> & Hk & Hhit & Hbefore).
      destruct k as [|k]; simpl in Hk; [simplify_eq; congruence|].
      specialize (Hbefore 0%nat z). simpl in Hbefore.
      rewrite Hz in Hbefore. discriminate Hbefore; [lia|done].
Qed.

(** A miss: every zone was tested and none contains the point. *)
Lemma scan_zones_miss (center : point) (zones : list polygon) (i0 : Z) r :
  scan_zones center zones i0 = Ok (false, r) ↔
  r = (-1)%Z ∧ Forall (λ zone, check_point_in_polygon center zone = Ok false)
                      zones.
Proof.
  revert i0. induction zones as [|z zones IH]; intros i0; simpl.
  - split; [by intros [= <-]|]. by intros [-> _].
  - destruct (check_point_in_polygon center z) as [[|]|e] eqn:Hz; simpl.
    + split; [done|]. intros [_ Hall]. inversion Hall; congruence.
    + rewrite IH. split.
      * intros [-> Hall]. split; [done|]. by constructor.
      * intros [-> Hall]. split; [done|]. by inversion Hall.
    + split; [done|]. intros [_ Hall]. inversion Hall; congruence.
Qed.

Lemma check_zone_penetration_penetrates self track_id bbox zones :
  check_zone_penetration self track_id bbox zones
  = (r ← penetrates bbox zones;
     Ok (Manager (active_alerts self)
                 (<[track_id := get_bbox_center bbox]> (track_positions self)),
         r)).
Proof. reflexivity. Qed.

(** ** Observations *)

Lemma current_track_of_cons (t : Track.t) (tracks : list Track.t) (tid : Z) :
  current_track_of (t :: tracks) tid
  = if decide (Track.track_id t = tid) then Some t
    else current_track_of tracks tid.
Proof.
  unfold current_track_of. simpl.
  destruct (decide (Track.track_id t = tid)).
  - by rewrite bool_decide_eq_true_2.
  - by rewrite bool_decide_eq_false_2.
Qed.

Lemma current_track_of_None (tracks : list Track.t) (tid : Z) :
  current_track_of tracks tid = None ↔ tid ∉ map Track.track_id tracks.
Proof.
  induction tracks as [|t tracks IH].
  - split; [intros _; apply not_elem_of_nil | done].
  - rewrite current_track_of_cons. simpl. rewrite not_elem_of_cons.
    destruct (decide (Track.track_id t = tid)).
    + split; [done|]. intros [? _]. congruence.
    + rewrite IH. split; [intros ?; split; congruence | by intros [_ ?]].
Qed.

Lemma current_track_of_Some (tracks : list Track.t) (tid : Z) (t : Track.t) :
  current_track_of tracks tid = Some t → t ∈ tracks ∧ Track.track_id t = tid.
Proof.
  induction tracks as [|t' tracks IH]; [done|].
  rewrite current_track_of_cons.
  destruct (decide (Track.track_id t' = tid)).
  - intros [= ->]. split; [left|done].
  - intros H. apply IH in H as [? ?]. split; [by right|done].
Qed.

Lemma current_track_of_unique (tracks : list Track.t) (t : Track.t) :
  unique_ids tracks → t ∈ tracks →
  current_track_of tracks (Track.track_id t) = Some t.
Proof.
  unfold unique_ids. induction tracks as [|t' tracks IH]; intros Hnd Ht.
  - by apply elem_of_nil in Ht.
  - simpl in Hnd. apply NoDup_cons in Hnd as [Hnotin Hnd].
    rewrite current_track_of_cons.
    apply elem_of_cons in Ht as [->|Ht].
    + by rewrite decide_True.
    + rewrite decide_False; [by apply IH|].
      intros Heq. apply Hnotin. rewrite Heq.
      apply list_elem_of_fmap. by exists t.
Qed.

Lemma observed_ids (tracks : list Track.t) (tid : Z) :
  tid ∈ (list_to_set (map Track.track_id tracks) : gset Z)
  ↔ is_Some (current_track_of tracks tid).
Proof.
  rewrite elem_of_list_to_set.
  destruct (current_track_of tracks tid) eqn:E.
  - split; [eauto|]. intros _.
    destruct (decide (tid ∈ map Track.track_id tracks)) as [|Hn]; [done|].
    apply current_track_of_None in Hn. congruence.
  - apply current_track_of_None in E. split; [done|]. by intros [? ?].
Qed.

Lemma observation_unique tracks zones (t : Track.t) r :
  unique_ids tracks → t ∈ tracks →
  penetrates (Track.bbox t) zones = Ok r →
  observation tracks zones (Track.track_id t) = Some r.
Proof.
  intros Hnd Ht Hr. unfold observation.
  by rewrite (current_track_of_unique tracks t Hnd Ht), Hr.
Qed.

Lemma observation_absent tracks zones (tid : Z) :
  tid ∉ map Track.track_id tracks → observation tracks zones tid = None.
Proof.
  intros Hn. unfold observation.
  apply current_track_of_None in Hn. by rewrite Hn.
Qed.

(** ** The first loop of [update_alerts] *)

Section Tick.

Variables (current_time : Q) (zones : list polygon).

Lemma enter_zone_penetrates self (t : Track.t) pen zone_id :
  penetrates (Track.bbox t) zones = Ok (pen, zone_id) →
  ∃ positions,
    enter_zone current_time zones self t
    = Ok (Manager
            (if pen
             then <[Track.track_id t :=
                      entered current_time zone_id (Track.track_id t)
                        (active_alerts self !! Track.track_id t)]>
                    (active_alerts self)
             else active_alerts self)
            positions).
Proof.
  intros Hpen. unfold enter_zone.
  rewrite check_zone_penetration_penetrates, Hpen. simpl.
  destruct pen; [|eauto].
  destruct (active_alerts self !! Track.track_id t); simpl; eauto.
Qed.

(** With distinct identifiers, each record is touched by its own
    observation only. *)
Lemma enter_loop (tracks : list Track.t) self :
  unique_ids tracks → zones_nonempty zones →
  ∃ self1,
    for_each (enter_zone current_time zones) self tracks = Ok self1
    ∧ ∀ tid,
        active_alerts self1 !! tid
        = match observation tracks zones tid with
          | Some (true, zone_id) =>
              Some (entered current_time zone_id tid (active_alerts self !! tid))
          | _ => active_alerts self !! tid
          end.
Proof.
  intros Hnd Hz. revert self.
  induction tracks as [|t tracks IH]; intros self.
  - exists self. split; [done|]. intros tid. done.
  - unfold unique_ids in Hnd. simpl in Hnd.
    apply NoDup_cons in Hnd as [Hnotin Hnd].
    destruct (penetrates_total (Track.bbox t) zones Hz) as [[pen z] Hpen].
    destruct (enter_zone_penetrates self t pen z Hpen) as [pos Hstep].
    simpl. rewrite Hstep. simpl.
    destruct (IH Hnd (Manager
      (if pen then <[Track.track_id t :=
                       entered current_time z (Track.track_id t)
                         (active_alerts self !! Track.track_id t)]>
                     (active_alerts self)
       else active_alerts self) pos)) as (self1 & Hloop & Hlook).
    exists self1. split; [done|]. intros tid. rewrite Hlook.
    unfold observation. rewrite current_track_of_cons. simpl.
    destruct (decide (Track.track_id t = tid)) as [<-|Hne].
    + apply current_track_of_None in Hnotin. rewrite Hnotin, Hpen.
      destruct pen; [by rewrite lookup_insert_eq|done].
    + destruct pen; [|done]. by rewrite lookup_insert_ne.
Qed.

End Tick.

(** ** The second loop of [update_alerts] *)

Section Sweep.

Variables (current_time : Q) (tracks : list Track.t) (zones : list polygon).
Hypothesis Hzones : zones_nonempty zones.

Lemma leave_zone_step self alerts_to_remove (tid : Z) (alert : Alert.t) :
  ∃ positions,
    leave_zone current_time tracks zones
               (list_to_set (map Track.track_id tracks))
               (self, alerts_to_remove) (tid, alert)
    = Ok (Manager
            (match observation tracks zones tid with
             | Some (false, _) =>
                 <[tid := Alert.set_is_active false alert]> (active_alerts self)
             | _ => active_alerts self
             end)
            positions,
          if leaves current_time (observation tracks zones tid) alert
          then alerts_to_remove ++ [tid] else alerts_to_remove).
Proof.
  unfold leave_zone, observation, leaves, expired.
  destruct (current_track_of tracks tid) as [t|] eqn:Ht.
  - rewrite bool_decide_eq_false_2.
    2: { intros Hn. apply Hn. apply observed_ids. by rewrite Ht. }
    destruct (penetrates_total (Track.bbox t) zones Hzones) as [[pen z] Hpen].
    rewrite check_zone_penetration_penetrates, Hpen. simpl.
    destruct pen; simpl; [eauto|].
    rewrite bool_decide_eq_true_2.
    2: { apply elem_of_dom. rewrite lookup_insert_eq. eauto. }
    destruct (Py.le _ _); eauto.
  - rewrite bool_decide_eq_true_2.
    2: { intros Hin. apply observed_ids in Hin. rewrite Ht in Hin.
         by destruct Hin. }
    destruct self as [alerts positions].
    destruct (Py.le _ _); eauto.
Qed.

Lemma leave_loop (items : list (Z * Alert.t)) self alerts_to_remove :
  NoDup items.*1 →
  ∃ self2 to_remove,
    for_each (leave_zone current_time tracks zones
                         (list_to_set (map Track.track_id tracks)))
             (self, alerts_to_remove) items
    = Ok (self2, to_remove)
    ∧ (∀ tid,
         active_alerts self2 !! tid
         = match (list_to_map items : gmap Z Alert.t) !! tid,
                 observation tracks zones tid with
           | Some alert, Some (false, _) =>
               Some (Alert.set_is_active false alert)
           | _, _ => active_alerts self !! tid
           end)
    ∧ (∀ tid,
         tid ∈ to_remove ↔
         tid ∈ alerts_to_remove
         ∨ ∃ alert, (list_to_map items : gmap Z Alert.t) !! tid = Some alert
                    ∧ leaves current_time (observation tracks zones tid) alert
                      = true).
Proof.
  revert self alerts_to_remove.
  induction items as [|[k a] items IH]; intros self rem Hnd.
  - exists self, rem. split; [done|]. split.
    + intros tid. by rewrite list_to_map_nil, lookup_empty.
    + intros tid. split; [by left|]. intros [?|(alert & Hl & _)]; [done|].
      by rewrite list_to_map_nil, lookup_empty in Hl.
  - simpl in Hnd. apply NoDup_cons in Hnd as [Hk Hnd].
    apply not_elem_of_list_to_map in Hk.
    destruct (leave_zone_step self rem k a) as [pos Hstep].
    cbn [for_each]. rewrite Hstep. cbn [mbind result_bind].
    destruct (IH (Manager
      (match observation tracks zones k with
       | Some (false, _) =>
           <[k := Alert.set_is_active false a]> (active_alerts self)
       | _ => active_alerts self
       end) pos)
      (if leaves current_time (observation tracks zones k) a
       then rem ++ [k] else rem) Hnd)
      as (self2 & rem2 & Hloop & Hlook & Hrem).
    exists self2, rem2. split; [done|]. split.
    + intros tid. rewrite Hlook, list_to_map_cons. cbn [active_alerts].
      destruct (decide (k = tid)) as [<-|Hne].
      * rewrite Hk, lookup_insert_eq.
        destruct (observation tracks zones k) as [[[|] ?]|]; [done| |done].
        by rewrite lookup_insert_eq.
      * rewrite (lookup_insert_ne _ k tid) by done.
        destruct (list_to_map items !! tid) eqn:Hl.
        -- destruct (observation tracks zones tid) as [[[|] ?]|]; [|done|];
             destruct (observation tracks zones k) as [[[|] ?]|]; try done;
             by rewrite lookup_insert_ne.
        -- destruct (observation tracks zones k) as [[[|] ?]|]; try done;
             destruct (observation tracks zones tid) as [[[|] ?]|];
             by rewrite ?lookup_insert_ne.
    + intros tid. rewrite Hrem, list_to_map_cons.
      destruct (decide (k = tid)) as [<-|Hne].
      * rewrite Hk, lookup_insert_eq. split.
        -- intros [Hin|(alert & ? & _)]; [|done].
           destruct (leaves current_time (observation tracks zones k) a) eqn:El;
             [|by left].
           apply elem_of_app in Hin as [?|?]; [by left|].
           right. by exists a.
        -- intros [Hin|(alert & [= <-] & Hl)]; left.
           ++ destruct (leaves _ _ _); [|done]. apply elem_of_app. by left.
           ++ rewrite Hl. apply elem_of_app. right. left.
      * rewrite (lookup_insert_ne _ k tid) by done. split.
        -- intros [Hin|?]; [|by right].
           destruct (leaves current_time (observation tracks zones k) a);
             [|by left].
           apply elem_of_app in Hin as [?|Hin]; [by left|].
           apply list_elem_of_singleton in Hin. congruence.
        -- intros [Hin|?]; [|by right]. left.
           destruct (leaves _ _ _); [|done]. apply elem_of_app. by left.
Qed.

End Sweep.

(** ** The third and fourth loops *)

Lemma remove_expired_lookup self (alerts_to_remove : list Z) (tid : Z) :
  active_alerts (remove_expired self alerts_to_remove) !! tid
  = if decide (tid ∈ alerts_to_remove) then None
    else active_alerts self !! tid.
Proof.
  unfold remove_expired. revert self.
  induction alerts_to_remove as [|k rem IH]; intros self; cbn [foldl].
  - rewrite decide_False; [done|apply not_elem_of_nil].
  - rewrite IH. cbn [active_alerts].
    destruct (decide (tid ∈ rem)) as [Hin|Hnin].
    + rewrite decide_True; [done|by right].
    + destruct (decide (k = tid)) as [->|Hne].
      * rewrite decide_True by left. apply lookup_delete_eq.
      * rewrite decide_False.
        -- by apply lookup_delete_ne.
        -- rewrite not_elem_of_cons. split; congruence.
Qed.

Lemma clean_positions_alerts self ids :
  active_alerts (clean_positions self ids) = active_alerts self.
Proof. reflexivity. Qed.

(** ** A whole tick, record by record *)

Section TickSpec.

Variables (self : AlertManager) (current_time : Q).
Variables (tracks : list Track.t) (zones : list polygon).
Hypothesis Hunique : unique_ids tracks.
Hypothesis Hzones : zones_nonempty zones.

Lemma update_alerts_sweep_spec :
  ∃ self2 alerts_to_remove,
    update_alerts_sweep self current_time tracks zones
    = Ok (self2, alerts_to_remove)
    ∧ (∀ tid,
         active_alerts self2 !! tid
         = sweep_alert current_time (observation tracks zones tid) tid
             (active_alerts self !! tid))
    ∧ (∀ tid,
         tid ∈ alerts_to_remove ↔
         ∃ alert, active_alerts self !! tid = Some alert
                  ∧ leaves current_time (observation tracks zones tid) alert
                    = true).
Proof.
  unfold update_alerts_sweep.
  destruct (enter_loop current_time zones tracks self Hunique Hzones)
    as (self1 & -> & Hlook1).
  cbn [mbind result_bind].
  destruct (leave_loop current_time tracks zones Hzones
              (map_to_list (active_alerts self1)) self1 [])
    as (self2 & rem & -> & Hlook2 & Hrem).
  { apply NoDup_fst_map_to_list. }
  exists self2, rem. split; [done|].
  setoid_rewrite list_to_map_to_list in Hlook2.
  setoid_rewrite list_to_map_to_list in Hrem.
  split.
  - intros tid. rewrite Hlook2, Hlook1. unfold sweep_alert.
    destruct (observation tracks zones tid) as [[[|] z]|];
      by destruct (active_alerts self !! tid).
  - intros tid. rewrite Hrem, Hlook1. unfold leaves.
    destruct (observation tracks zones tid) as [[[|] z]|].
    + split; [intros [Hin|(a & _ & ?)]|intros (a & _ & ?)]; try done.
      by apply elem_of_nil in Hin.
    + split; [intros [Hin|?]|intros ?]; try done; [|by right].
      by apply elem_of_nil in Hin.
    + split; [intros [Hin|?]|intros ?]; try done; [|by right].
      by apply elem_of_nil in Hin.
Qed.

Lemma update_alerts_spec :
  ∃ self',
    update_alerts self current_time tracks zones
    = Ok (self', dom (active_alerts self'))
    ∧ ∀ tid,
        active_alerts self' !! tid
        = tick_alert current_time (observation tracks zones tid) tid
            (active_alerts self !! tid).
Proof.
  unfold update_alerts.
  destruct update_alerts_sweep_spec as (self2 & rem & -> & Hlook & Hrem).
  cbn [mbind result_bind].
  eexists. split; [reflexivity|].
  intros tid. rewrite clean_positions_alerts, remove_expired_lookup, Hlook.
  unfold tick_alert, sweep_alert.
  destruct (decide (tid ∈ rem)) as [Hin|Hnin].
  - apply Hrem in Hin as (a & -> & Hl). unfold leaves in Hl.
    destruct (observation tracks zones tid) as [[[|] z]|];
      [done|by rewrite Hl..].
  - destruct (observation tracks zones tid) as [[[|] z]|] eqn:Hobs; [done|..].
    + destruct (active_alerts self !! tid) as [a|] eqn:Ha; [|done]. simpl.
      destruct (expired current_time a) eqn:He; [|done].
      exfalso. apply Hnin, Hrem. exists a. by rewrite Hobs.
    + destruct (active_alerts self !! tid) as [a|] eqn:Ha; [|done].
      destruct (expired current_time a) eqn:He; [|done].
      exfalso. apply Hnin, Hrem. exists a. by rewrite Hobs.
Qed.

End TickSpec.

(** Case analysis on the ways a concrete list of edges splits around two
    of its edges. *)
Ltac edge_cases H :=
  lazymatch type of H with
  | [] = ?l ++ _ :: _ => destruct l; discriminate H
  | _ :: _ = ?l ++ _ :: _ =>
      destruct l; simpl in H; injection H as ? H; subst;
      [ try edge_cases H | edge_cases H ]
  | _ => idtac
  end.

(** * Properties of the engine *)

(** ** Geometry *)

(** C9. Whenever [check_point_in_polygon] reaches the toggle test
    [p1x == p2x or x <= xinters], the edge is not horizontal: a horizontal
    edge cannot pass both [y > min(p1y, p2y)] and [y <= max(p1y, p2y)].  So
    [xinters] is assigned in the same iteration before it is read, whatever
    it held before (bound or not), and the function never fails on an unbound
    [xinters], for any polygon and any point. *)
Theorem xinters_assigned_before_read (pt : point) (poly : polygon) :
  (∀ (st : ray_state) (p2 : point),
     Py.lt (Py.min (p1 st).2 p2.2) pt.2 = true →
     Py.le pt.2 (Py.max (p1 st).2 p2.2) = true →
     Py.le pt.1 (Py.max (p1 st).1 p2.1) = true →
     Py.eq (p1 st).2 p2.2 = false
     ∧ ∃ ins, polygon_edge pt.1 pt.2 st p2
              = Ok (RayState ins
                      (Some ((pt.2 - (p1 st).2) * (p2.1 - (p1 st).1)
                             / (p2.2 - (p1 st).2) + (p1 st).1))
                      p2))
  ∧ check_point_in_polygon pt poly ≠ Raise UnboundLocalError
  ∧ check_point_in_polygon pt poly ≠ Raise ZeroDivisionError.
Proof.
  destruct pt as [x y]. split; [|split].
  - intros st [p2x p2y]. destruct st as [ins xi [p1x p1y]]. simpl.
    intros Hlo Hhi Hx.
    pose proof (guarded_edge_not_horizontal y p1y p2y Hlo Hhi) as Hne.
    split; [done|]. unfold polygon_edge. simpl.
    rewrite Hlo, Hhi, Hx, Hne. simpl.
    rewrite div_guarded by done. simpl.
    destruct (Py.eq p1x p2x); simpl; eauto.
  - destruct poly as [|v0 rest].
    + by rewrite check_point_in_polygon_empty.
    + by rewrite check_point_in_polygon_parity.
  - destruct poly as [|v0 rest].
    + by rewrite check_point_in_polygon_empty.
    + by rewrite check_point_in_polygon_parity.
Qed.

Lemma xinters_assigned_before_read_witness :
  Py.eq 0 10 = false
  ∧ ∃ ins, polygon_edge 5 5 (RayState false None (10, 0)) (10, 10)
           = Ok (RayState ins (Some ((5 - 0) * (10 - 10) / (10 - 0) + 10))
                          (10, 10)).
Proof.
  apply (proj1 (xinters_assigned_before_read (5, 5) square)
           (RayState false None (10, 0)) (10, 10)); reflexivity.
Defined.

(** C5. The point tested against the zones is the centre of the box,
    [((x1 + x2) / 2, (y1 + y2) / 2)], computed from the box of the current
    call; a hit reports the first index, in list order, whose polygon
    contains that point, no zone after it being looked at; and that index is
    the [zone_id] of the record created for the track. *)
Theorem representative_point_first_zone (x1 y1 x2 y2 : Q) :
  let center := ((x1 + x2) / 2, (y1 + y2) / 2) in
  get_bbox_center (x1, y1, x2, y2) = center
  ∧ (∀ self track_id zones self' i,
       check_zone_penetration self track_id (x1, y1, x2, y2) zones
       = Ok (self', (true, i))
       ↔ self' = Manager (active_alerts self)
                         (<[track_id := center]> (track_positions self))
         ∧ ∃ k zone,
             i = Z.of_nat k ∧ zones !! k = Some zone
             ∧ check_point_in_polygon center zone = Ok true
             ∧ ∀ j zone', (j < k)%nat → zones !! j = Some zone' →
                          check_point_in_polygon center zone' = Ok false)
  ∧ (∀ self track_id zones self' r,
       check_zone_penetration self track_id (x1, y1, x2, y2) zones
       = Ok (self', (false, r))
       ↔ self' = Manager (active_alerts self)
                         (<[track_id := center]> (track_positions self))
         ∧ r = (-1)%Z
         ∧ Forall (λ zone, check_point_in_polygon center zone = Ok false) zones)
  ∧ (∀ self current_time track_id zones k zone,
       active_alerts self !! track_id = None →
       zones !! k = Some zone →
       check_point_in_polygon center zone = Ok true →
       (∀ j zone', (j < k)%nat → zones !! j = Some zone' →
                   check_point_in_polygon center zone' = Ok false) →
       ∃ self',
         enter_zone current_time zones self
                    (Track.Make track_id (x1, y1, x2, y2)) = Ok self'
         ∧ active_alerts self' !! track_id
           = Some (Alert.Make track_id (Z.of_nat k) current_time
                              current_time true)).
Proof.
  intros center. split; [done|]. split.
  - intros self tid zones self' i.
    rewrite check_zone_penetration_penetrates. unfold penetrates.
    change (get_bbox_center (x1, y1, x2, y2)) with center.
    destruct (scan_zones center zones 0) as [[pen z]|e] eqn:Hscan; simpl.
    + split.
      * intros [= <- -> ->]. split; [done|].
        apply scan_zones_hit in Hscan as (k & zone & -> & ?). by exists k, zone.
      * intros [-> (k & zone & -> & Hk)].
        assert (Hhit : scan_zones center zones 0 = Ok (true, Z.of_nat k)).
        { apply scan_zones_hit. exists k, zone. split; [lia|done]. }
        rewrite Hhit in Hscan. by injection Hscan as <- <-.
    + split; [done|]. intros [_ (k & zone & -> & Hk)].
      assert (Hhit : scan_zones center zones 0 = Ok (true, Z.of_nat k)).
      { apply scan_zones_hit. exists k, zone. split; [lia|done]. }
      congruence.
  - split.
    { intros self tid zones self' r.
      rewrite check_zone_penetration_penetrates. unfold penetrates.
      change (get_bbox_center (x1, y1, x2, y2)) with center.
      destruct (scan_zones center zones 0) as [[pen z]|e] eqn:Hscan; simpl.
      - split.
        + intros [= <- -> ->]. split; [done|]. by apply scan_zones_miss in Hscan.
        + intros (-> & -> & Hall).
          assert (Hmiss : scan_zones center zones 0 = Ok (false, (-1)%Z))
            by (by apply scan_zones_miss).
          rewrite Hmiss in Hscan. by injection Hscan as <- <-.
      - split; [done|]. intros (_ & -> & Hall).
        assert (Hmiss : scan_zones center zones 0 = Ok (false, (-1)%Z))
          by (by apply scan_zones_miss).
        congruence. }
    intros self now tid zones k zone Hnone Hk Hhit Hbefore.
    assert (Hpen : penetrates (x1, y1, x2, y2) zones = Ok (true, Z.of_nat k)).
    { apply scan_zones_hit. exists k, zone. split; [lia|done]. }
    destruct (enter_zone_penetrates now zones self
                (Track.Make tid (x1, y1, x2, y2)) true (Z.of_nat k) Hpen)
      as [pos Hstep].
    eexists. split; [exact Hstep|]. simpl.
    by rewrite lookup_insert_eq, Hnone.
Qed.

Lemma representative_point_first_zone_witness :
  ∃ self',
    enter_zone 0 [square; square] init (Track.Make 7 (0, 0, 10, 10)) = Ok self'
    ∧ active_alerts self' !! 7%Z = Some (Alert.Make 7 (Z.of_nat 0) 0 0 true).
Proof.
  apply (proj2 (proj2 (proj2 (representative_point_first_zone 0 0 10 10)))
           init 0 7%Z [square; square] 0%nat square).
  - reflexivity.
  - reflexivity.
  - vm_compute. reflexivity.
  - intros j zone' Hj. lia.
Defined.

(** ** Doubles and their exact values *)

Module DoubleFacts.

Lemma digits2_pos_size (m : positive) : digits2_pos m = Pos.size m.
Proof. induction m as [m IH|m IH|]; simpl; by rewrite ?IH. Qed.

Lemma digits_bounds (m : positive) :
  (2 ^ (Z.pos (digits2_pos m) - 1) ≤ Z.pos m < 2 ^ Z.pos (digits2_pos m))%Z.
Proof.
  rewrite digits2_pos_size.
  pose proof (Pos.size_gt m) as Hgt. pose proof (Pos.size_le m) as Hle.
  apply Pos2Z.pos_lt_pos in Hgt. apply Pos2Z.pos_le_pos in Hle.
  rewrite Pos2Z.inj_pow in Hgt, Hle.
  replace (Z.pos (Pos.size m)) with (Z.succ (Z.pos (Pos.size m) - 1)) in Hle
    by lia.
  rewrite Z.pow_succ_r in Hle by lia.
  lia.
Qed.

Lemma bounded_inv (m : positive) (e : Z) :
  bounded Double.prec Double.emax m e = true →
  (-1074 ≤ e ∧ Z.pos (digits2_pos m) ≤ 53
   ∧ (-1074 < e → Z.pos (digits2_pos m) = 53))%Z.
Proof.
  unfold bounded, canonical_mantissa, fexp, emin, Double.prec, Double.emax.
  intros H. apply andb_true_iff in H as [H _]. apply Z.eqb_eq in H. lia.
Qed.

Lemma magnitude_lt (m1 m2 : positive) (e1 e2 : Z) :
  bounded Double.prec Double.emax m1 e1 = true →
  bounded Double.prec Double.emax m2 e2 = true →
  (e1 < e2)%Z →
  (Z.pos m1 * 2 ^ (e1 + 1074) < Z.pos m2 * 2 ^ (e2 + 1074))%Z.
Proof.
  intros H1 H2 Hlt.
  apply bounded_inv in H1 as (Hmin1 & Hd1 & _).
  apply bounded_inv in H2 as (_ & _ & Hd2). specialize (Hd2 ltac:(lia)).
  pose proof (digits_bounds m1) as [_ Hm1].
  pose proof (digits_bounds m2) as [Hm2 _]. rewrite Hd2 in Hm2.
  assert (Hm1' : (Z.pos m1 < 2 ^ 53)%Z).
  { eapply Z.lt_le_trans; [exact Hm1|]. apply Z.pow_le_mono_r; lia. }
  replace (e2 + 1074)%Z with ((e1 + 1074) + (e2 - e1))%Z by lia.
  rewrite (Z.pow_add_r 2 (e1 + 1074) (e2 - e1)) by lia.
  assert (HP : (0 < 2 ^ (e1 + 1074))%Z) by (apply Z.pow_pos_nonneg; lia).
  assert (Hstep : (2 ^ 1 ≤ 2 ^ (e2 - e1))%Z) by (apply Z.pow_le_mono_r; lia).
  change (2 ^ 53)%Z with 9007199254740992%Z in Hm1'.
  change (2 ^ (53 - 1))%Z with 4503599627370496%Z in Hm2.
  change (2 ^ 1)%Z with 2%Z in Hstep.
  set (P := (2 ^ (e1 + 1074))%Z) in *. set (R := (2 ^ (e2 - e1))%Z) in *.
  apply Z.lt_le_trans with (9007199254740992 * P)%Z; [nia|].
  apply Z.le_trans with (4503599627370496 * (P * R))%Z; nia.
Qed.

Lemma mul_compare_r (n m p : Z) :
  (0 < p)%Z → (n * p ?= m * p)%Z = (n ?= m)%Z.
Proof.
  intros Hp. destruct (Z.compare_spec n m) as [->|Hlt|Hgt].
  - apply Z.compare_refl.
  - apply Z.compare_lt_iff. nia.
  - apply Z.compare_gt_iff. nia.
Qed.

Lemma magnitude_compare (m1 m2 : positive) (e1 e2 : Z) :
  bounded Double.prec Double.emax m1 e1 = true →
  bounded Double.prec Double.emax m2 e2 = true →
  (Z.pos m1 * 2 ^ (e1 + 1074) ?= Z.pos m2 * 2 ^ (e2 + 1074))%Z
  = match (e1 ?= e2)%Z with
    | Lt => Lt
    | Gt => Gt
    | Eq => Pos.compare_cont Eq m1 m2
    end.
Proof.
  intros H1 H2. destruct (Z.compare_spec e1 e2) as [->|Hlt|Hgt].
  - rewrite mul_compare_r; [done|].
    apply Z.pow_pos_nonneg; [lia|]. apply bounded_inv in H2. lia.
  - apply Z.compare_lt_iff. by apply magnitude_lt.
  - apply Z.compare_gt_iff. by apply magnitude_lt.
Qed.

(** On finite doubles the comparison of the format is the comparison of
    the values. *)
Lemma compare_scaled (a b : Double.t) :
  Double.is_finite a = true → Double.is_finite b = true →
  SFcompare a b = Some (Double.scaled a ?= Double.scaled b)%Z.
Proof.
  destruct a as [sa|sa| |sa ma ea], b as [sb|sb| |sb mb eb]; try done;
    cbn [SFcompare Double.scaled Double.is_finite]; intros Ha Hb.
  - assert (0 < Z.pos mb * 2 ^ (eb + 1074))%Z.
    { apply Z.mul_pos_pos; [lia|]. apply Z.pow_pos_nonneg; [lia|].
      apply bounded_inv in Hb. lia. }
    destruct sb; cbn [cond_Zopp]; f_equal; symmetry;
      [apply Z.compare_gt_iff | apply Z.compare_lt_iff]; lia.
  - assert (0 < Z.pos ma * 2 ^ (ea + 1074))%Z.
    { apply Z.mul_pos_pos; [lia|]. apply Z.pow_pos_nonneg; [lia|].
      apply bounded_inv in Ha. lia. }
    destruct sa; cbn [cond_Zopp]; f_equal; symmetry;
      [apply Z.compare_lt_iff | apply Z.compare_gt_iff]; lia.
  - assert (0 < Z.pos ma * 2 ^ (ea + 1074))%Z.
    { apply Z.mul_pos_pos; [lia|]. apply Z.pow_pos_nonneg; [lia|].
      apply bounded_inv in Ha. lia. }
    assert (0 < Z.pos mb * 2 ^ (eb + 1074))%Z.
    { apply Z.mul_pos_pos; [lia|]. apply Z.pow_pos_nonneg; [lia|].
      apply bounded_inv in Hb. lia. }
    f_equal. destruct sa, sb; cbn [cond_Zopp].
    + rewrite Z.compare_opp, (magnitude_compare mb ma eb ea) by done.
      rewrite (Z.compare_antisym ea eb).
      destruct (ea ?= eb)%Z; simpl; try done.
      by rewrite Pos.compare_cont_antisym.
    + symmetry. apply Z.compare_lt_iff. lia.
    + symmetry. apply Z.compare_gt_iff. lia.
    + by rewrite magnitude_compare.
Qed.

Lemma to_Q_compare (a b : Double.t) :
  (Double.to_Q a ?= Double.to_Q b)
  = (Double.scaled a ?= Double.scaled b)%Z.
Proof.
  unfold Double.to_Q. rewrite <- Qred_compare. unfold Qcompare.
  cbn [Qnum Qden].
  apply mul_compare_r. lia.
Qed.

Lemma compare_exact (a b : Double.t) :
  Double.is_finite a = true → Double.is_finite b = true →
  SFcompare a b = Some (Double.to_Q a ?= Double.to_Q b).
Proof. intros Ha Hb. rewrite to_Q_compare. by apply compare_scaled. Qed.


Lemma py_lt_compare (a b : Q) :
  Py.lt a b = match a ?= b with Lt => true | _ => false end.
Proof.
  destruct (a ?= b) eqn:E.
  - apply PyFacts.lt_false. apply Qeq_alt in E. lra.
  - apply PyFacts.lt_true. by apply Qlt_alt.
  - apply PyFacts.lt_false. apply Qgt_alt in E. lra.
Qed.

Lemma py_le_compare (a b : Q) :
  Py.le a b = match a ?= b with Gt => false | _ => true end.
Proof.
  destruct (a ?= b) eqn:E.
  - apply PyFacts.le_true. apply Qeq_alt in E. lra.
  - apply PyFacts.le_true. apply Qlt_alt in E. lra.
  - apply PyFacts.le_false. by apply Qgt_alt.
Qed.

Lemma py_eq_compare (a b : Q) :
  Py.eq a b = match a ?= b with Eq => true | _ => false end.
Proof.
  destruct (a ?= b) eqn:E.
  - apply PyFacts.eq_true. by apply Qeq_alt.
  - apply PyFacts.eq_false. apply Qlt_alt in E. lra.
  - apply PyFacts.eq_false. apply Qgt_alt in E. lra.
Qed.

Section Exact.

Variables a b : Double.t.
Hypothesis Ha : Double.is_finite a = true.
Hypothesis Hb : Double.is_finite b = true.

Lemma lt_exact : Double.lt a b = Py.lt (Double.to_Q a) (Double.to_Q b).
Proof.
  unfold Double.lt, SFltb. rewrite compare_exact, py_lt_compare by done.
  by destruct (_ ?= _).
Qed.

Lemma le_exact : Double.le a b = Py.le (Double.to_Q a) (Double.to_Q b).
Proof.
  unfold Double.le, SFleb. rewrite compare_exact, py_le_compare by done.
  by destruct (_ ?= _).
Qed.

Lemma eq_exact : Double.eq a b = Py.eq (Double.to_Q a) (Double.to_Q b).
Proof.
  unfold Double.eq, SFeqb. rewrite compare_exact, py_eq_compare by done.
  by destruct (_ ?= _).
Qed.

End Exact.

Lemma min_exact (a b : Double.t) :
  Double.is_finite a = true → Double.is_finite b = true →
  Double.is_finite (Double.min a b) = true
  ∧ Double.to_Q (Double.min a b) = Py.min (Double.to_Q a) (Double.to_Q b).
Proof.
  intros Ha Hb. unfold Double.min, Py.min. rewrite (lt_exact b a) by done.
  by destruct (Py.lt _ _).
Qed.

Lemma max_exact (a b : Double.t) :
  Double.is_finite a = true → Double.is_finite b = true →
  Double.is_finite (Double.max a b) = true
  ∧ Double.to_Q (Double.max a b) = Py.max (Double.to_Q a) (Double.to_Q b).
Proof.
  intros Ha Hb. unfold Double.max, Py.max. rewrite (lt_exact a b) by done.
  by destruct (Py.lt _ _).
Qed.

(** The guards of the loop, on finite doubles, are the guards on their
    values. *)
Lemma guards_exact (x y : Double.t) (a b : Double.point) :
  Double.is_finite x = true → Double.is_finite y = true →
  Double.finite_point a = true → Double.finite_point b = true →
  Double.lt (Double.min a.2 b.2) y
  && Double.le y (Double.max a.2 b.2)
  && Double.le x (Double.max a.1 b.1)
  = guards (Double.to_Q x) (Double.to_Q y)
           (Double.to_point a) (Double.to_point b).
Proof.
  intros Hx Hy [Ha1 Ha2]%andb_true_iff [Hb1 Hb2]%andb_true_iff.
  destruct (min_exact a.2 b.2 Ha2 Hb2) as [Hfm Hm].
  destruct (max_exact a.2 b.2 Ha2 Hb2) as [HfM HM].
  destruct (max_exact a.1 b.1 Ha1 Hb1) as [HfX HX].
  unfold guards, Double.to_point. cbn [fst snd].
  rewrite lt_exact, !le_exact by done. by rewrite Hm, HM, HX.
Qed.

Lemma toggles_guards (x y : Q) (a b : point) :
  toggles x y a b
  = guards x y a b && (Py.eq a.1 b.1 || Py.le x (crossing y a b)).
Proof. reflexivity. Qed.

Lemma edges_from_to_polygon (a : Double.point) (l : Double.polygon) :
  edges_from (Double.to_point a) (Double.to_polygon l)
  = map (λ e, (Double.to_point e.1, Double.to_point e.2))
        (Double.edges_from a l).
Proof.
  revert a. induction l as [|b l IH]; intros a; [done|].
  simpl. by rewrite IH.
Qed.

Lemma polygon_edges_to_polygon (poly : Double.polygon) :
  polygon_edges (Double.to_polygon poly)
  = map (λ e, (Double.to_point e.1, Double.to_point e.2))
        (Double.polygon_edges poly).
Proof.
  destruct poly as [|v0 rest]; [done|].
  unfold polygon_edges, Double.polygon_edges, Double.to_polygon.
  cbn [map]. rewrite <- edges_from_to_polygon.
  unfold Double.to_polygon. by rewrite map_app.
Qed.

Section DoubleLoop.

Variables x y : Double.t.
Hypothesis Hx : Double.is_finite x = true.
Hypothesis Hy : Double.is_finite y = true.

(** When rounding does no harm on the edge, the iteration flips [inside]
    exactly when the exact test does. *)
Lemma polygon_edge_decided (st : Double.ray_state) (p2 : Double.point) :
  Double.finite_point (Double.p1 st) = true →
  Double.finite_point p2 = true →
  edge_decided x y (Double.p1 st, p2) = true →
  ∃ xi,
    Double.polygon_edge x y st p2
    = Ok (Double.RayState
            (xorb (Double.inside st)
                  (toggles (Double.to_Q x) (Double.to_Q y)
                           (Double.to_point (Double.p1 st))
                           (Double.to_point p2)))
            xi p2).
Proof.
  intros H1 H2 Hdec.
  pose proof (guards_exact x y _ _ Hx Hy H1 H2) as Hg.
  rewrite toggles_guards. unfold edge_decided in Hdec. cbn [fst snd] in Hdec.
  unfold Double.polygon_edge, Double.crossing in *.
  destruct (Double.p1 st) as [p1x p1y], p2 as [p2x p2y].
  apply andb_true_iff in H1 as [H1x H1y].
  apply andb_true_iff in H2 as [H2x H2y].
  cbn [fst snd] in *. rewrite <- Hg in *. clear Hg.
  destruct (Double.lt (Double.min p1y p2y) y) eqn:Hlo; cbn [andb];
    [|cbn [mbind result_bind fst snd]; rewrite xorb_false_r;
     eexists; reflexivity].
  destruct (Double.le y (Double.max p1y p2y)) eqn:Hhi; cbn [andb];
    [|cbn [mbind result_bind fst snd]; rewrite xorb_false_r;
     eexists; reflexivity].
  destruct (Double.le x (Double.max p1x p2x)) eqn:Hxm; cbn [andb];
    [|cbn [mbind result_bind fst snd]; rewrite xorb_false_r;
     eexists; reflexivity].
  cbn [andb negb orb] in Hdec.
  assert (Hne : Double.eq p1y p2y = false).
  { rewrite eq_exact by done.
    destruct (min_exact p1y p2y H1y H2y) as [Hfm Hm].
    destruct (max_exact p1y p2y H1y H2y) as [HfM HM].
    apply (guarded_edge_not_horizontal (Double.to_Q y)).
    - by rewrite <- Hm, <- lt_exact.
    - by rewrite <- HM, <- le_exact. }
  rewrite Hne. cbn [negb].
  destruct (Double.div _ _) as [q|e]; [|done].
  cbn [mbind result_bind fst snd] in *.
  change (Double.to_point (p1x, p1y)).1 with (Double.to_Q p1x) in *.
  change (Double.to_point (p2x, p2y)).1 with (Double.to_Q p2x) in *.
  rewrite (eq_exact p1x p2x) by done.
  destruct (Py.eq (Double.to_Q p1x) (Double.to_Q p2x)); cbn [orb] in *.
  - cbn [mbind result_bind fst snd]. rewrite xorb_true_r.
    eexists; reflexivity.
  - apply eqb_prop in Hdec. rewrite <- Hdec.
    cbn [mbind result_bind fst snd orb].
    destruct (Double.le x (Double.add q p1x)), (Double.inside st);
      eexists; reflexivity.
Qed.

Lemma for_each_polygon_edge_decided (l : Double.polygon)
    (st : Double.ray_state) :
  Double.finite_point (Double.p1 st) = true →
  forallb Double.finite_point l = true →
  forallb (edge_decided x y) (Double.edges_from (Double.p1 st) l) = true →
  ∃ st',
    for_each (Double.polygon_edge x y) st l = Ok st'
    ∧ Double.inside st'
      = xorb (Double.inside st)
             (parity (Double.to_Q x) (Double.to_Q y)
                     (edges_from (Double.to_point (Double.p1 st))
                                 (Double.to_polygon l))).
Proof.
  unfold parity.
  revert st. induction l as [|p2 l IH]; intros st H1 Hl Hdec.
  - exists st. simpl. by rewrite xorb_false_r.
  - cbn [forallb Double.edges_from] in Hl, Hdec.
    apply andb_true_iff in Hl as [H2 Hl].
    apply andb_true_iff in Hdec as [Hdec Hrest].
    destruct (polygon_edge_decided st p2 H1 H2 Hdec) as [xi Hstep].
    cbn [for_each]. rewrite Hstep. cbn [mbind result_bind].
    destruct (IH (Double.RayState
                    (xorb (Double.inside st)
                          (toggles (Double.to_Q x) (Double.to_Q y)
                                   (Double.to_point (Double.p1 st))
                                   (Double.to_point p2)))
                    xi p2))
      as (st' & Hrun & Hin); [done..|].
    exists st'. split; [done|]. rewrite Hin. simpl.
    by rewrite xorb_assoc.
Qed.

End DoubleLoop.

Lemma check_point_in_polygon_unrolled (x y : Double.t) (v0 : Double.point)
    (rest : Double.polygon) :
  Double.check_point_in_polygon (x, y) (v0 :: rest)
  = (st ← for_each (Double.polygon_edge x y) (Double.RayState false None v0)
                   (rest ++ [v0]);
     Ok (Double.inside st)).
Proof.
  unfold Double.check_point_in_polygon.
  change (Py.index (v0 :: rest) 0) with (Ok v0). cbn [mbind result_bind].
  by rewrite (edge_loop_unrolled (Double.polygon_edge x y)).
Qed.

(** In double precision the test computes the parity of the exact test as
    long as rounding does no harm on any edge. *)
Lemma check_point_in_polygon_decided (x y : Double.t) (poly : Double.polygon) :
  Double.is_finite x = true → Double.is_finite y = true →
  forallb Double.finite_point poly = true →
  rounding_harmless x y poly = true →
  poly ≠ [] →
  Double.check_point_in_polygon (x, y) poly
  = Ok (parity (Double.to_Q x) (Double.to_Q y)
               (polygon_edges (Double.to_polygon poly))).
Proof.
  intros Hx Hy Hfin Hdec Hne. destruct poly as [|v0 rest]; [done|].
  rewrite check_point_in_polygon_unrolled.
  unfold rounding_harmless, Double.polygon_edges in Hdec.
  cbn [forallb] in Hfin. apply andb_true_iff in Hfin as [H0 Hrest].
  destruct (for_each_polygon_edge_decided x y Hx Hy (rest ++ [v0])
              (Double.RayState false None v0))
    as (st' & -> & Hin); [done| |done|].
  { rewrite forallb_app. cbn [forallb]. by rewrite Hrest, H0. }
  cbn [mbind result_bind]. rewrite Hin. cbn [Double.inside Double.p1 xorb].
  unfold polygon_edges, Double.to_polygon. cbn [map].
  unfold Double.to_polygon. by rewrite map_app.
Qed.

Lemma guards_outside (x y : Q) (poly : polygon) (a b : point) :
  outside_guarded (x, y) poly → a ∈ poly → b ∈ poly →
  guards x y a b = false.
Proof.
  unfold guards. intros [Hout|[Hout|Hout]] Ha Hb;
    pose proof (Hout a Ha) as Hoa; pose proof (Hout b Hb) as Hob;
    cbn [fst snd] in Hoa, Hob.
  - replace (Py.le x (Py.max a.1 b.1)) with false; [by rewrite andb_false_r|].
    symmetry. apply PyFacts.le_false.
    destruct (PyFacts.max_spec a.1 b.1) as [[_ ->]|[_ ->]]; done.
  - replace (Py.lt (Py.min a.2 b.2) y) with false; [done|].
    symmetry. apply PyFacts.lt_false.
    destruct (PyFacts.min_spec a.2 b.2) as [[_ ->]|[_ ->]]; lra.
  - replace (Py.le y (Py.max a.2 b.2)) with false; [by rewrite andb_false_r|].
    symmetry. apply PyFacts.le_false.
    destruct (PyFacts.max_spec a.2 b.2) as [[_ ->]|[_ ->]]; done.
Qed.

Lemma rounding_harmless_outside (x y : Double.t) (poly : Double.polygon) :
  outside_guarded (Double.to_Q x, Double.to_Q y) (Double.to_polygon poly) →
  rounding_harmless x y poly = true.
Proof.
  intros Hout. apply forallb_forall. intros e He.
  assert (Hq : (Double.to_point e.1, Double.to_point e.2)
               ∈ polygon_edges (Double.to_polygon poly)).
  { rewrite polygon_edges_to_polygon. apply list_elem_of_fmap.
    exists e. split; [done|]. by apply list_elem_of_In. }
  apply polygon_edges_ends in Hq as [H1 H2]. cbn [fst snd] in H1, H2.
  unfold edge_decided. by rewrite (guards_outside _ _ _ _ _ Hout H1 H2).
Qed.

Lemma outside_guarded_extent (p : point) (poly : polygon) :
  outside_guarded p poly → outside_extent p poly.
Proof. unfold outside_guarded, outside_extent. tauto. Qed.

Lemma compare_antisym (a b : Double.t) :
  SFcompare b a = CompOpp <$> SFcompare a b.
Proof.
  destruct a as [sa|sa| |sa ma ea], b as [sb|sb| |sb mb eb];
    try done; try (by destruct sa); try (by destruct sb);
    try (by destruct sa, sb).
  cbn [SFcompare fmap option_fmap option_map]. f_equal.
  destruct sa, sb; try done.
  - rewrite (Z.compare_antisym ea eb).
    destruct (ea ?= eb)%Z; cbn [CompOpp]; try done.
    by rewrite (Pos.compare_cont_antisym ma mb Eq).
  - rewrite (Z.compare_antisym ea eb).
    destruct (ea ?= eb)%Z; cbn [CompOpp]; try done.
    by rewrite (Pos.compare_cont_antisym ma mb Eq).
Qed.

Lemma lt_not_le (a b : Double.t) :
  Double.lt a b = true → Double.le b a = false.
Proof.
  unfold Double.lt, Double.le, SFltb, SFleb. rewrite (compare_antisym a b).
  by destruct (SFcompare a b) as [[]|].
Qed.

Lemma lt_irrefl (a : Double.t) : Double.lt a a = false.
Proof.
  destruct (Double.lt a a) eqn:E; [|done].
  pose proof (lt_not_le a a E) as Hle.
  unfold Double.lt, Double.le, SFltb, SFleb in *.
  by destruct (SFcompare a a) as [[]|].
Qed.

(** An edge from a vertex to itself never passes the guards. *)
Lemma polygon_edge_loop (x y : Double.t) (st : Double.ray_state) :
  Double.polygon_edge x y st (Double.p1 st)
  = Ok (Double.RayState (Double.inside st) (Double.xinters st) (Double.p1 st)).
Proof.
  unfold Double.polygon_edge. destruct (Double.p1 st) as [vx vy].
  unfold Double.min, Double.max. rewrite !lt_irrefl.
  destruct (Double.lt vy y) eqn:Hlo; [|done].
  by rewrite (lt_not_le _ _ Hlo).
Qed.

End DoubleFacts.


(** In exact arithmetic the test is right for every convex polygon: true
    for the points strictly inside, false for the points strictly outside
    the range of its vertices. *)
Lemma containment_exact (pt : point) (poly : polygon) :
  convex_polygon poly →
  (strictly_interior pt poly → check_point_in_polygon pt poly = Ok true)
  ∧ (outside_extent pt poly → check_point_in_polygon pt poly = Ok false).
Proof.
  intros (Hlen & Hconvex & Hsimple). destruct pt as [x y].
  destruct poly as [|v0 rest]; [simpl in Hlen; lia|].
  rewrite check_point_in_polygon_parity. split.
  - intros Hin. f_equal. by apply parity_interior.
  - intros Hout. f_equal. by apply parity_outside_extent.
Qed.

Lemma square_convex_polygon : convex_polygon square.
Proof.
  split; [simpl; lia|]. split.
  - left. intros e v He Hv. unfold square, polygon_edges in *. simpl in He.
    repeat (apply elem_of_cons in He as [->|He]);
      [..|by apply elem_of_nil in He];
      repeat (apply elem_of_cons in Hv as [->|Hv]);
      try (by apply elem_of_nil in Hv); unfold cross; simpl; lra.
  - intros l1 e l2 e' l3 q Hedges
      (t & Ht0 & Ht1 & Hx & Hy) (s & Hs0 & Hs1 & Hx' & Hy').
    unfold square, polygon_edges in Hedges. simpl in Hedges.
    unfold point_eq.
    edge_cases Hedges; simpl in *;
      first [ left; split; [done|]; split; lra
            | right; split; [done|]; split; [done|]; split; lra
            | exfalso; lra ].
Qed.

Lemma triangle_convex_polygon : convex_polygon triangle.
Proof.
  split; [simpl; lia|]. split.
  - left. intros e v He Hv. unfold triangle, polygon_edges in *. simpl in He.
    repeat (apply elem_of_cons in He as [->|He]);
      [..|by apply elem_of_nil in He];
      repeat (apply elem_of_cons in Hv as [->|Hv]);
      try (by apply elem_of_nil in Hv); unfold cross; simpl; lra.
  - intros l1 e l2 e' l3 q Hedges
      (t & Ht0 & Ht1 & Hx & Hy) (s & Hs0 & Hs1 & Hx' & Hy').
    unfold triangle, polygon_edges in Hedges. simpl in Hedges.
    unfold point_eq.
    edge_cases Hedges; simpl in *;
      first [ left; split; [done|]; split; lra
            | right; split; [done|]; split; [done|]; split; lra
            | exfalso; lra ].
Qed.

Lemma to_polygon_double_triangle :
  Double.to_polygon double_triangle = triangle.
Proof. vm_compute. reflexivity. Qed.

Lemma double_triangle_convex :
  convex_polygon (Double.to_polygon double_triangle).
Proof. rewrite to_polygon_double_triangle. apply triangle_convex_polygon. Qed.

Lemma triangle_interior (x : Q) :
  1 # 3 < x → x < 11 # 3 → strictly_interior (x, 1) triangle.
Proof.
  intros Hlo Hhi. left. intros e He.
  unfold triangle, polygon_edges in He. simpl in He.
  repeat (apply elem_of_cons in He as [->|He]);
    [..|by apply elem_of_nil in He]; unfold cross; simpl; lra.
Qed.

Lemma double_triangle_interior :
  strictly_interior (Double.to_Q (Double.of_Z 2), Double.to_Q (Double.of_Z 1))
                    (Double.to_polygon double_triangle).
Proof.
  rewrite to_polygon_double_triangle.
  change (Double.to_Q (Double.of_Z 1)) with (Qred 1).
  apply triangle_interior; vm_compute; reflexivity.
Qed.

Lemma double_triangle_on_the_left :
  outside_extent (Double.to_Q (Double.of_Z (-1)), Double.to_Q (Double.of_Z 1))
                 (Double.to_polygon double_triangle).
Proof.
  rewrite to_polygon_double_triangle. left. intros v Hv. unfold triangle in Hv.
  repeat (apply elem_of_cons in Hv as [->|Hv]);
    try (by apply elem_of_nil in Hv); vm_compute; reflexivity.
Qed.

Lemma double_triangle_on_the_right :
  outside_guarded (Double.to_Q (Double.of_Z 6), Double.to_Q (Double.of_Z 1))
                  (Double.to_polygon double_triangle).
Proof.
  rewrite to_polygon_double_triangle. left. intros v Hv. unfold triangle in Hv.
  repeat (apply elem_of_cons in Hv as [->|Hv]);
    try (by apply elem_of_nil in Hv); vm_compute; reflexivity.
Qed.

Lemma far_triangle_convex_polygon : convex_polygon far_triangle.
Proof.
  split; [simpl; lia|]. split.
  - right. intros e v He Hv. unfold far_triangle, polygon_edges in *.
    simpl in He.
    repeat (apply elem_of_cons in He as [->|He]);
      [..|by apply elem_of_nil in He];
      repeat (apply elem_of_cons in Hv as [->|Hv]);
      try (by apply elem_of_nil in Hv); unfold cross; simpl; lra.
  - intros l1 e l2 e' l3 q Hedges
      (t & Ht0 & Ht1 & Hx & Hy) (s & Hs0 & Hs1 & Hx' & Hy').
    unfold far_triangle, polygon_edges in Hedges. simpl in Hedges.
    unfold point_eq.
    edge_cases Hedges; simpl in *;
      first [ left; split; [done|]; split; lra
            | right; split; [done|]; split; [done|]; split; lra
            | exfalso; lra ].
Qed.

Lemma to_polygon_double_far_triangle :
  Double.to_polygon double_far_triangle = far_triangle.
Proof. vm_compute. reflexivity. Qed.

(** C6, as the code has it.  The centre of a box is a double, and the test
    computes the crossing abscissa of an edge with four rounded operations.
    For a convex polygon with at least 3 vertices, finite coordinates and a
    finite point: when on every edge that passes the guards the crossing is
    computed and, unless the edge is vertical, lies on the same side of [x]
    as the exact crossing, the test returns true for every point strictly
    inside the polygon and false for every point strictly outside the range
    of its vertices.  For a point strictly below, above or to the right of
    that range it returns false whatever the rounding. *)
Theorem containment_up_to_rounding (x y : Double.t) (poly : Double.polygon) :
  Double.is_finite x = true → Double.is_finite y = true →
  forallb Double.finite_point poly = true →
  convex_polygon (Double.to_polygon poly) →
  (rounding_harmless x y poly = true →
   (strictly_interior (Double.to_Q x, Double.to_Q y)
                      (Double.to_polygon poly) →
    Double.check_point_in_polygon (x, y) poly = Ok true)
   ∧ (outside_extent (Double.to_Q x, Double.to_Q y)
                     (Double.to_polygon poly) →
      Double.check_point_in_polygon (x, y) poly = Ok false))
  ∧ (outside_guarded (Double.to_Q x, Double.to_Q y)
                     (Double.to_polygon poly) →
     Double.check_point_in_polygon (x, y) poly = Ok false).
Proof.
  intros Hx Hy Hfin (Hlen & Hconvex & Hsimple).
  assert (Hne : poly ≠ []).
  { intros ->. simpl in Hlen. lia. }
  assert (Hne' : Double.to_polygon poly ≠ []).
  { destruct poly; [done|]. discriminate. }
  split; [intros Hdec; split|].
  - intros Hin. rewrite DoubleFacts.check_point_in_polygon_decided by done.
    f_equal. by apply parity_interior.
  - intros Hout. rewrite DoubleFacts.check_point_in_polygon_decided by done.
    f_equal. by apply parity_outside_extent.
  - intros Hout.
    rewrite DoubleFacts.check_point_in_polygon_decided
      by (try done; by apply DoubleFacts.rounding_harmless_outside).
    f_equal. apply parity_outside_extent.
    by apply DoubleFacts.outside_guarded_extent.
Qed.

Lemma containment_up_to_rounding_witness :
  Double.check_point_in_polygon (Double.of_Z 2, Double.of_Z 1) double_triangle
  = Ok true
  ∧ Double.check_point_in_polygon (Double.of_Z (-1), Double.of_Z 1)
                                  double_triangle
    = Ok false
  ∧ Double.check_point_in_polygon (Double.of_Z 6, Double.of_Z 1)
                                  double_triangle
    = Ok false.
Proof.
  split; [|split].
  - apply (proj1 (proj1 (containment_up_to_rounding
                           (Double.of_Z 2) (Double.of_Z 1) double_triangle
                           eq_refl eq_refl eq_refl double_triangle_convex)
                        eq_refl)).
    apply double_triangle_interior.
  - apply (proj2 (proj1 (containment_up_to_rounding
                           (Double.of_Z (-1)) (Double.of_Z 1) double_triangle
                           eq_refl eq_refl eq_refl double_triangle_convex)
                        eq_refl)).
    apply double_triangle_on_the_left.
  - apply (proj2 (containment_up_to_rounding
                    (Double.of_Z 6) (Double.of_Z 1) double_triangle
                    eq_refl eq_refl eq_refl double_triangle_convex)).
    apply double_triangle_on_the_right.
Defined.

(** The claim as the specification words it fails in double precision, in
    both halves.

    The point (0.33333333333333337, 1.0) is strictly inside the triangle
    (5, 0), (1, 3), (0, 0), by one unit in the last place beyond the edge
    from (1, 3) to (0, 0), whose exact crossing at height 1 is 1/3.  The loop
    computes that crossing as (1 - 3) * (0 - 1) / (0 - 3) + 1: the quotient
    is rounded to -0.6666666666666666, the sum is 0.33333333333333337, and
    [x <= xinters] holds.  The edge from (5, 0) to (1, 3) flips [inside] as
    well, and the test returns false.

    The point (-1.5, 1.0) is strictly on the left of every vertex of the
    triangle (2^53 + 2, 0), (-1, 1), (2^53 + 2, 2).  On the edge from
    (2^53 + 2, 0) to (-1, 1) the difference -(2^53 + 3) is rounded to
    -(2^53 + 4), the crossing is computed as -2.0 instead of -1, and
    [x <= xinters] fails; only the vertical edge flips [inside], and the
    test returns true. *)
Lemma containment_counterexample :
  (Double.is_finite third_up = true
   ∧ (33333333333333337 # 10 ^ 17) - (1 # 2 ^ 55) < Double.to_Q third_up
   ∧ Double.to_Q third_up < (33333333333333337 # 10 ^ 17) + (1 # 2 ^ 55)
   ∧ Double.to_Q (Double.of_Z 1) == 1
   ∧ forallb Double.finite_point double_triangle = true
   ∧ Double.to_polygon double_triangle = [(5, 0); (1, 3); (0, 0)]
   ∧ convex_polygon (Double.to_polygon double_triangle)
   ∧ strictly_interior (Double.to_Q third_up, Double.to_Q (Double.of_Z 1))
                       (Double.to_polygon double_triangle)
   ∧ Double.crossing (Double.of_Z 1) (Double.of_Z 1, Double.of_Z 3)
                     (Double.of_Z 0, Double.of_Z 0)
     = Ok third_up
   ∧ Double.check_point_in_polygon (third_up, Double.of_Z 1) double_triangle
     = Ok false)
  ∧ (Double.is_finite minus_three_halves = true
     ∧ Double.to_Q minus_three_halves == - (3 # 2)
     ∧ forallb Double.finite_point double_far_triangle = true
     ∧ Double.to_polygon double_far_triangle
       = [(2 ^ 53 + 2, 0); (-1, 1); (2 ^ 53 + 2, 2)]
     ∧ convex_polygon (Double.to_polygon double_far_triangle)
     ∧ outside_extent
         (Double.to_Q minus_three_halves, Double.to_Q (Double.of_Z 1))
         (Double.to_polygon double_far_triangle)
     ∧ Double.crossing (Double.of_Z 1)
                       (Double.of_Z (2 ^ 53 + 2), Double.of_Z 0)
                       (Double.of_Z (-1), Double.of_Z 1)
       = Ok (Double.of_Z (-2))
     ∧ Double.check_point_in_polygon (minus_three_halves, Double.of_Z 1)
                                     double_far_triangle
       = Ok true).
Proof.
  split.
  - split; [vm_compute; reflexivity|]. split; [vm_compute; reflexivity|].
    split; [vm_compute; reflexivity|]. split; [vm_compute; reflexivity|].
    split; [vm_compute; reflexivity|]. split; [vm_compute; reflexivity|].
    split; [apply double_triangle_convex|].
    split; [|split; vm_compute; reflexivity].
    rewrite to_polygon_double_triangle.
    change (Double.to_Q (Double.of_Z 1)) with (Qred 1).
    apply triangle_interior; vm_compute; reflexivity.
  - split; [vm_compute; reflexivity|]. split; [vm_compute; reflexivity|].
    split; [vm_compute; reflexivity|]. split; [vm_compute; reflexivity|].
    split.
    { rewrite to_polygon_double_far_triangle.
      apply far_triangle_convex_polygon. }
    split; [|split; vm_compute; reflexivity].
    rewrite to_polygon_double_far_triangle. left. intros v Hv.
    unfold far_triangle in Hv.
    repeat (apply elem_of_cons in Hv as [->|Hv]);
      try (by apply elem_of_nil in Hv); vm_compute; reflexivity.
Qed.

(** ** Status queries *)

Lemma py_max_Qmax (a b : Q) : Py.max a b == Qmax a b.
Proof.
  destruct (PyFacts.max_spec a b) as [[Hlt ->]|[Hle ->]].
  - symmetry. apply Q.max_r. lra.
  - symmetry. by apply Q.max_l.
Qed.

(** C3. [get_alert_status] answers [(False, 0)] for a track without record,
    [(True, 0)] for a record with [is_active] set, and else
    [(remaining > 0, remaining)] with
    [remaining = max(0, ALARM_DURATION - (now - last_seen_in_zone))]; the
    manager is the same after the call. *)
Theorem get_alert_status_cases (self : AlertManager) (current_time : Q)
    (track_id : Z) :
  (get_alert_status self current_time track_id).1 = self
  ∧ (active_alerts self !! track_id = None →
     (get_alert_status self current_time track_id).2 = (false, 0))
  ∧ (∀ alert,
       active_alerts self !! track_id = Some alert →
       Alert.is_active alert = true →
       (get_alert_status self current_time track_id).2 = (true, 0))
  ∧ (∀ alert,
       active_alerts self !! track_id = Some alert →
       Alert.is_active alert = false →
       ∃ alarmed remaining,
         (get_alert_status self current_time track_id).2 = (alarmed, remaining)
         ∧ remaining
           == Qmax 0 (Config.ALARM_DURATION
                      - (current_time - Alert.last_seen_in_zone alert))
         ∧ (alarmed = true ↔ 0 < remaining)).
Proof.
  unfold get_alert_status. repeat split.
  - destruct (active_alerts self !! track_id) as [alert|]; [|done].
    by destruct (Alert.is_active alert).
  - by intros ->.
  - intros alert -> Hactive. by rewrite Hactive.
  - intros alert -> Hactive. rewrite Hactive. simpl.
    eexists _, _. split; [done|]. split.
    + apply py_max_Qmax.
    + apply PyFacts.lt_true.
Qed.

Lemma get_alert_status_cases_witness :
  ∃ alarmed remaining,
    (get_alert_status (Manager {[ 7%Z := Alert.Make 7 0 0 0 false ]} ∅) 1 7).2
    = (alarmed, remaining)
    ∧ remaining
      == Qmax 0 (Config.ALARM_DURATION
                 - (1 - Alert.last_seen_in_zone (Alert.Make 7 0 0 0 false)))
    ∧ (alarmed = true ↔ 0 < remaining).
Proof.
  apply (proj2 (proj2 (proj2
           (get_alert_status_cases
              (Manager {[ 7%Z := Alert.Make 7 0 0 0 false ]} ∅) 1 7))));
    reflexivity.
Defined.

(** ** The order of the two timestamps of a record *)

Lemma for_each_invariant {S A} (P : S → Prop) (body : S → A → result S)
    (l : list A) (s s' : S) :
  (∀ s a s', a ∈ l → P s → body s a = Ok s' → P s') →
  P s → for_each body s l = Ok s' → P s'.
Proof.
  revert s. induction l as [|a l IH]; intros s Hbody Hs Hloop; simpl in Hloop.
  - by injection Hloop as <-.
  - destruct (body s a) as [s1|e] eqn:Hstep; [|done]. simpl in Hloop.
    apply (IH s1); [|by apply (Hbody s a); [left|..]|done].
    intros s2 a2 s3 Ha2. apply Hbody. by right.
Qed.

Lemma ledger_ok_later (t t' : Q) (alerts : gmap Z Alert.t) :
  t <= t' → ledger_ok t alerts → ledger_ok t' alerts.
Proof.
  intros Ht Hok tid a Ha. destruct (Hok tid a Ha) as [? ?]. split; lra.
Qed.

Lemma enter_zone_ledger_ok current_time zones self (t : Track.t) self' :
  ledger_ok current_time (active_alerts self) →
  enter_zone current_time zones self t = Ok self' →
  ledger_ok current_time (active_alerts self').
Proof.
  intros Hok. unfold enter_zone.
  rewrite check_zone_penetration_penetrates.
  destruct (penetrates (Track.bbox t) zones) as [[pen z]|e]; [|done]. simpl.
  destruct pen; [|by intros [= <-]].
  destruct (active_alerts self !! Track.track_id t) as [a|] eqn:Ha;
    intros [= <-]; simpl; apply map_Forall_insert_2; try done; simpl.
  - destruct (Hok _ _ Ha) as [? ?]. split; lra.
  - split; lra.
Qed.

Lemma leave_zone_ledger_ok current_time tracks zones ids st (tid : Z)
    (alert : Alert.t) st' :
  Alert.entry_time alert <= Alert.last_seen_in_zone alert →
  Alert.last_seen_in_zone alert <= current_time →
  ledger_ok current_time (active_alerts st.1) →
  leave_zone current_time tracks zones ids st (tid, alert) = Ok st' →
  ledger_ok current_time (active_alerts st'.1).
Proof.
  intros He Hl Hok. destruct st as [self rem]. unfold leave_zone.
  destruct (bool_decide (tid ∉ ids)).
  { destruct (Py.le _ _); by intros [= <-]. }
  destruct (current_track_of tracks tid) as [t|]; [|by intros [= <-]].
  rewrite check_zone_penetration_penetrates.
  destruct (penetrates (Track.bbox t) zones) as [[pen z]|e]; [|done]. simpl.
  destruct pen; simpl; [by intros [= <-]|].
  assert (Hins : ledger_ok current_time
                   (<[tid := Alert.set_is_active false alert]>
                      (active_alerts self))).
  { by apply map_Forall_insert_2. }
  destruct (bool_decide _); [destruct (Py.le _ _)|]; by intros [= <-].
Qed.

Lemma remove_expired_ledger_ok t self (alerts_to_remove : list Z) :
  ledger_ok t (active_alerts self) →
  ledger_ok t (active_alerts (remove_expired self alerts_to_remove)).
Proof.
  intros Hok tid a. rewrite remove_expired_lookup.
  destruct (decide _); [done|]. apply Hok.
Qed.

Lemma update_alerts_ledger_ok t self current_time tracks zones self' alerted :
  t <= current_time →
  ledger_ok t (active_alerts self) →
  update_alerts self current_time tracks zones = Ok (self', alerted) →
  ledger_ok current_time (active_alerts self').
Proof.
  intros Ht Hok. apply (ledger_ok_later _ _ _ Ht) in Hok.
  unfold update_alerts, update_alerts_sweep.
  destruct (for_each (enter_zone current_time zones) self tracks)
    as [self1|e] eqn:Hloop1; [|done].
  cbn [mbind result_bind].
  assert (Hok1 : ledger_ok current_time (active_alerts self1)).
  { apply (for_each_invariant
             (λ s, ledger_ok current_time (active_alerts s)) _ _ _ _
             (λ s a s' _, enter_zone_ledger_ok current_time zones s a s')
             Hok Hloop1). }
  destruct (for_each _ (self1, []) _) as [[self2 rem]|e] eqn:Hloop2; [|done].
  cbn [mbind result_bind]. intros [= <- _].
  rewrite clean_positions_alerts. apply remove_expired_ledger_ok.
  change self2 with (self2, rem).1.
  refine (for_each_invariant
            (λ st, ledger_ok current_time (active_alerts st.1))
            _ _ (self1, []) (self2, rem) _ Hok1 Hloop2).
  intros st [tid a] st' Hitem Hst Hstep.
  apply elem_of_map_to_list in Hitem.
  destruct (Hok1 tid a Hitem) as [? ?].
  by eapply leave_zone_ledger_ok.
Qed.

Lemma reachable_ledger_ok (t : Q) (self : AlertManager) :
  reachable t self → ledger_ok t (active_alerts self).
Proof.
  induction 1 as [t|t self now tracks zones self' alerted _ IH Ht Htick].
  - apply map_Forall_empty.
  - by apply (update_alerts_ledger_ok t self now tracks zones self' alerted).
Qed.

Lemma ledger_step_refl current_time (alerts : gmap Z Alert.t) :
  ledger_step current_time alerts alerts.
Proof.
  split; [|done]. intros tid a Ha. rewrite Ha. simpl. by split; [|left].
Qed.

Lemma ledger_step_insert current_time (alerts0 alerts : gmap Z Alert.t)
    (tid : Z) (new : Alert.t) :
  ledger_step current_time alerts0 alerts →
  record_step current_time (alerts0 !! tid) new →
  ledger_step current_time alerts0 (<[tid := new]> alerts).
Proof.
  intros [Hrec Hdom] Hnew. split.
  - intros tid' a'. destruct (decide (tid = tid')) as [<-|Hne].
    + rewrite lookup_insert_eq. by intros [= <-].
    + rewrite lookup_insert_ne by done. apply Hrec.
  - intros tid' Hsome. destruct (decide (tid = tid')) as [<-|Hne].
    + rewrite lookup_insert_eq. eauto.
    + rewrite lookup_insert_ne by done. by apply Hdom.
Qed.

Lemma enter_zone_ledger_step current_time zones alerts0 self (t : Track.t)
    self' :
  ledger_step current_time alerts0 (active_alerts self) →
  enter_zone current_time zones self t = Ok self' →
  ledger_step current_time alerts0 (active_alerts self').
Proof.
  intros Hstep. unfold enter_zone.
  rewrite check_zone_penetration_penetrates.
  destruct (penetrates (Track.bbox t) zones) as [[pen z]|e]; [|done]. simpl.
  destruct pen; [|by intros [= <-]].
  destruct (active_alerts self !! Track.track_id t) as [a|] eqn:Ha;
    intros [= <-]; simpl; apply ledger_step_insert; try done.
  - destruct Hstep as [Hrec _]. specialize (Hrec _ _ Ha).
    destruct (alerts0 !! Track.track_id t) as [a0|]; simpl in *.
    + destruct Hrec as [? _]. split; [done|by right].
    + by destruct Hrec as [? _].
  - destruct Hstep as [_ Hdom].
    destruct (alerts0 !! Track.track_id t) as [a0|] eqn:Ha0; [|done].
    destruct (Hdom (Track.track_id t)) as [a Ha']; [by rewrite Ha0; eauto|].
    congruence.
Qed.

Lemma leave_zone_ledger_step current_time tracks zones ids alerts0 st (tid : Z)
    (alert : Alert.t) st' :
  record_step current_time (alerts0 !! tid) alert →
  ledger_step current_time alerts0 (active_alerts st.1) →
  leave_zone current_time tracks zones ids st (tid, alert) = Ok st' →
  ledger_step current_time alerts0 (active_alerts st'.1).
Proof.
  intros Hitem Hstep. destruct st as [self rem]. unfold leave_zone.
  destruct (bool_decide (tid ∉ ids)).
  { destruct (Py.le _ _); by intros [= <-]. }
  destruct (current_track_of tracks tid) as [t|]; [|by intros [= <-]].
  rewrite check_zone_penetration_penetrates.
  destruct (penetrates (Track.bbox t) zones) as [[pen z]|e]; [|done]. simpl.
  destruct pen; simpl; [by intros [= <-]|].
  assert (Hins : ledger_step current_time alerts0
                   (<[tid := Alert.set_is_active false alert]>
                      (active_alerts self))).
  { apply ledger_step_insert; [done|].
    by destruct (alerts0 !! tid). }
  destruct (bool_decide _); [destruct (Py.le _ _)|]; by intros [= <-].
Qed.

Lemma update_alerts_record_step self current_time tracks zones self' alerted
    (tid : Z) (new : Alert.t) :
  update_alerts self current_time tracks zones = Ok (self', alerted) →
  active_alerts self' !! tid = Some new →
  record_step current_time (active_alerts self !! tid) new.
Proof.
  unfold update_alerts, update_alerts_sweep.
  destruct (for_each (enter_zone current_time zones) self tracks)
    as [self1|e] eqn:Hloop1; [|done].
  cbn [mbind result_bind].
  assert (Hstep1 : ledger_step current_time (active_alerts self)
                     (active_alerts self1)).
  { apply (for_each_invariant
             (λ s, ledger_step current_time (active_alerts self)
                     (active_alerts s)) _ _ _ _
             (λ s a s' _, enter_zone_ledger_step current_time zones _ s a s')
             (ledger_step_refl _ _) Hloop1). }
  destruct (for_each _ (self1, []) _) as [[self2 rem]|e] eqn:Hloop2; [|done].
  cbn [mbind result_bind]. intros [= <- _].
  rewrite clean_positions_alerts, remove_expired_lookup.
  destruct (decide _); [done|].
  assert (Hstep2 : ledger_step current_time (active_alerts self)
                     (active_alerts (self2, rem).1)).
  { refine (for_each_invariant
              (λ st, ledger_step current_time (active_alerts self)
                       (active_alerts st.1))
              _ _ (self1, []) (self2, rem) _ Hstep1 Hloop2).
    intros st [k a] st' Hitem Hst Hleave.
    apply elem_of_map_to_list in Hitem.
    eapply leave_zone_ledger_step; [|done..].
    by apply Hstep1. }
  apply Hstep2.
Qed.

(** C8. In every ledger reached through calls of [update_alerts] at times
    that do not decrease, every record has
    [entry_time <= last_seen_in_zone] (and was last seen no later than the
    last tick).  For a tick writes the timestamps of a record in two ways
    only: it sets both to its own time in a record it creates, and in a
    record that was there it leaves [entry_time] alone and keeps
    [last_seen_in_zone] or sets it to its own time. *)
Theorem entry_before_last_seen (t : Q) (self : AlertManager) :
  reachable t self →
  (∀ track_id alert,
     active_alerts self !! track_id = Some alert →
     Alert.entry_time alert <= Alert.last_seen_in_zone alert
     ∧ Alert.last_seen_in_zone alert <= t)
  ∧ (∀ current_time tracks zones self' alerted track_id alert',
       t <= current_time →
       update_alerts self current_time tracks zones = Ok (self', alerted) →
       active_alerts self' !! track_id = Some alert' →
       match active_alerts self !! track_id with
       | None =>
           Alert.entry_time alert' = current_time
           ∧ Alert.last_seen_in_zone alert' = current_time
       | Some alert =>
           Alert.entry_time alert' = Alert.entry_time alert
           ∧ (Alert.last_seen_in_zone alert' = Alert.last_seen_in_zone alert
              ∨ (Alert.last_seen_in_zone alert' = current_time
                 ∧ Alert.last_seen_in_zone alert <= current_time))
       end).
Proof.
  intros Hreach. split.
  - intros tid a Ha. by apply (reachable_ledger_ok t self Hreach tid a).
  - intros now tracks zones self' alerted tid a' Ht Htick Ha'.
    pose proof (update_alerts_record_step _ _ _ _ _ _ _ _ Htick Ha') as Hstep.
    unfold record_step in Hstep.
    destruct (active_alerts self !! tid) as [a|] eqn:Ha; [|done].
    destruct Hstep as [He [Hl|Hl]]; (split; [done|]); [by left|right].
    split; [done|].
    destruct (reachable_ledger_ok t self Hreach tid a Ha) as [_ ?]. lra.
Qed.

(** What the first tick of the example does: track 7 is found in the square
    at time 0. *)
Lemma track7_enters :
  update_alerts init 0 [track7_inside] [square] = Ok (after_entry, {[ 7%Z ]}).
Proof. vm_compute. reflexivity. Qed.

Lemma entry_before_last_seen_witness :
  Alert.entry_time alert7 <= Alert.last_seen_in_zone alert7
  ∧ Alert.last_seen_in_zone alert7 <= 0.
Proof.
  apply (proj1 (entry_before_last_seen 0 after_entry
                  (reachable_tick 0 init 0 [track7_inside] [square]
                     after_entry {[ 7%Z ]} (reachable_init 0) (Qle_refl 0)
                     track7_enters))
           7%Z alert7).
  reflexivity.
Defined.

(** ** One tick, seen from one track *)

Lemma expired_true current_time (alert : Alert.t) :
  expired current_time alert = true
  ↔ Config.ALARM_DURATION <= current_time - Alert.last_seen_in_zone alert.
Proof. apply PyFacts.le_true. Qed.

Lemma expired_false current_time (alert : Alert.t) :
  expired current_time alert = false
  ↔ current_time - Alert.last_seen_in_zone alert < Config.ALARM_DURATION.
Proof. apply PyFacts.le_false. Qed.

Lemma observation_inside tracks zones (tid : Z) :
  unique_ids tracks →
  (∃ t zone_id,
     t ∈ tracks ∧ Track.track_id t = tid
     ∧ scan_zones (get_bbox_center (Track.bbox t)) zones 0 = Ok (true, zone_id))
  ↔ ∃ zone_id, observation tracks zones tid = Some (true, zone_id).
Proof.
  intros Hnd. split.
  - intros (t & z & Ht & <- & Hscan). exists z.
    by apply observation_unique.
  - intros (z & Hobs). unfold observation in Hobs.
    destruct (current_track_of tracks tid) as [t|] eqn:Ht; [|done].
    apply current_track_of_Some in Ht as [Ht Hid].
    destruct (penetrates (Track.bbox t) zones) as [r|e] eqn:Hpen; [|done].
    injection Hobs as ->. by exists t, z.
Qed.

(** C4. For a track that holds a record and is observed: if the centre of
    its box is in some zone, the tick sets [last_seen_in_zone] to the time
    of the tick and [is_active] to true, and leaves [entry_time] and
    [zone_id] as they were, whatever zone the track is in now; if the centre
    is outside every zone, the tick sets [is_active] to false and leaves
    [last_seen_in_zone], [entry_time] and [zone_id] as they were.  This is
    the record as the sweep leaves it; the tick then keeps it, or deletes it
    in the second case when its grace period is over. *)
Theorem refresh_and_departure_frame (self : AlertManager) (current_time : Q)
    (tracks : list Track.t) (zones : list polygon) (track : Track.t)
    (alert : Alert.t) :
  unique_ids tracks →
  zones_nonempty zones →
  track ∈ tracks →
  active_alerts self !! Track.track_id track = Some alert →
  ∃ self2 alerts_to_remove self',
    update_alerts_sweep self current_time tracks zones
    = Ok (self2, alerts_to_remove)
    ∧ update_alerts self current_time tracks zones
      = Ok (self', dom (active_alerts self'))
    ∧ (∀ zone_id,
         scan_zones (get_bbox_center (Track.bbox track)) zones 0
         = Ok (true, zone_id) →
         let refreshed :=
           Alert.Make (Alert.track_id alert) (Alert.zone_id alert)
                      (Alert.entry_time alert) current_time true in
         active_alerts self2 !! Track.track_id track = Some refreshed
         ∧ active_alerts self' !! Track.track_id track = Some refreshed)
    ∧ (∀ r,
         scan_zones (get_bbox_center (Track.bbox track)) zones 0
         = Ok (false, r) →
         let departed :=
           Alert.Make (Alert.track_id alert) (Alert.zone_id alert)
                      (Alert.entry_time alert)
                      (Alert.last_seen_in_zone alert) false in
         active_alerts self2 !! Track.track_id track = Some departed
         ∧ active_alerts self' !! Track.track_id track
           = if Py.le Config.ALARM_DURATION
                      (current_time - Alert.last_seen_in_zone alert)
             then None else Some departed).
Proof.
  intros Hnd Hz Ht Ha.
  destruct (update_alerts_sweep_spec self current_time tracks zones Hnd Hz)
    as (self2 & rem & Hsweep & Hlook2 & _).
  destruct (update_alerts_spec self current_time tracks zones Hnd Hz)
    as (self' & Htick & Hlook).
  exists self2, rem, self'. split; [done|]. split; [done|].
  split; intros z Hscan; simpl;
    rewrite Hlook2, Hlook,
      (observation_unique tracks zones track _ Hnd Ht Hscan), Ha; done.
Qed.

(** C10. A track that holds a record with [is_active] false and is observed
    with the centre of its box in some zone gets that record back into the
    active state: [is_active] is true and [last_seen_in_zone] is the time of
    the tick, [entry_time] and [zone_id] are the ones of the record it held;
    no record is created for it. *)
Theorem departed_track_reactivated (self : AlertManager) (current_time : Q)
    (tracks : list Track.t) (zones : list polygon) (track : Track.t)
    (alert : Alert.t) (zone_id : Z) :
  unique_ids tracks →
  zones_nonempty zones →
  track ∈ tracks →
  active_alerts self !! Track.track_id track = Some alert →
  Alert.is_active alert = false →
  scan_zones (get_bbox_center (Track.bbox track)) zones 0 = Ok (true, zone_id) →
  ∃ self',
    update_alerts self current_time tracks zones
    = Ok (self', dom (active_alerts self'))
    ∧ active_alerts self' !! Track.track_id track
      = Some (Alert.Make (Alert.track_id alert) (Alert.zone_id alert)
                         (Alert.entry_time alert) current_time true)
    ∧ Track.track_id track ∈ dom (active_alerts self')
    ∧ dom (active_alerts self') ⊆
        dom (active_alerts self)
        ∪ list_to_set (map Track.track_id tracks).
Proof.
  intros Hnd Hz Ht Ha _ Hscan.
  destruct (update_alerts_spec self current_time tracks zones Hnd Hz)
    as (self' & Htick & Hlook).
  exists self'. split; [done|].
  assert (Hrec : active_alerts self' !! Track.track_id track
                 = Some (Alert.Make (Alert.track_id alert) (Alert.zone_id alert)
                                    (Alert.entry_time alert) current_time true)).
  { by rewrite Hlook, (observation_unique tracks zones track _ Hnd Ht Hscan), Ha. }
  split; [done|]. split.
  - apply elem_of_dom. by rewrite Hrec.
  - intros tid Htid. apply elem_of_dom in Htid as [a' Ha'].
    rewrite Hlook in Ha'. apply elem_of_union.
    destruct (active_alerts self !! tid) as [a|] eqn:Hold.
    + left. apply elem_of_dom. eauto.
    + right. apply observed_ids. unfold tick_alert, observation in Ha'.
      destruct (current_track_of tracks tid); [eauto|done].
Qed.

Lemma unique_ids_singleton (t : Track.t) : unique_ids [t].
Proof. apply NoDup_singleton. Qed.

Lemma zones_nonempty_square : zones_nonempty [square].
Proof. by repeat constructor. Qed.

Lemma refresh_and_departure_frame_witness :
  ∃ self2 alerts_to_remove self',
    update_alerts_sweep after_entry 1 [track7_outside] [square]
    = Ok (self2, alerts_to_remove)
    ∧ update_alerts after_entry 1 [track7_outside] [square]
      = Ok (self', dom (active_alerts self'))
    ∧ (∀ zone_id,
         scan_zones (get_bbox_center (Track.bbox track7_outside)) [square] 0
         = Ok (true, zone_id) →
         let refreshed :=
           Alert.Make (Alert.track_id alert7) (Alert.zone_id alert7)
                      (Alert.entry_time alert7) 1 true in
         active_alerts self2 !! Track.track_id track7_outside = Some refreshed
         ∧ active_alerts self' !! Track.track_id track7_outside
           = Some refreshed)
    ∧ (∀ r,
         scan_zones (get_bbox_center (Track.bbox track7_outside)) [square] 0
         = Ok (false, r) →
         let departed :=
           Alert.Make (Alert.track_id alert7) (Alert.zone_id alert7)
                      (Alert.entry_time alert7)
                      (Alert.last_seen_in_zone alert7) false in
         active_alerts self2 !! Track.track_id track7_outside = Some departed
         ∧ active_alerts self' !! Track.track_id track7_outside
           = if Py.le Config.ALARM_DURATION
                      (1 - Alert.last_seen_in_zone alert7)
             then None else Some departed).
Proof.
  apply (refresh_and_departure_frame after_entry 1 [track7_outside] [square]
           track7_outside alert7).
  - apply unique_ids_singleton.
  - apply zones_nonempty_square.
  - left.
  - reflexivity.
Defined.

Lemma departed_track_reactivated_witness :
  ∃ self',
    update_alerts after_departure 2 [track7_inside] [square]
    = Ok (self', dom (active_alerts self'))
    ∧ active_alerts self' !! 7%Z = Some (Alert.Make 7 0 0 2 true)
    ∧ 7%Z ∈ dom (active_alerts self')
    ∧ dom (active_alerts self') ⊆
        dom (active_alerts after_departure)
        ∪ list_to_set (map Track.track_id [track7_inside]).
Proof.
  apply (departed_track_reactivated after_departure 2 [track7_inside] [square]
           track7_inside (Alert.set_is_active false alert7) 0).
  - apply unique_ids_singleton.
  - apply zones_nonempty_square.
  - left.
  - reflexivity.
  - reflexivity.
  - vm_compute. reflexivity.
Defined.

(** C2. After a call of [update_alerts] at time [now], a track has a record
    if and only if the centre of its box was in some zone on this tick, or it
    had a record with [now - last_seen_in_zone < ALARM_DURATION].  A record
    is deleted exactly when the track is not in a zone on this tick and
    [now - last_seen_in_zone >= ALARM_DURATION], be the track observed
    outside every zone or missing from the observations; every record that
    stays has [now - last_seen_in_zone < ALARM_DURATION]; and the record of a
    missing track is left as it is until it is deleted by that rule. *)
Theorem record_presence (self : AlertManager) (current_time : Q)
    (tracks : list Track.t) (zones : list polygon) :
  unique_ids tracks →
  zones_nonempty zones →
  ∃ self',
    update_alerts self current_time tracks zones
    = Ok (self', dom (active_alerts self'))
    ∧ ∀ track_id,
        let inside_now :=
          ∃ t zone_id,
            t ∈ tracks ∧ Track.track_id t = track_id
            ∧ scan_zones (get_bbox_center (Track.bbox t)) zones 0
              = Ok (true, zone_id) in
        (track_id ∈ dom (active_alerts self') ↔
         inside_now
         ∨ ∃ alert, active_alerts self !! track_id = Some alert
                    ∧ current_time - Alert.last_seen_in_zone alert
                      < Config.ALARM_DURATION)
        ∧ (∀ alert,
             active_alerts self !! track_id = Some alert →
             (active_alerts self' !! track_id = None ↔
              ¬ inside_now
              ∧ Config.ALARM_DURATION
                <= current_time - Alert.last_seen_in_zone alert))
        ∧ (∀ alert',
             active_alerts self' !! track_id = Some alert' →
             current_time - Alert.last_seen_in_zone alert'
             < Config.ALARM_DURATION)
        ∧ (track_id ∉ map Track.track_id tracks →
           ∀ alert,
             active_alerts self !! track_id = Some alert →
             current_time - Alert.last_seen_in_zone alert
             < Config.ALARM_DURATION →
             active_alerts self' !! track_id = Some alert).
Proof.
  intros Hnd Hz.
  destruct (update_alerts_spec self current_time tracks zones Hnd Hz)
    as (self' & Htick & Hlook).
  exists self'. split; [done|]. intros tid inside_now.
  assert (Hin : inside_now
                ↔ ∃ z, observation tracks zones tid = Some (true, z))
    by (by apply observation_inside).
  assert (Hzero : ∀ t : Q, t - t < Config.ALARM_DURATION)
    by (intros t; unfold Config.ALARM_DURATION; lra).
  split; [split|split; [|split]].
  - intros Hdom. apply elem_of_dom in Hdom as [a' Ha'].
    rewrite Hlook in Ha'. unfold tick_alert in Ha'.
    destruct (observation tracks zones tid) as [[[|] z]|].
    + left. apply Hin. eauto.
    + right. destruct (active_alerts self !! tid) as [a|]; [|done].
      destruct (expired current_time a) eqn:He; [done|].
      exists a. split; [done|]. by apply expired_false.
    + right. destruct (active_alerts self !! tid) as [a|]; [|done].
      destruct (expired current_time a) eqn:He; [done|].
      exists a. split; [done|]. by apply expired_false.
  - intros [Hinside|(a & Ha & Hfresh)]; apply elem_of_dom; rewrite Hlook.
    + apply Hin in Hinside as [z ->]. simpl. eauto.
    + apply expired_false in Hfresh. rewrite Ha. unfold tick_alert.
      destruct (observation tracks zones tid) as [[[|] z]|];
        rewrite ?Hfresh; eauto.
  - intros a Ha. rewrite Hlook, Ha. unfold tick_alert. split.
    + intros Hnone.
      destruct (observation tracks zones tid) as [[[|] z]|] eqn:Hobs; [done|..].
      * destruct (expired current_time a) eqn:He; [|done].
        apply expired_true in He. split; [|done].
        intros Hinside. apply Hin in Hinside as [z' ?]. congruence.
      * destruct (expired current_time a) eqn:He; [|done].
        apply expired_true in He. split; [|done].
        intros Hinside. apply Hin in Hinside as [z' ?]. congruence.
    + intros [Hout Hold]. apply expired_true in Hold.
      destruct (observation tracks zones tid) as [[[|] z]|] eqn:Hobs;
        [|by rewrite Hold..].
      exfalso. apply Hout, Hin. eauto.
  - intros a' Ha'. rewrite Hlook in Ha'. unfold tick_alert in Ha'.
    destruct (observation tracks zones tid) as [[[|] z]|].
    + injection Ha' as <-.
      destruct (active_alerts self !! tid); simpl; apply Hzero.
    + destruct (active_alerts self !! tid) as [a|]; [|done].
      destruct (expired current_time a) eqn:He; [done|].
      injection Ha' as <-. by apply expired_false in He.
    + destruct (active_alerts self !! tid) as [a|]; [|done].
      destruct (expired current_time a) eqn:He; [done|].
      injection Ha' as <-. by apply expired_false in He.
  - intros Habsent a Ha Hfresh. apply expired_false in Hfresh.
    rewrite Hlook, (observation_absent tracks zones tid Habsent), Ha.
    unfold tick_alert. by rewrite Hfresh.
Qed.

Lemma record_presence_witness :
  ∃ self',
    update_alerts after_entry 1 [track7_outside] [square]
    = Ok (self', dom (active_alerts self'))
    ∧ ∀ track_id,
        let inside_now :=
          ∃ t zone_id,
            t ∈ [track7_outside] ∧ Track.track_id t = track_id
            ∧ scan_zones (get_bbox_center (Track.bbox t)) [square] 0
              = Ok (true, zone_id) in
        (track_id ∈ dom (active_alerts self') ↔
         inside_now
         ∨ ∃ alert, active_alerts after_entry !! track_id = Some alert
                    ∧ 1 - Alert.last_seen_in_zone alert
                      < Config.ALARM_DURATION)
        ∧ (∀ alert,
             active_alerts after_entry !! track_id = Some alert →
             (active_alerts self' !! track_id = None ↔
              ¬ inside_now
              ∧ Config.ALARM_DURATION <= 1 - Alert.last_seen_in_zone alert))
        ∧ (∀ alert',
             active_alerts self' !! track_id = Some alert' →
             1 - Alert.last_seen_in_zone alert' < Config.ALARM_DURATION)
        ∧ (track_id ∉ map Track.track_id [track7_outside] →
           ∀ alert,
             active_alerts after_entry !! track_id = Some alert →
             1 - Alert.last_seen_in_zone alert < Config.ALARM_DURATION →
             active_alerts self' !! track_id = Some alert).
Proof.
  apply (record_presence after_entry 1 [track7_outside] [square]).
  - apply unique_ids_singleton.
  - apply zones_nonempty_square.
Defined.

(** ** The grace period, frame after frame *)

Lemma away_observation tracks zones (tid : Z) :
  unique_ids tracks → zones_nonempty zones → away tracks zones tid →
  ((tid ∉ map Track.track_id tracks) ∧ observation tracks zones tid = None)
  ∨ (tid ∈ map Track.track_id tracks
     ∧ ∃ r, observation tracks zones tid = Some (false, r)).
Proof.
  intros Hnd Hz Haway. unfold observation.
  destruct (current_track_of tracks tid) as [t|] eqn:Ht.
  - right. apply current_track_of_Some in Ht as [Ht Hid]. split.
    + rewrite <- Hid. apply list_elem_of_fmap. by exists t.
    + destruct (Haway t Ht Hid) as [r Hr]. exists r.
      unfold penetrates. by rewrite Hr.
  - left. split; [|done]. by apply current_track_of_None.
Qed.

Section GracePeriod.

Variables (zones : list polygon) (tid : Z) (alert : Alert.t).
Hypothesis Hzones : zones_nonempty zones.
Hypothesis Hlast : Alert.last_seen_in_zone alert == 0.

Lemma expired_frozen (now : Q) (active : bool) :
  expired now (Alert.set_is_active active alert) = true ↔ (3 <= now).
Proof.
  rewrite expired_true. unfold Config.ALARM_DURATION. simpl. rewrite Hlast.
  split; intros; lra.
Qed.

Lemma monitor_away (frames : list (Q * list Track.t)) (self : AlertManager)
    (t_prev : Q) :
  StronglySorted Qle (t_prev :: map fst frames) →
  Forall (λ frame, unique_ids frame.2 ∧ away frame.2 zones tid) frames →
  (t_prev < 3
   ∧ ∃ active,
       active_alerts self !! tid = Some (Alert.set_is_active active alert))
  ∨ (3 <= t_prev ∧ active_alerts self !! tid = None) →
  ∃ out, monitor self zones frames = Ok out
         ∧ Forall2 (after_frame tid alert) frames out.
Proof.
  revert self t_prev.
  induction frames as [|[now tracks] frames IH];
    intros self t_prev Hsorted Hall Hinv.
  - exists []. split; [done|constructor].
  - apply Forall_cons in Hall as [[Hnd Haway] Hall]. simpl in Hnd, Haway.
    simpl in Hsorted. apply StronglySorted_inv in Hsorted as [Hsorted Hge].
    assert (Hnow : t_prev <= now) by (by apply Forall_cons in Hge as [? _]).
    destruct (update_alerts_spec self now tracks zones Hnd Hzones)
      as (self' & Htick & Hlook).
    specialize (Hlook tid).
    assert (Hpost : after_frame tid alert (now, tracks)
                      (now, self', dom (active_alerts self'))
                    ∧ ((now < 3
                        ∧ ∃ active, active_alerts self' !! tid
                                    = Some (Alert.set_is_active active alert))
                       ∨ (3 <= now ∧ active_alerts self' !! tid = None))).
    { unfold after_frame. simpl.
      destruct Hinv as [[Hprev [active Hold]]|[Hprev Hold]];
        rewrite Hold in Hlook; unfold tick_alert in Hlook;
        destruct (away_observation tracks zones tid Hnd Hzones Haway)
          as [[Hids Hobs]|[Hids [r Hobs]]];
        rewrite Hobs in Hlook.
      - destruct (expired now (Alert.set_is_active active alert)) eqn:He.
        + apply expired_frozen in He. split; [|by right]. split; [done|].
          split; [intros; lra|]. intros _. split; [|done].
          by apply not_elem_of_dom.
        + assert (Hlt : now < 3).
          { apply Qnot_le_lt. intros Hle.
            apply (expired_frozen now active) in Hle. congruence. }
          split; [|left; eauto]. split; [done|]. split; [|intros; lra].
          intros _. split; [apply elem_of_dom; eauto|].
          exists active. split; [done|]. done.
      - destruct (expired now (Alert.set_is_active active alert)) eqn:He.
        + apply expired_frozen in He. split; [|by right]. split; [done|].
          split; [intros; lra|]. intros _. split; [|done].
          by apply not_elem_of_dom.
        + assert (Hlt : now < 3).
          { apply Qnot_le_lt. intros Hle.
            apply (expired_frozen now active) in Hle. congruence. }
          split; [|left; split; [done|]; by exists false].
          split; [done|]. split; [|intros; lra].
          intros _. split; [apply elem_of_dom; eauto|].
          by exists false.
      - assert (3 <= now) by lra. split; [|by right]. split; [done|].
        split; [intros; lra|]. intros _. split; [|done].
        by apply not_elem_of_dom.
      - assert (3 <= now) by lra. split; [|by right]. split; [done|].
        split; [intros; lra|]. intros _. split; [|done].
        by apply not_elem_of_dom. }
    destruct Hpost as [Hpost Hinv'].
    destruct (IH self' now Hsorted Hall Hinv') as (out & Hout & Hposts).
    exists ((now, self', dom (active_alerts self')) :: out). split.
    + cbn [monitor]. rewrite Htick. cbn [mbind result_bind]. by rewrite Hout.
    + by constructor.
Qed.

(** While the track is missing from every frame, its record is untouched. *)
Lemma monitor_absent (frames : list (Q * list Track.t)) (self : AlertManager)
    (t_prev : Q) out :
  StronglySorted Qle (t_prev :: map fst frames) →
  Forall (λ frame, unique_ids frame.2
                   ∧ tid ∉ map Track.track_id frame.2) frames →
  (t_prev < 3 → active_alerts self !! tid = Some alert) →
  monitor self zones frames = Ok out →
  Forall (λ o : Q * AlertManager * gset Z,
          (o.1).1 < 3 → active_alerts (o.1).2 !! tid = Some alert) out.
Proof.
  revert self t_prev out.
  induction frames as [|[now tracks] frames IH];
    intros self t_prev out Hsorted Hall Hinv Hmon.
  - injection Hmon as <-. constructor.
  - apply Forall_cons in Hall as [[Hnd Habsent] Hall]. simpl in Hnd, Habsent.
    simpl in Hsorted. apply StronglySorted_inv in Hsorted as [Hsorted Hge].
    assert (Hnow : t_prev <= now) by (by apply Forall_cons in Hge as [? _]).
    destruct (update_alerts_spec self now tracks zones Hnd Hzones)
      as (self' & Htick & Hlook).
    cbn [monitor] in Hmon. rewrite Htick in Hmon. cbn [mbind result_bind] in Hmon.
    destruct (monitor self' zones frames) as [out'|e] eqn:Hout; [|done].
    injection Hmon as <-.
    assert (Hrec : now < 3 → active_alerts self' !! tid = Some alert).
    { intros Hlt. rewrite Hlook, (observation_absent _ _ _ Habsent), Hinv by lra.
      unfold tick_alert.
      destruct (expired now alert) eqn:He; [|done].
      apply expired_true in He. unfold Config.ALARM_DURATION in He.
      rewrite Hlast in He. lra. }
    constructor; [done|]. by apply (IH self' now).
Qed.

End GracePeriod.

(** C1, as the code has it.  With [ALARM_DURATION = 3], take a track whose
    record was last seen in a zone at time 0 and which, on every later frame,
    is missing from the observations or has the centre of its box outside
    every zone.  On every frame before time 3 the track is in the set
    [update_alerts] returns, with [last_seen_in_zone], [entry_time] and
    [zone_id] as they were; on every frame from time 3 on it is not in the
    set.  A track that left and a track that vanished are in the set on the
    same frames.  [is_active] is false on the frames that observe the track
    outside; while the track is missing from every frame, the record is not
    touched at all. *)
Theorem grace_period_expiry (zones : list polygon)
    (frames : list (Q * list Track.t)) (self : AlertManager) (track_id : Z)
    (alert : Alert.t) :
  zones_nonempty zones →
  active_alerts self !! track_id = Some alert →
  Alert.last_seen_in_zone alert == 0 →
  StronglySorted Qle (0 :: map fst frames) →
  Forall (λ frame, unique_ids frame.2 ∧ away frame.2 zones track_id) frames →
  ∃ out,
    monitor self zones frames = Ok out
    ∧ Forall2 (after_frame track_id alert) frames out
    ∧ (Forall (λ frame, track_id ∉ map Track.track_id frame.2) frames →
       Forall (λ o : Q * AlertManager * gset Z,
                 (o.1).1 < 3 → active_alerts (o.1).2 !! track_id = Some alert)
              out).
Proof.
  intros Hz Ha Hlast Hsorted Hall.
  destruct (monitor_away zones track_id alert Hz Hlast frames self 0 Hsorted Hall)
    as (out & Hout & Hposts).
  { left. split; [lra|]. exists (Alert.is_active alert). by destruct alert. }
  exists out. split; [done|]. split; [done|]. intros Habsent.
  apply (monitor_absent zones track_id alert Hz Hlast frames self 0 out Hsorted);
    [|done|done].
  rewrite Forall_forall in Hall, Habsent. apply Forall_forall.
  intros frame Hframe. split; [by apply Hall|by apply Habsent].
Qed.

Lemma track7_outside_away : away [track7_outside] [square] 7.
Proof.
  intros t Ht _. apply list_elem_of_singleton in Ht as ->.
  exists (-1)%Z. vm_compute. reflexivity.
Qed.

Lemma grace_period_expiry_witness :
  ∃ out,
    monitor after_entry [square] [(1, [track7_outside]); (2, []); (3, [])]
    = Ok out
    ∧ Forall2 (after_frame 7 alert7)
              [(1, [track7_outside]); (2, []); (3, [])] out
    ∧ (Forall (λ frame, 7%Z ∉ map Track.track_id frame.2)
              [(1, [track7_outside]); (2, []); (3, [])] →
       Forall (λ o : Q * AlertManager * gset Z,
                 (o.1).1 < 3 → active_alerts (o.1).2 !! 7%Z = Some alert7)
              out).
Proof.
  apply (grace_period_expiry [square]
           [(1, [track7_outside]); (2, []); (3, [])] after_entry 7 alert7).
  - apply zones_nonempty_square.
  - reflexivity.
  - reflexivity.
  - simpl.
    repeat first [ apply SSorted_nil | apply SSorted_cons
                 | apply Forall_nil_2 | apply Forall_cons_2 ]; lra.
  - repeat first [ apply Forall_nil_2 | apply Forall_cons_2 ]; simpl;
      (split; [apply NoDup_nil_2 || apply unique_ids_singleton|]).
    + apply track7_outside_away.
    + intros t Ht. by apply elem_of_nil in Ht.
    + intros t Ht. by apply elem_of_nil in Ht.
Defined.

(** The claim as the specification words it fails twice.  A track in the
    square at time 0 and outside it at times 1 and 3 is out of the returned
    set at time 3, before time 4; and a track in the square at time 0 and
    missing at time 1 keeps [is_active] true. *)
Lemma grace_period_counterexample :
  monitor init [square]
          [(0, [track7_inside]); (1, [track7_outside]); (3, [track7_outside])]
  = Ok [(0, after_entry, {[ 7%Z ]}); (1, after_departure, {[ 7%Z ]});
        (3, Manager ∅ ∅, ∅)]
  ∧ 3 < 4 ∧ (7%Z ∉ (∅ : gset Z))
  ∧ monitor init [square] [(0, [track7_inside]); (1, [])]
    = Ok [(0, after_entry, {[ 7%Z ]});
          (1, Manager {[ 7%Z := alert7 ]} ∅, {[ 7%Z ]})]
  ∧ Alert.is_active alert7 = true.
Proof.
  split; [vm_compute; reflexivity|]. split; [lra|].
  split; [apply not_elem_of_empty|]. split; [vm_compute; reflexivity|done].
Qed.

(** ** Registration of zones *)

Lemma load_saved_zones (zones : list polygon) :
  Config.load_zones (Config.save_zones zones) = Ok zones.
Proof.
  unfold Config.load_zones, Config.save_zones.
  by rewrite lookup_singleton_eq.
Qed.

(** C7, as the code has it.  The callback of the zone marker always returns
    normally.  A request to finish a zone with fewer than 3 points registers
    nothing: the points, the zones and the zone file stay as they were, and
    the message "Need at least 3 points to create a zone" is printed.  So
    when the zones of the marker have at least 3 vertices each, they still
    do after the callback, and so do the zones of the file when the callback
    writes it; reading that file back gives those zones. *)
Theorem marker_keeps_three_vertices (self : ZoneMarker)
    (file : Config.zones_file) (out : list message) (event : mouse_event)
    (x y : Q) :
  ∃ self' file' out',
    mark_zones_callback (self, file, out) event x y = Ok (self', file', out')
    ∧ (event = EVENT_RBUTTONDOWN →
       (length (current_zone_points self) < 3)%nat →
       self' = self ∧ file' = file
       ∧ out' = out ++ [Need_at_least_3_points])
    ∧ (Forall (λ zone, (3 ≤ length zone)%nat) (zones self) →
       Forall (λ zone, (3 ≤ length zone)%nat) (zones self')
       ∧ (file' = file
          ∨ (file' = Config.save_zones (zones self')
             ∧ Config.load_zones file' = Ok (zones self')))).
Proof.
  destruct event; simpl.
  - eexists _, _, _. split; [done|]. split; [done|]. intros Hall.
    split; [done|by left].
  - destruct (decide (3 ≤ length (current_zone_points self))%nat) as [Hge|Hlt].
    + rewrite bool_decide_eq_true_2 by done.
      eexists _, _, _. split; [done|]. split; [intros _ ?; lia|].
      intros Hall. simpl. split.
      * apply Forall_app. split; [done|]. by repeat constructor.
      * right. split; [done|]. apply load_saved_zones.
    + rewrite bool_decide_eq_false_2 by done.
      eexists _, _, _. split; [done|]. split; [done|]. intros Hall.
      split; [done|by left].
  - eexists _, _, _. split; [done|]. split; [done|]. intros Hall.
    split; [done|by left].
Qed.

Lemma marker_keeps_three_vertices_witness :
  ∃ self' file' out',
    mark_zones_callback (Marker segment [square], None, [])
                        EVENT_RBUTTONDOWN 5 5
    = Ok (self', file', out')
    ∧ (EVENT_RBUTTONDOWN = EVENT_RBUTTONDOWN →
       (length (current_zone_points (Marker segment [square])) < 3)%nat →
       self' = Marker segment [square] ∧ file' = None
       ∧ out' = [] ++ [Need_at_least_3_points])
    ∧ (Forall (λ zone, (3 ≤ length zone)%nat)
              (zones (Marker segment [square])) →
       Forall (λ zone, (3 ≤ length zone)%nat) (zones self')
       ∧ (file' = None
          ∨ (file' = Config.save_zones (zones self')
             ∧ Config.load_zones file' = Ok (zones self')))).
Proof.
  apply (marker_keeps_three_vertices (Marker segment [square])
           None [] EVENT_RBUTTONDOWN 5 5).
Defined.

(** The claim as the specification words it fails: a request to register a
    zone of 2 points in the marker returns normally, and [load_zones] hands a
    zone of 2 vertices found in the file to its caller, against which the
    containment test answers without any error. *)
Lemma registration_counterexample :
  mark_zones_callback (Marker segment [], None, [])
                      EVENT_RBUTTONDOWN 5 5
  = Ok (Marker segment [], None, [Need_at_least_3_points])
  ∧ Config.load_zones (Some {[ "zones"%string := [segment] ]})
    = Ok [segment]
  ∧ check_point_in_polygon (5, 5) segment = Ok false.
Proof.
  split; [reflexivity|]. split; [|vm_compute; reflexivity].
  unfold Config.load_zones. by rewrite lookup_singleton_eq.
Qed.

(** * Further properties *)

(** ** More on the point-in-polygon test *)

Lemma toggles_horizontal x y (a b : point) :
  a.2 == b.2 → toggles x y a b = false.
Proof.
  intros Heq. apply not_true_is_false. rewrite toggles_true.
  intros ([[? ?]|[? ?]] & _); lra.
Qed.

(** A vertical edge is counted when the point is at its height and not on
    its right. *)
Lemma toggles_vertical x y (a b : point) :
  a.1 == b.1 →
  toggles x y a b = true
  ↔ ((a.2 < y ∧ y <= b.2) ∨ (b.2 < y ∧ y <= a.2)) ∧ x <= a.1.
Proof.
  intros Heq. rewrite toggles_true. split.
  - intros (Hy & Hx & _). split; [done|]. destruct Hx; lra.
  - intros [Hy Hx]. split; [done|]. split; by left.
Qed.


Lemma between_min_max (a b v : Q) :
  Qmin a b < v ∧ v <= Qmax a b ↔ (a < v ∧ v <= b) ∨ (b < v ∧ v <= a).
Proof.
  destruct (Q.min_spec a b) as [[? ->]|[? ->]];
    destruct (Q.max_spec a b) as [[? ->]|[? ->]];
    split; intros; (lra || (intuition lra)).
Qed.

(** X1. For a rectangle with sides along the axes, given by its corners in
    either direction, the test answers true exactly for the points with
    [min x0 x1 < x <= max x0 x1] and [min y0 y1 < y <= max y0 y1]: the
    interior, with the sides of greatest abscissa and ordinate, and without
    the two others. *)
Theorem rectangle_zone_contains (x0 y0 x1 y1 x y : Q) :
  ∃ hit,
    check_point_in_polygon (x, y) (rectangle_zone x0 y0 x1 y1) = Ok hit
    ∧ (hit = true
       ↔ (Qmin x0 x1 < x ∧ x <= Qmax x0 x1)
         ∧ (Qmin y0 y1 < y ∧ y <= Qmax y0 y1)).
Proof.
  unfold rectangle_zone. rewrite check_point_in_polygon_parity.
  eexists. split; [reflexivity|].
  unfold parity. cbn [polygon_edges app edges_from odd_count fst snd].
  rewrite (toggles_horizontal x y (x0, y0) (x1, y0)) by reflexivity.
  rewrite (toggles_horizontal x y (x1, y1) (x0, y1)) by reflexivity.
  rewrite xorb_false_r. cbn [xorb].
  rewrite !between_min_max.
  pose proof (toggles_vertical x y (x1, y0) (x1, y1) (Qeq_refl _)) as Hr.
  pose proof (toggles_vertical x y (x0, y1) (x0, y0) (Qeq_refl _)) as Hl.
  simpl in Hr, Hl.
  destruct (toggles x y (x1, y0) (x1, y1)), (toggles x y (x0, y1) (x0, y0));
    simpl.
  - split; [done|]. intros [Hx Hy]. exfalso.
    destruct Hr as [Hr _], Hl as [Hl _].
    specialize (Hr eq_refl). specialize (Hl eq_refl). intuition lra.
  - split; [intros _|done].
    destruct Hr as [Hr _]. specialize (Hr eq_refl).
    assert (Hnl : ¬ (((y1 < y ∧ y <= y0) ∨ (y0 < y ∧ y <= y1)) ∧ x <= x0))
      by (intros H; by apply Hl in H).
    split; [|tauto].
    destruct (Qlt_le_dec x0 x); [left; lra|exfalso; apply Hnl; split; [tauto|lra]].
  - split; [intros _|done].
    destruct Hl as [Hl _]. specialize (Hl eq_refl).
    assert (Hnr : ¬ (((y0 < y ∧ y <= y1) ∨ (y1 < y ∧ y <= y0)) ∧ x <= x1))
      by (intros H; by apply Hr in H).
    split; [|tauto].
    destruct (Qlt_le_dec x1 x); [right; lra|exfalso; apply Hnr; split; [tauto|lra]].
  - split; [done|]. intros [Hx Hy].
    assert (Hnl : ¬ (((y1 < y ∧ y <= y0) ∨ (y0 < y ∧ y <= y1)) ∧ x <= x0))
      by (intros H; by apply Hl in H).
    assert (Hnr : ¬ (((y0 < y ∧ y <= y1) ∨ (y1 < y ∧ y <= y0)) ∧ x <= x1))
      by (intros H; by apply Hr in H).
    exfalso. destruct Hx as [[? ?]|[? ?]].
    + apply Hnr. split; [tauto|lra].
    + apply Hnl. split; [tauto|lra].
Qed.

(** X2. In double precision, as in exact arithmetic, the test raises
    [IndexError] on a zone without vertices, and on a zone of a single
    vertex it answers false for every point, whatever the numbers (infinite
    or NaN as well).  A zone of two vertices is not empty in that sense: the
    crossing of the segment is computed once from each end, the two results
    can differ by a rounding, and the point (0.33333333333333337, 1.0) tests
    true against the zone (0, 0), (1, 3). *)
Theorem degenerate_zone_contains_nothing (pt : Double.point)
    (poly : Double.polygon) (qpt : point) (qpoly : polygon) :
  ((length poly ≤ 1)%nat →
   Double.check_point_in_polygon pt poly
   = match poly with [] => Raise IndexError | _ :: _ => Ok false end)
  ∧ ((length qpoly ≤ 1)%nat →
     check_point_in_polygon qpt qpoly
     = match qpoly with [] => Raise IndexError | _ :: _ => Ok false end)
  ∧ Double.check_point_in_polygon (third_up, Double.of_Z 1) double_segment
    = Ok true.
Proof.
  split; [|split; [|vm_compute; reflexivity]].
  - intros Hlen. destruct pt as [x y].
    destruct poly as [|v [|w poly]]; [done| |simpl in Hlen; lia].
    rewrite DoubleFacts.check_point_in_polygon_unrolled.
    cbn [app for_each].
    pose proof (DoubleFacts.polygon_edge_loop x y
                  (Double.RayState false None v)) as Hloop.
    cbn [Double.p1 Double.inside Double.xinters] in Hloop.
    by rewrite Hloop.
  - intros Hlen. destruct qpt as [x y].
    destruct qpoly as [|a [|b qpoly]]; [done| |simpl in Hlen; lia].
    rewrite check_point_in_polygon_parity. f_equal.
    unfold parity. simpl. rewrite xorb_false_r.
    by apply toggles_horizontal.
Qed.

Lemma degenerate_zone_contains_nothing_witness :
  Double.check_point_in_polygon (third_up, Double.of_Z 1)
                                [(Double.of_Z 0, Double.of_Z 0)]
  = Ok false
  ∧ check_point_in_polygon (5, 5) [(0, 0)] = Ok false.
Proof.
  split.
  - apply (proj1 (degenerate_zone_contains_nothing
                    (third_up, Double.of_Z 1) [(Double.of_Z 0, Double.of_Z 0)]
                    (5, 5) [(0, 0)])).
    simpl. lia.
  - apply (proj1 (proj2 (degenerate_zone_contains_nothing
                           (third_up, Double.of_Z 1)
                           [(Double.of_Z 0, Double.of_Z 0)]
                           (5, 5) [(0, 0)]))).
    simpl. lia.
Defined.

Lemma edges_from_snoc (a b : point) (l : list point) :
  edges_from a (l ++ [b]) = edges_from a l ++ [(List.last l a, b)].
Proof.
  revert a. induction l as [|c l IH]; intros a; [done|].
  cbn [app edges_from]. rewrite IH, last_cons_point. done.
Qed.



Lemma parity_rotate x y (v0 : point) (rest : list point) :
  parity x y (polygon_edges (rest ++ [v0]))
  = parity x y (polygon_edges (v0 :: rest)).
Proof.
  destruct rest as [|r1 rs]; [done|]. unfold parity.
  cbn [app polygon_edges edges_from].
  rewrite edges_from_snoc, last_snoc_point, odd_count_app.
  cbn [odd_count]. rewrite xorb_false_r. apply xorb_comm.
Qed.

(** X3. The answer of the test does not depend on the vertex the polygon is
    listed from: moving the first vertex to the end gives the same result. *)
Theorem contains_rotate (pt : point) (v0 : point) (rest : list point) :
  check_point_in_polygon pt (rest ++ [v0])
  = check_point_in_polygon pt (v0 :: rest).
Proof.
  destruct pt as [x y]. rewrite check_point_in_polygon_parity.
  destruct (rest ++ [v0]) as [|w0 rest'] eqn:Hrot; [by destruct rest|].
  rewrite check_point_in_polygon_parity, <- Hrot. f_equal.
  apply parity_rotate.
Qed.






(** ** When a tick fails *)

Lemma check_point_in_polygon_raises (pt : point) (poly : polygon) e :
  check_point_in_polygon pt poly = Raise e ↔ e = IndexError ∧ poly = [].
Proof.
  destruct pt as [x y]. destruct poly as [|v0 rest].
  - rewrite check_point_in_polygon_empty. split; [by intros [= <-]|].
    by intros [-> _].
  - rewrite check_point_in_polygon_parity. split; [done|]. by intros [_ ?].
Qed.

Lemma check_point_in_polygon_raises' (pt : point) hit :
  check_point_in_polygon pt [] = Ok hit ↔ False.
Proof. destruct pt. by rewrite check_point_in_polygon_empty. Qed.

(** The scan fails on the first zone without vertices, when no zone before
    it contains the point. *)
Lemma scan_zones_raises (center : point) (zones : list polygon) (i0 : Z) e :
  scan_zones center zones i0 = Raise e ↔
  e = IndexError
  ∧ ∃ k, zones !! k = Some []
         ∧ ∀ j zone', (j < k)%nat → zones !! j = Some zone' →
                      check_point_in_polygon center zone' = Ok false.
Proof.
  revert i0. induction zones as [|z zones IH]; intros i0; simpl.
  - split; [done|]. by intros (_ & k & ? & _).
  - destruct (check_point_in_polygon center z) as [[|]|e'] eqn:Hz; simpl.
    + split; [done|]. intros (_ & k & Hk & Hbefore).
      destruct k as [|k].
      * simpl in Hk. injection Hk as ->.
        by rewrite check_point_in_polygon_raises' in Hz.
      * specialize (Hbefore 0%nat z). simpl in Hbefore.
        rewrite Hz in Hbefore. discriminate Hbefore; [lia|done].
    + rewrite IH. split.
      * intros (-> & k & Hk & Hbefore). split; [done|]. exists (S k).
        split; [done|]. intros [|j] zone' Hj Hzone'; simpl in Hzone'.
        -- by simplify_eq.
        -- apply (Hbefore j); [lia|done].
      * intros (-> & k & Hk & Hbefore). split; [done|].
        destruct k as [|k].
        -- simpl in Hk. injection Hk as ->.
           by rewrite check_point_in_polygon_raises' in Hz.
        -- exists k. split; [done|]. intros j zone' Hj Hzone'.
           apply (Hbefore (S j)); [lia|done].
    + apply check_point_in_polygon_raises in Hz as [-> ->]. split.
      * intros [= <-]. split; [done|]. exists 0%nat. split; [done|].
        intros; lia.
      * by intros [-> _].
Qed.

(** A loop that fails fails in its body. *)
Lemma for_each_raises {S A} (body : S → A → result S) s (l : list A) e :
  for_each body s l = Raise e → ∃ s1 a, a ∈ l ∧ body s1 a = Raise e.
Proof.
  revert s. induction l as [|a l IH]; intros s; simpl; [done|].
  destruct (body s a) as [s1|e1] eqn:Hbody; simpl.
  - intros Hloop. destruct (IH s1 Hloop) as (s2 & a' & Ha' & Hr).
    exists s2, a'. split; [by right|done].
  - intros [= ->]. exists s, a. split; [left|done].
Qed.

(** A loop whose body fails on some element, whatever the state, fails. *)
Lemma for_each_must_raise {S A} (body : S → A → result S) s (l : list A) a :
  a ∈ l → (∀ s1, ∃ e, body s1 a = Raise e) → ∃ e, for_each body s l = Raise e.
Proof.
  intros Ha Hbody. revert s. induction l as [|a' l IH]; intros s.
  - by apply elem_of_nil in Ha.
  - simpl. destruct (body s a') as [s1|e1] eqn:Hstep; simpl; [|eauto].
    apply elem_of_cons in Ha as [->|Ha].
    + destruct (Hbody s) as [e He]. congruence.
    + by apply IH.
Qed.

Lemma enter_zone_raises current_time zones self (t : Track.t) e :
  enter_zone current_time zones self t = Raise e
  ↔ penetrates (Track.bbox t) zones = Raise e.
Proof.
  unfold enter_zone. rewrite check_zone_penetration_penetrates.
  destruct (penetrates (Track.bbox t) zones) as [[pen z]|e']; simpl;
    [|split; by intros [= ->]].
  destruct pen; [|by split].
  by destruct (active_alerts self !! Track.track_id t); split.
Qed.

Lemma leave_zone_raises current_time tracks zones ids st item e :
  leave_zone current_time tracks zones ids st item = Raise e →
  ∃ t, t ∈ tracks ∧ penetrates (Track.bbox t) zones = Raise e.
Proof.
  destruct st as [self rem], item as [tid alert]. unfold leave_zone.
  destruct (bool_decide (tid ∉ ids)); [by destruct (Py.le _ _)|].
  destruct (current_track_of tracks tid) as [t|] eqn:Ht; [|done].
  apply current_track_of_Some in Ht as [Ht _].
  rewrite check_zone_penetration_penetrates.
  destruct (penetrates (Track.bbox t) zones) as [[pen z]|e'] eqn:Hpen; simpl.
  - destruct pen; simpl; [done|].
    destruct (bool_decide _); [destruct (Py.le _ _)|]; done.
  - intros [= ->]. eauto.
Qed.

(** X5. For observations that each carry a track identifier and a box,
    and zones whose vertices are pairs of numbers, [update_alerts] raises
    [IndexError] (from [polygon[0]]) exactly when some observed track has
    the centre of its box tested false against every zone that comes before
    a zone without vertices. *)
Theorem update_alerts_failure (self : AlertManager) (current_time : Q)
    (tracks : list Track.t) (zones : list polygon) :
  update_alerts self current_time tracks zones = Raise IndexError ↔
  ∃ t k,
    t ∈ tracks ∧ zones !! k = Some []
    ∧ ∀ j zone', (j < k)%nat → zones !! j = Some zone' →
                 check_point_in_polygon (get_bbox_center (Track.bbox t)) zone'
                 = Ok false.
Proof.
  split.
  - intros Hraise.
    assert (Hscan : ∃ t, t ∈ tracks
                         ∧ penetrates (Track.bbox t) zones = Raise IndexError).
    { unfold update_alerts, update_alerts_sweep in Hraise.
      destruct (for_each (enter_zone current_time zones) self tracks)
        as [self1|e1] eqn:Hloop1.
      - cbn [mbind result_bind] in Hraise.
        destruct (for_each _ (self1, []) _) as [[self2 rem]|e2] eqn:Hloop2;
          [done|].
        injection Hraise as ->.
        apply for_each_raises in Hloop2 as (st & item & _ & Hbody).
        by apply leave_zone_raises in Hbody.
      - injection Hraise as ->.
        apply for_each_raises in Hloop1 as (s1 & t & Ht & Hbody).
        apply enter_zone_raises in Hbody. eauto. }
    destruct Hscan as (t & Ht & Hscan).
    apply scan_zones_raises in Hscan as (_ & k & Hk & Hbefore).
    by exists t, k.
  - intros (t & k & Ht & Hk & Hbefore).
    assert (Hscan : penetrates (Track.bbox t) zones = Raise IndexError).
    { apply scan_zones_raises. split; [done|]. by exists k. }
    destruct (for_each_must_raise (enter_zone current_time zones) self tracks t Ht)
      as [e He].
    { intros s1. exists IndexError. by apply enter_zone_raises. }
    unfold update_alerts, update_alerts_sweep. rewrite He.
    cbn [mbind result_bind]. f_equal.
    apply for_each_raises in He as (s1 & t' & _ & Hbody).
    apply enter_zone_raises, scan_zones_raises in Hbody as [-> _]. done.
Qed.

Lemma update_alerts_failure_witness :
  update_alerts init 0 [track7_outside] [square; []] = Raise IndexError.
Proof.
  apply (update_alerts_failure init 0 [track7_outside] [square; []]).
  exists track7_outside, 1%nat.
  split; [left|]. split; [done|].
  intros [|j] zone' Hj Hzone'; [|lia].
  injection Hzone' as <-. vm_compute. reflexivity.
Defined.

(** ** The cache of positions *)

Lemma foldl_delete_lookup (positions : gmap Z point) (l : list Z) (k : Z) :
  foldl (λ m j, delete j m) positions l !! k
  = if decide (k ∈ l) then None else positions !! k.
Proof.
  revert positions. induction l as [|j l IH]; intros positions; cbn [foldl].
  - rewrite decide_False; [done|apply not_elem_of_nil].
  - rewrite IH. destruct (decide (k ∈ l)) as [Hin|Hnin].
    + rewrite decide_True; [done|by right].
    + destruct (decide (j = k)) as [->|Hne].
      * rewrite decide_True by left. apply lookup_delete_eq.
      * rewrite decide_False.
        -- by apply lookup_delete_ne.
        -- rewrite not_elem_of_cons. split; congruence.
Qed.

Lemma clean_positions_lookup self (ids : gset Z) (k : Z) :
  track_positions (clean_positions self ids) !! k
  = if decide (k ∈ ids) then track_positions self !! k else None.
Proof.
  unfold clean_positions. cbn [track_positions].
  rewrite foldl_delete_lookup.
  destruct (decide (k ∈ ids)) as [Hin|Hnin].
  - rewrite decide_False; [done|].
    rewrite elem_of_elements, elem_of_difference. tauto.
  - destruct (track_positions self !! k) as [c|] eqn:Hk.
    + rewrite decide_True; [done|].
      rewrite elem_of_elements, elem_of_difference. split; [|done].
      apply elem_of_dom. eauto.
    + by destruct (decide _).
Qed.

Lemma remove_expired_positions self (alerts_to_remove : list Z) (k : Z) :
  track_positions (remove_expired self alerts_to_remove) !! k
  = if decide (k ∈ alerts_to_remove) then None
    else track_positions self !! k.
Proof.
  unfold remove_expired. revert self.
  induction alerts_to_remove as [|j rem IH]; intros self; cbn [foldl].
  - rewrite decide_False; [done|apply not_elem_of_nil].
  - rewrite IH. cbn [track_positions].
    destruct (decide (k ∈ rem)) as [Hin|Hnin].
    + rewrite decide_True; [done|by right].
    + destruct (decide (j = k)) as [->|Hne].
      * rewrite decide_True by left. apply lookup_delete_eq.
      * rewrite decide_False.
        -- by apply lookup_delete_ne.
        -- rewrite not_elem_of_cons. split; congruence.
Qed.

Lemma positions_of_observed_only_aux self current_time tracks zones self'
    (alerted : gset Z) :
  update_alerts self current_time tracks zones = Ok (self', alerted) →
  dom (track_positions self') ⊆ list_to_set (map Track.track_id tracks).
Proof.
  unfold update_alerts.
  destruct (update_alerts_sweep self current_time tracks zones)
    as [[self2 rem]|e]; [|done].
  cbn [mbind result_bind]. intros [= <- _] k Hk.
  apply elem_of_dom in Hk as [c Hc]. rewrite clean_positions_lookup in Hc.
  by destruct (decide _).
Qed.

Lemma enter_zone_positions current_time zones self (t : Track.t) self' :
  enter_zone current_time zones self t = Ok self' →
  track_positions self'
  = <[Track.track_id t := get_bbox_center (Track.bbox t)]>
      (track_positions self).
Proof.
  unfold enter_zone. rewrite check_zone_penetration_penetrates.
  destruct (penetrates (Track.bbox t) zones) as [[pen z]|e]; [|done]. simpl.
  destruct pen; [|by intros [= <-]].
  by destruct (active_alerts self !! Track.track_id t); intros [= <-].
Qed.

Lemma enter_loop_positions current_time zones tracks self self1 (k : Z) :
  unique_ids tracks →
  for_each (enter_zone current_time zones) self tracks = Ok self1 →
  track_positions self1 !! k
  = match current_track_of tracks k with
    | Some t => Some (get_bbox_center (Track.bbox t))
    | None => track_positions self !! k
    end.
Proof.
  intros Hnd. revert self.
  induction tracks as [|t tracks IH]; intros self Hloop.
  - by injection Hloop as <-.
  - unfold unique_ids in Hnd. simpl in Hnd.
    apply NoDup_cons in Hnd as [Hnotin Hnd].
    simpl in Hloop.
    destruct (enter_zone current_time zones self t) as [s_t|e] eqn:Hstep;
      [|done].
    simpl in Hloop. rewrite (IH Hnd s_t Hloop).
    rewrite (enter_zone_positions _ _ _ _ _ Hstep), current_track_of_cons.
    destruct (decide (Track.track_id t = k)) as [<-|Hne].
    + apply current_track_of_None in Hnotin.
      by rewrite Hnotin, lookup_insert_eq.
    + destruct (current_track_of tracks k); [done|].
      by rewrite lookup_insert_ne.
Qed.

Lemma leave_zone_positions current_time tracks zones ids st (tid : Z)
    (alert : Alert.t) st' :
  leave_zone current_time tracks zones ids st (tid, alert) = Ok st' →
  track_positions st'.1 = track_positions st.1
  ∨ ∃ t, current_track_of tracks tid = Some t
         ∧ track_positions st'.1
           = <[tid := get_bbox_center (Track.bbox t)]> (track_positions st.1).
Proof.
  destruct st as [self rem]. unfold leave_zone.
  destruct (bool_decide (tid ∉ ids)).
  { destruct (Py.le _ _); intros [= <-]; by left. }
  destruct (current_track_of tracks tid) as [t|]; [|intros [= <-]; by left].
  rewrite check_zone_penetration_penetrates.
  destruct (penetrates (Track.bbox t) zones) as [[pen z]|e]; [|done]. simpl.
  destruct pen; simpl.
  - intros [= <-]. right. by exists t.
  - destruct (bool_decide _); [destruct (Py.le _ _)|]; intros [= <-];
      right; by exists t.
Qed.

Lemma update_alerts_sweep_positions self current_time tracks zones self2 rem
    (k : Z) :
  unique_ids tracks →
  update_alerts_sweep self current_time tracks zones = Ok (self2, rem) →
  track_positions self2 !! k
  = match current_track_of tracks k with
    | Some t => Some (get_bbox_center (Track.bbox t))
    | None => track_positions self !! k
    end.
Proof.
  intros Hnd. unfold update_alerts_sweep.
  destruct (for_each (enter_zone current_time zones) self tracks)
    as [self1|e] eqn:Hloop1; [|done].
  cbn [mbind result_bind]. intros Hloop2.
  rewrite <- (enter_loop_positions _ _ _ _ _ k Hnd Hloop1).
  change self2 with (self2, rem).1.
  refine (for_each_invariant
            (λ st, track_positions st.1 !! k = track_positions self1 !! k)
            _ _ (self1, []) (self2, rem) _ eq_refl Hloop2).
  intros st [tid a] st' _ Hst Hstep.
  apply leave_zone_positions in Hstep as [->|(t & Ht & ->)]; [done|].
  destruct (decide (tid = k)) as [->|Hne].
  - rewrite lookup_insert_eq.
    by rewrite (enter_loop_positions _ _ _ _ _ k Hnd Hloop1), Ht.
  - by rewrite lookup_insert_ne.
Qed.

(** X6. After a tick, the cache of positions holds the centre of the box of
    every observed track, but for the tracks whose record the tick has
    deleted, which have no entry; and it holds nothing for the tracks that
    are missing from the observations. *)
Theorem positions_after_tick (self : AlertManager) (current_time : Q)
    (tracks : list Track.t) (zones : list polygon) :
  unique_ids tracks →
  zones_nonempty zones →
  ∃ self' alerted,
    update_alerts self current_time tracks zones = Ok (self', alerted)
    ∧ (∀ track_id,
         track_id ∉ map Track.track_id tracks →
         track_positions self' !! track_id = None)
    ∧ (∀ t,
         t ∈ tracks →
         track_positions self' !! Track.track_id t
         = if decide (Track.track_id t ∈ dom (active_alerts self)
                      ∧ Track.track_id t ∉ alerted)
           then None
           else Some (get_bbox_center (Track.bbox t))).
Proof.
  intros Hnd Hz.
  destruct (update_alerts_sweep_spec self current_time tracks zones Hnd Hz)
    as (self2 & rem & Hsweep & Hlook2 & Hrem).
  destruct (update_alerts_spec self current_time tracks zones Hnd Hz)
    as (self' & Htick & Hlook).
  exists self', (dom (active_alerts self')). split; [done|].
  assert (Hpos : ∀ k, track_positions self' !! k
                      = if decide (k ∈ (list_to_set (map Track.track_id tracks)
                                         : gset Z))
                        then if decide (k ∈ rem) then None
                             else track_positions self2 !! k
                        else None).
  { intros k. unfold update_alerts in Htick. rewrite Hsweep in Htick.
    cbn [mbind result_bind] in Htick. injection Htick as <-.
    by rewrite clean_positions_lookup, remove_expired_positions. }
  split.
  - intros tid Hnotin. rewrite Hpos, decide_False; [done|].
    by rewrite elem_of_list_to_set.
  - intros t Ht. rewrite Hpos, decide_True.
    2: { rewrite elem_of_list_to_set. apply list_elem_of_fmap. by exists t. }
    rewrite (update_alerts_sweep_positions _ _ _ _ _ _ _ Hnd Hsweep),
      (current_track_of_unique tracks t Hnd Ht).
    destruct (penetrates_total (Track.bbox t) zones Hz) as [[pen z] Hpen].
    pose proof (observation_unique tracks zones t _ Hnd Ht Hpen) as Hobs.
    specialize (Hlook (Track.track_id t)). rewrite Hobs in Hlook.
    specialize (Hrem (Track.track_id t)). rewrite Hobs in Hrem.
    destruct (decide (Track.track_id t ∈ rem)) as [Hin|Hnin].
    + apply Hrem in Hin as (a & Ha & Hl). rewrite decide_True; [done|].
      split; [apply elem_of_dom; eauto|]. apply not_elem_of_dom.
      rewrite Hlook, Ha. unfold tick_alert, leaves in *.
      destruct pen; [done|]. by rewrite Hl.
    + rewrite decide_False; [done|]. intros [Hold Hnew].
      apply elem_of_dom in Hold as [a Ha]. apply not_elem_of_dom in Hnew.
      rewrite Hlook, Ha in Hnew. unfold tick_alert in Hnew.
      destruct pen; [done|].
      destruct (expired current_time a) eqn:He; [|done].
      apply Hnin, Hrem. exists a. by split.
Qed.

Lemma positions_after_tick_witness :
  ∃ self' alerted,
    update_alerts after_entry 3 [track7_outside] [square] = Ok (self', alerted)
    ∧ (∀ track_id,
         track_id ∉ map Track.track_id [track7_outside] →
         track_positions self' !! track_id = None)
    ∧ (∀ t,
         t ∈ [track7_outside] →
         track_positions self' !! Track.track_id t
         = if decide (Track.track_id t ∈ dom (active_alerts after_entry)
                      ∧ Track.track_id t ∉ alerted)
           then None
           else Some (get_bbox_center (Track.bbox t))).
Proof.
  apply (positions_after_tick after_entry 3 [track7_outside] [square]).
  - apply unique_ids_singleton.
  - apply zones_nonempty_square.
Defined.

(** ** A tick without observations *)

Lemma update_alerts_no_tracks self current_time (zones : list polygon) :
  update_alerts self current_time [] zones
  = update_alerts self current_time [] [].
Proof.
  unfold update_alerts, update_alerts_sweep. cbn [for_each mbind result_bind].
  rewrite (for_each_ext
             (leave_zone current_time [] zones (list_to_set (map Track.track_id [])))
             (leave_zone current_time [] [] (list_to_set (map Track.track_id []))));
    [done|].
  intros [s rem] [tid a] _. unfold leave_zone.
  by destruct (bool_decide _).
Qed.

(** X7. A tick without any observation never fails, whatever the zones,
    even a list with empty zones.  It deletes the records whose grace period
    is over, leaves every other record as it is, and empties the cache of
    positions. *)
Theorem tick_without_observations (self : AlertManager) (current_time : Q)
    (zones : list polygon) :
  ∃ self',
    update_alerts self current_time [] zones
    = Ok (self', dom (active_alerts self'))
    ∧ (∀ track_id,
         active_alerts self' !! track_id
         = match active_alerts self !! track_id with
           | Some alert =>
               if Py.le Config.ALARM_DURATION
                        (current_time - Alert.last_seen_in_zone alert)
               then None else Some alert
           | None => None
           end)
    ∧ track_positions self' = ∅.
Proof.
  rewrite update_alerts_no_tracks.
  destruct (update_alerts_spec self current_time [] [])
    as (self' & Htick & Hlook).
  { apply NoDup_nil_2. }
  { apply Forall_nil_2. }
  exists self'. split; [done|]. split; [intros tid; apply Hlook|].
  apply map_empty. intros k. apply not_elem_of_dom. intros Hk.
  apply (positions_of_observed_only_aux _ _ _ _ _ _ Htick) in Hk.
  by apply elem_of_empty in Hk.
Qed.

(** ** Records and their keys *)

Lemma penetrates_zone_id bbox zones zone_id :
  penetrates bbox zones = Ok (true, zone_id) →
  (0 ≤ zone_id < Z.of_nat (length zones))%Z.
Proof.
  intros Hpen. apply scan_zones_hit in Hpen as (k & zone & -> & Hk & _).
  apply lookup_lt_Some in Hk. lia.
Qed.

Lemma enter_zone_consistent current_time zones self (t : Track.t) self' :
  records_consistent zones (active_alerts self) →
  enter_zone current_time zones self t = Ok self' →
  records_consistent zones (active_alerts self').
Proof.
  intros Hok. unfold enter_zone.
  rewrite check_zone_penetration_penetrates.
  destruct (penetrates (Track.bbox t) zones) as [[pen z]|e] eqn:Hpen; [|done].
  simpl. destruct pen; [|by intros [= <-]].
  destruct (active_alerts self !! Track.track_id t) as [a|] eqn:Ha;
    intros [= <-]; simpl; apply map_Forall_insert_2; try done; simpl.
  - apply (Hok _ _ Ha).
  - split; [done|]. by apply (penetrates_zone_id (Track.bbox t)).
Qed.

Lemma leave_zone_consistent current_time tracks zones ids st (tid : Z)
    (alert : Alert.t) st' :
  Alert.track_id alert = tid →
  (0 ≤ Alert.zone_id alert < Z.of_nat (length zones))%Z →
  records_consistent zones (active_alerts st.1) →
  leave_zone current_time tracks zones ids st (tid, alert) = Ok st' →
  records_consistent zones (active_alerts st'.1).
Proof.
  intros Hid Hzone Hok. destruct st as [self rem]. unfold leave_zone.
  destruct (bool_decide (tid ∉ ids)).
  { destruct (Py.le _ _); by intros [= <-]. }
  destruct (current_track_of tracks tid) as [t|]; [|by intros [= <-]].
  rewrite check_zone_penetration_penetrates.
  destruct (penetrates (Track.bbox t) zones) as [[pen z]|e]; [|done]. simpl.
  destruct pen; simpl; [by intros [= <-]|].
  assert (Hins : records_consistent zones
                   (<[tid := Alert.set_is_active false alert]>
                      (active_alerts self))).
  { by apply map_Forall_insert_2. }
  destruct (bool_decide _); [destruct (Py.le _ _)|]; by intros [= <-].
Qed.

Lemma update_alerts_consistent self current_time tracks zones self' alerted :
  records_consistent zones (active_alerts self) →
  update_alerts self current_time tracks zones = Ok (self', alerted) →
  records_consistent zones (active_alerts self').
Proof.
  intros Hok. unfold update_alerts, update_alerts_sweep.
  destruct (for_each (enter_zone current_time zones) self tracks)
    as [self1|e] eqn:Hloop1; [|done].
  cbn [mbind result_bind].
  assert (Hok1 : records_consistent zones (active_alerts self1)).
  { apply (for_each_invariant
             (λ s, records_consistent zones (active_alerts s)) _ _ _ _
             (λ s a s' _, enter_zone_consistent current_time zones s a s')
             Hok Hloop1). }
  destruct (for_each _ (self1, []) _) as [[self2 rem]|e] eqn:Hloop2; [|done].
  cbn [mbind result_bind]. intros [= <- _].
  rewrite clean_positions_alerts.
  assert (Hok2 : records_consistent zones (active_alerts (self2, rem).1)).
  { refine (for_each_invariant
              (λ st, records_consistent zones (active_alerts st.1))
              _ _ (self1, []) (self2, rem) _ Hok1 Hloop2).
    intros st [tid a] st' Hitem Hst Hstep.
    apply elem_of_map_to_list in Hitem.
    destruct (Hok1 tid a Hitem) as [? ?].
    by eapply leave_zone_consistent. }
  intros tid a. rewrite remove_expired_lookup.
  destruct (decide _); [done|]. apply Hok2.
Qed.

(** X8. Along a run of the monitoring loop on a fixed list of zones, from a
    fresh manager, every record is filed under the identifier it carries, and
    its [zone_id] is an index of the list of zones, whatever the
    observations. *)
Theorem records_stay_consistent (zones : list polygon)
    (frames : list (Q * list Track.t))
    (out : list (Q * AlertManager * gset Z)) :
  monitor init zones frames = Ok out →
  Forall (λ o : Q * AlertManager * gset Z,
            ∀ track_id alert,
              active_alerts (o.1).2 !! track_id = Some alert →
              Alert.track_id alert = track_id
              ∧ (0 ≤ Alert.zone_id alert < Z.of_nat (length zones))%Z)
         out.
Proof.
  assert (Hgen : ∀ self,
             records_consistent zones (active_alerts self) →
             monitor self zones frames = Ok out →
             Forall (λ o : Q * AlertManager * gset Z,
                       records_consistent zones (active_alerts (o.1).2)) out).
  { revert out. induction frames as [|[now tracks] frames IH];
      intros out self Hok Hmon.
    - injection Hmon as <-. constructor.
    - cbn [monitor] in Hmon.
      destruct (update_alerts self now tracks zones) as [[self' s]|e] eqn:Htick;
        [|done].
      cbn [mbind result_bind] in Hmon.
      destruct (monitor self' zones frames) as [out'|e] eqn:Hout; [|done].
      injection Hmon as <-.
      pose proof (update_alerts_consistent _ _ _ _ _ _ Hok Htick) as Hok'.
      constructor; [done|]. by apply (IH out' self'). }
  intros Hmon. apply (Hgen init); [apply map_Forall_empty|done].
Qed.

Lemma records_stay_consistent_witness :
  Forall (λ o : Q * AlertManager * gset Z,
            ∀ track_id alert,
              active_alerts (o.1).2 !! track_id = Some alert →
              Alert.track_id alert = track_id
              ∧ (0 ≤ Alert.zone_id alert < Z.of_nat (length [square]))%Z)
         [(0, after_entry, {[ 7%Z ]}); (1, after_departure, {[ 7%Z ]})].
Proof.
  apply (records_stay_consistent [square]
           [(0, [track7_inside]); (1, [track7_outside])]).
  vm_compute. reflexivity.
Defined.

(** ** A track that stays in a zone *)

Lemma in_zone_observation tracks zones (tid : Z) :
  unique_ids tracks → in_zone tracks zones tid →
  ∃ zone_id, observation tracks zones tid = Some (true, zone_id).
Proof. intros Hnd Hin. by apply observation_inside. Qed.

Lemma monitor_inside (zones : list polygon) (tid : Z) (prev : Alert.t)
    (frames : list (Q * list Track.t)) (self : AlertManager) :
  zones_nonempty zones →
  active_alerts self !! tid = Some prev →
  Forall (λ frame, unique_ids frame.2 ∧ in_zone frame.2 zones tid) frames →
  ∃ out,
    monitor self zones frames = Ok out
    ∧ Forall2 (λ (frame : Q * list Track.t) (o : Q * AlertManager * gset Z),
                 (o.1).1 = frame.1 ∧ tid ∈ o.2
                 ∧ active_alerts (o.1).2 !! tid
                   = Some (Alert.Make (Alert.track_id prev) (Alert.zone_id prev)
                                      (Alert.entry_time prev) frame.1 true))
              frames out.
Proof.
  intros Hz. revert self prev.
  induction frames as [|[now tracks] frames IH]; intros self prev Hprev Hall.
  - exists []. split; [done|constructor].
  - apply Forall_cons in Hall as [[Hnd Hin] Hall]. simpl in Hnd, Hin.
    destruct (update_alerts_spec self now tracks zones Hnd Hz)
      as (self' & Htick & Hlook).
    destruct (in_zone_observation tracks zones tid Hnd Hin) as [z Hobs].
    specialize (Hlook tid). rewrite Hobs, Hprev in Hlook. simpl in Hlook.
    destruct (IH self' _ Hlook Hall) as (out & Hout & Hposts).
    exists ((now, self', dom (active_alerts self')) :: out). split.
    + cbn [monitor]. rewrite Htick. cbn [mbind result_bind]. by rewrite Hout.
    + constructor; [|done]. simpl. split; [done|]. split; [|done].
      apply elem_of_dom. eauto.
Qed.

(** X9. A track without record that is found in a zone, and is found in a
    zone again on every later frame, is in the set returned on every one of
    these frames, however far apart they are in time.  Its record keeps the
    zone and the entry time of the first frame; [last_seen_in_zone] is the
    time of the frame and [is_active] is true. *)
Theorem alert_lasts_while_inside (zones : list polygon) (self : AlertManager)
    (t0 : Q) (tracks0 : list Track.t) (frames : list (Q * list Track.t))
    (t : Track.t) (zone_id : Z) :
  zones_nonempty zones →
  active_alerts self !! Track.track_id t = None →
  unique_ids tracks0 →
  t ∈ tracks0 →
  scan_zones (get_bbox_center (Track.bbox t)) zones 0 = Ok (true, zone_id) →
  Forall (λ frame, unique_ids frame.2
                   ∧ in_zone frame.2 zones (Track.track_id t)) frames →
  ∃ out,
    monitor self zones ((t0, tracks0) :: frames) = Ok out
    ∧ Forall2 (λ (frame : Q * list Track.t) (o : Q * AlertManager * gset Z),
                 (o.1).1 = frame.1 ∧ Track.track_id t ∈ o.2
                 ∧ active_alerts (o.1).2 !! Track.track_id t
                   = Some (Alert.Make (Track.track_id t) zone_id t0
                                      frame.1 true))
              ((t0, tracks0) :: frames) out.
Proof.
  intros Hz Hnone Hnd Ht Hscan Hall.
  destruct (update_alerts_spec self t0 tracks0 zones Hnd Hz)
    as (self' & Htick & Hlook).
  specialize (Hlook (Track.track_id t)).
  rewrite (observation_unique tracks0 zones t _ Hnd Ht Hscan), Hnone in Hlook.
  simpl in Hlook.
  destruct (monitor_inside zones (Track.track_id t) _ frames self' Hz Hlook Hall)
    as (out & Hout & Hposts).
  exists ((t0, self', dom (active_alerts self')) :: out). split.
  - cbn [monitor]. rewrite Htick. cbn [mbind result_bind]. by rewrite Hout.
  - constructor; [|done]. simpl. split; [done|]. split; [|done].
    apply elem_of_dom. eauto.
Qed.

Lemma track7_inside_in_zone : in_zone [track7_inside] [square] 7.
Proof.
  exists track7_inside, 0%Z. split; [left|]. split; [done|].
  vm_compute. reflexivity.
Qed.

Lemma alert_lasts_while_inside_witness :
  ∃ out,
    monitor init [square]
            ((0, [track7_inside]) :: [(1, [track7_inside]);
                                      (100, [track7_inside])])
    = Ok out
    ∧ Forall2 (λ (frame : Q * list Track.t) (o : Q * AlertManager * gset Z),
                 (o.1).1 = frame.1 ∧ Track.track_id track7_inside ∈ o.2
                 ∧ active_alerts (o.1).2 !! Track.track_id track7_inside
                   = Some (Alert.Make (Track.track_id track7_inside) 0 0
                                      frame.1 true))
              ((0, [track7_inside]) :: [(1, [track7_inside]);
                                        (100, [track7_inside])]) out.
Proof.
  apply (alert_lasts_while_inside [square] init 0 [track7_inside]
           [(1, [track7_inside]); (100, [track7_inside])] track7_inside 0).
  - apply zones_nonempty_square.
  - reflexivity.
  - apply unique_ids_singleton.
  - left.
  - vm_compute. reflexivity.
  - repeat first [ apply Forall_nil_2 | apply Forall_cons_2 ]; simpl;
      (split; [apply unique_ids_singleton | apply track7_inside_in_zone]).
Defined.

(** ** The same frame twice *)

Lemma tick_alert_idempotent current_time obs (tid : Z) (old : option Alert.t) :
  tick_alert current_time obs tid (tick_alert current_time obs tid old)
  = tick_alert current_time obs tid old.
Proof.
  unfold tick_alert. destruct obs as [[[|] z]|].
  - by destruct old.
  - destruct old as [a|]; [|done].
    destruct (expired current_time a) eqn:He; [done|].
    change (expired current_time (Alert.set_is_active false a))
      with (expired current_time a).
    by rewrite He.
  - destruct old as [a|]; [|done].
    destruct (expired current_time a) eqn:He; [done|]. by rewrite He.
Qed.

(** X10. A second call of [update_alerts] at the same time, on the same
    observations and zones, returns the same set and leaves the ledger as
    the first call left it. *)
Theorem repeated_tick_keeps_ledger (self : AlertManager) (current_time : Q)
    (tracks : list Track.t) (zones : list polygon) :
  unique_ids tracks →
  zones_nonempty zones →
  ∃ self' self'' alerted,
    update_alerts self current_time tracks zones = Ok (self', alerted)
    ∧ update_alerts self' current_time tracks zones = Ok (self'', alerted)
    ∧ active_alerts self'' = active_alerts self'.
Proof.
  intros Hnd Hz.
  destruct (update_alerts_spec self current_time tracks zones Hnd Hz)
    as (self' & Htick & Hlook).
  destruct (update_alerts_spec self' current_time tracks zones Hnd Hz)
    as (self'' & Htick' & Hlook').
  assert (Heq : active_alerts self'' = active_alerts self').
  { apply map_eq. intros tid.
    rewrite Hlook', Hlook. apply tick_alert_idempotent. }
  exists self', self'', (dom (active_alerts self')).
  split; [done|]. split; [by rewrite <- Heq|done].
Qed.

Lemma repeated_tick_keeps_ledger_witness :
  ∃ self' self'' alerted,
    update_alerts after_entry 1 [track7_outside] [square] = Ok (self', alerted)
    ∧ update_alerts self' 1 [track7_outside] [square] = Ok (self'', alerted)
    ∧ active_alerts self'' = active_alerts self'.
Proof.
  apply (repeated_tick_keeps_ledger after_entry 1 [track7_outside] [square]).
  - apply unique_ids_singleton.
  - apply zones_nonempty_square.
Defined.

(** ** More on the status of a track *)

(** X11. For a manager reached through ticks and a query no earlier than
    the last tick, the time remaining that [get_alert_status] answers is
    between 0 and [ALARM_DURATION]; it is 0 when the track is not alarmed;
    and, as long as no tick comes in between, a later query answers no more
    time, and does not find alarmed a track that was not. *)
Theorem countdown_bounds (t : Q) (self : AlertManager) (current_time : Q)
    (track_id : Z) :
  reachable t self →
  t <= current_time →
  let status := (get_alert_status self current_time track_id).2 in
  0 <= status.2
  ∧ status.2 <= Config.ALARM_DURATION
  ∧ (status.1 = false → status.2 == 0)
  ∧ ∀ later,
      current_time <= later →
      let status' := (get_alert_status self later track_id).2 in
      status'.2 <= status.2 ∧ (status'.1 = true → status.1 = true).
Proof.
  intros Hreach Ht. unfold get_alert_status, Config.ALARM_DURATION.
  destruct (active_alerts self !! track_id) as [a|] eqn:Ha; simpl.
  2: { repeat split; try done; try lra. }
  destruct (reachable_ledger_ok t self Hreach track_id a Ha) as [_ Hlast].
  destruct (Alert.is_active a); simpl.
  { repeat split; try done; try lra. }
  destruct (PyFacts.max_spec 0 (3 - (current_time - Alert.last_seen_in_zone a)))
    as [[Hpos ->]|[Hneg ->]].
  - split; [lra|]. split; [lra|]. split.
    + intros Hoff. apply PyFacts.lt_false in Hoff. lra.
    + intros later Hlater.
      destruct (PyFacts.max_spec 0 (3 - (later - Alert.last_seen_in_zone a)))
        as [[Hpos' ->]|[Hneg' ->]].
      * split; [lra|]. intros _. by apply PyFacts.lt_true.
      * split; [lra|]. intros _. by apply PyFacts.lt_true.
  - split; [lra|]. split; [lra|]. split; [reflexivity|].
    intros later Hlater.
    destruct (PyFacts.max_spec 0 (3 - (later - Alert.last_seen_in_zone a)))
      as [[Hpos' ->]|[Hneg' ->]]; [lra|].
    split; [lra|]. intros Hon. apply PyFacts.lt_true in Hon. lra.
Qed.

Lemma countdown_bounds_witness :
  let status := (get_alert_status after_departure 1 7).2 in
  0 <= status.2
  ∧ status.2 <= Config.ALARM_DURATION
  ∧ (status.1 = false → status.2 == 0)
  ∧ ∀ later,
      1 <= later →
      let status' := (get_alert_status after_departure later 7).2 in
      status'.2 <= status.2 ∧ (status'.1 = true → status.1 = true).
Proof.
  apply (countdown_bounds 1 after_departure 1 7).
  - apply (reachable_tick 0 after_entry 1 [track7_outside] [square]
             after_departure {[ 7%Z ]}).
    + apply (reachable_tick 0 init 0 [track7_inside] [square]
               after_entry {[ 7%Z ]}).
      * apply reachable_init.
      * lra.
      * vm_compute. reflexivity.
    + lra.
    + vm_compute. reflexivity.
  - lra.
Defined.

Lemma tick_alert_fresh current_time obs (tid : Z) (old : option Alert.t)
    (new : Alert.t) :
  tick_alert current_time obs tid old = Some new →
  current_time - Alert.last_seen_in_zone new < Config.ALARM_DURATION.
Proof.
  assert (Hzero : ∀ t : Q, t - t < Config.ALARM_DURATION)
    by (intros t; unfold Config.ALARM_DURATION; lra).
  unfold tick_alert. destruct obs as [[[|] z]|].
  - intros [= <-]. destruct old; simpl; apply Hzero.
  - destruct old as [a|]; [|done].
    destruct (expired current_time a) eqn:He; [done|].
    intros [= <-]. by apply expired_false in He.
  - destruct old as [a|]; [|done].
    destruct (expired current_time a) eqn:He; [done|].
    intros [= <-]. by apply expired_false in He.
Qed.

(** X12. Asked at the time of the tick, [get_alert_status] finds alarmed
    exactly the tracks of the set that [update_alerts] has returned; asked at
    any time before the next tick, it finds alarmed no other track. *)
Theorem status_agrees_with_alerted (self : AlertManager) (current_time : Q)
    (tracks : list Track.t) (zones : list polygon) :
  unique_ids tracks →
  zones_nonempty zones →
  ∃ self' alerted,
    update_alerts self current_time tracks zones = Ok (self', alerted)
    ∧ ∀ track_id,
        ((get_alert_status self' current_time track_id).2.1 = true
         ↔ track_id ∈ alerted)
        ∧ ∀ later,
            (get_alert_status self' later track_id).2.1 = true →
            track_id ∈ alerted.
Proof.
  intros Hnd Hz.
  destruct (update_alerts_spec self current_time tracks zones Hnd Hz)
    as (self' & Htick & Hlook).
  exists self', (dom (active_alerts self')). split; [done|]. intros tid.
  assert (Hlater : ∀ later,
             (get_alert_status self' later tid).2.1 = true →
             tid ∈ dom (active_alerts self')).
  { intros later. unfold get_alert_status. intros Hon.
    apply elem_of_dom.
    destruct (active_alerts self' !! tid); [eauto|done]. }
  split; [|done]. split; [apply Hlater|].
  intros Hin. apply elem_of_dom in Hin as [a' Ha'].
  unfold get_alert_status. rewrite Ha'.
  destruct (Alert.is_active a'); [done|]. simpl.
  rewrite Hlook in Ha'. apply tick_alert_fresh in Ha'.
  apply PyFacts.lt_true.
  destruct (PyFacts.max_spec 0
              (Config.ALARM_DURATION
               - (current_time - Alert.last_seen_in_zone a')))
    as [[? ->]|[? ->]]; lra.
Qed.

Lemma status_agrees_with_alerted_witness :
  ∃ self' alerted,
    update_alerts after_entry 1 [track7_outside] [square] = Ok (self', alerted)
    ∧ ∀ track_id,
        ((get_alert_status self' 1 track_id).2.1 = true
         ↔ track_id ∈ alerted)
        ∧ ∀ later,
            (get_alert_status self' later track_id).2.1 = true →
            track_id ∈ alerted.
Proof.
  apply (status_agrees_with_alerted after_entry 1 [track7_outside] [square]).
  - apply unique_ids_singleton.
  - apply zones_nonempty_square.
Defined.

(** ** What the frame shows of the alarm *)

(** X13. On the frame drawn after a tick, the banner reads "ALARM!" and the
    red border is drawn exactly when the set returned by [update_alerts] is
    not empty; otherwise the banner reads "Monitoring..." and no border is
    drawn.  The count of [get_alert_statistics] is the size of that set. *)
Theorem alarm_banner_and_border (fr : Draw.frame) (self : AlertManager)
    (current_time : Q) (tracks : list Track.t) (zones : list polygon)
    (self' : AlertManager) (alerted : gset Z) :
  update_alerts self current_time tracks zones = Ok (self', alerted) →
  get_alert_statistics self' = size alerted
  ∧ (alerted ≠ ∅ →
     Draw.draw_alarm_status fr self'
     = Draw.Frame (Draw.shape fr)
         (Draw.calls fr
          ++ [Draw.putText "ALARM!" (10, 30)%Z Draw.FONT 1 Draw.ALARM_COLOR 2])
     ∧ Draw.draw_additional_alerts fr alerted
       = Draw.Frame (Draw.shape fr)
           (Draw.calls fr
            ++ [Draw.rectangle (0, 0)%Z
                  ((Draw.shape fr).2, (Draw.shape fr).1)
                  Draw.ALARM_COLOR 10]))
  ∧ (alerted = ∅ →
     Draw.draw_alarm_status fr self'
     = Draw.Frame (Draw.shape fr)
         (Draw.calls fr
          ++ [Draw.putText "Monitoring..." (10, 30)%Z Draw.FONT (7 # 10)
                (0, 255, 0)%Z 2])
     ∧ Draw.draw_additional_alerts fr alerted = fr).
Proof.
  intros Htick.
  assert (Hdom : alerted = dom (active_alerts self')).
  { unfold update_alerts in Htick.
    destruct (update_alerts_sweep self current_time tracks zones)
      as [[self2 rem]|e]; [|done].
    cbn [mbind result_bind] in Htick. by injection Htick as <- <-. }
  assert (Hsize : get_alert_statistics self' = size alerted).
  { unfold get_alert_statistics. by rewrite Hdom, size_dom. }
  split; [done|].
  unfold Draw.draw_alarm_status, Draw.draw_additional_alerts.
  rewrite Hsize. split.
  - intros Hne. rewrite !bool_decide_eq_true_2; [done|done|].
    apply set_choose_L in Hne as [x Hx].
    assert (size alerted ≠ 0)%nat; [|lia].
    intros H0. apply size_empty_inv in H0. set_solver.
  - intros ->. rewrite size_empty.
    rewrite bool_decide_eq_false_2 by lia.
    by rewrite bool_decide_eq_false_2 by (by intros ?).
Qed.

Lemma alarm_banner_and_border_witness :
  get_alert_statistics after_entry = size ({[ 7%Z ]} : gset Z)
  ∧ (({[ 7%Z ]} : gset Z) ≠ ∅ →
     Draw.draw_alarm_status (Draw.Frame (480, 640)%Z []) after_entry
     = Draw.Frame (480, 640)%Z
         ([] ++ [Draw.putText "ALARM!" (10, 30)%Z Draw.FONT 1
                   Draw.ALARM_COLOR 2])
     ∧ Draw.draw_additional_alerts (Draw.Frame (480, 640)%Z []) {[ 7%Z ]}
       = Draw.Frame (480, 640)%Z
           ([] ++ [Draw.rectangle (0, 0)%Z (640, 480)%Z Draw.ALARM_COLOR 10]))
  ∧ (({[ 7%Z ]} : gset Z) = ∅ →
     Draw.draw_alarm_status (Draw.Frame (480, 640)%Z []) after_entry
     = Draw.Frame (480, 640)%Z
         ([] ++ [Draw.putText "Monitoring..." (10, 30)%Z Draw.FONT (7 # 10)
                   (0, 255, 0)%Z 2])
     ∧ Draw.draw_additional_alerts (Draw.Frame (480, 640)%Z []) {[ 7%Z ]}
       = Draw.Frame (480, 640)%Z []).
Proof.
  apply (alarm_banner_and_border (Draw.Frame (480, 640)%Z []) init 0
           [track7_inside] [square] after_entry {[ 7%Z ]}).
  vm_compute. reflexivity.
Defined.

(** ** Loading the zones for monitoring *)

(** X14. For a zone file that is missing, or holds an object whose entry
    'zones', if any, is a list of zones: when
    [RestrictedZoneMonitor.load_zones] returns, it has left the alert
    manager alone and stored the zones that [Config.load_zones] reads.  It
    answers true, printing nothing, exactly when it has stored at least one
    zone, and false after printing its message otherwise, as when the file
    is missing or has no entry 'zones'.  After [save_zones] it stores the
    zones saved. *)
Theorem monitor_load_zones (self : RestrictedZoneMonitor.t)
    (file : Config.zones_file) (out : list string)
    (self' : RestrictedZoneMonitor.t) (out' : list string) (ok : bool) :
  RestrictedZoneMonitor.load_zones self file out = Ok (self', out', ok) →
  RestrictedZoneMonitor.alert_manager self'
  = RestrictedZoneMonitor.alert_manager self
  ∧ Config.load_zones file = Ok (RestrictedZoneMonitor.zones self')
  ∧ (ok = true ↔ RestrictedZoneMonitor.zones self' ≠ [])
  ∧ (ok = true → out' = out)
  ∧ (ok = false →
     out' = out
            ++ ["No restricted zones found. Please mark zones first."%string])
  ∧ (file = None → ok = false)
  ∧ (∀ data, file = Some data → data !! "zones"%string = None → ok = false)
  ∧ (∀ zones, file = Config.save_zones zones →
              RestrictedZoneMonitor.zones self' = zones).
Proof.
  unfold RestrictedZoneMonitor.load_zones.
  destruct (Config.load_zones file) as [zones|e] eqn:Hload; [|done].
  assert (Hmiss : file = None → zones = []).
  { intros ->. by injection Hload as <-. }
  assert (Hkey : ∀ data, file = Some data → data !! "zones"%string = None →
                         zones = []).
  { intros data -> Hnone. unfold Config.load_zones in Hload.
    rewrite Hnone in Hload. by injection Hload as <-. }
  assert (Hsaved : ∀ zones', file = Config.save_zones zones' → zones = zones').
  { intros zones' ->. unfold Config.load_zones, Config.save_zones in Hload.
    rewrite lookup_singleton_eq in Hload. by injection Hload as <-. }
  cbn [mbind result_bind].
  destruct zones as [|z zones]; intros [= <- <- <-]; simpl;
    (split; [done|]); (split; [done|]); (split; [by split|]);
    (split; [done|]); (split; [done|]); (split; [|split]); try done.
  - intros Hf. by specialize (Hmiss Hf).
  - intros data Hf Hn. by specialize (Hkey data Hf Hn).
Qed.

Lemma monitor_load_zones_witness :
  RestrictedZoneMonitor.alert_manager
    (RestrictedZoneMonitor.Make init [square])
  = RestrictedZoneMonitor.alert_manager (RestrictedZoneMonitor.Make init [])
  ∧ Config.load_zones (Config.save_zones [square])
    = Ok (RestrictedZoneMonitor.zones
            (RestrictedZoneMonitor.Make init [square]))
  ∧ (true = true
     ↔ RestrictedZoneMonitor.zones (RestrictedZoneMonitor.Make init [square])
       ≠ [])
  ∧ (true = true → @nil string = [])
  ∧ (true = false →
     [] = [] ++ ["No restricted zones found. Please mark zones first."%string])
  ∧ (Config.save_zones [square] = None → true = false)
  ∧ (∀ data, Config.save_zones [square] = Some data →
             data !! "zones"%string = None → true = false)
  ∧ (∀ zones, Config.save_zones [square] = Config.save_zones zones →
              RestrictedZoneMonitor.zones
                (RestrictedZoneMonitor.Make init [square])
              = zones).
Proof.
  apply (monitor_load_zones (RestrictedZoneMonitor.Make init [])
           (Config.save_zones [square]) []
           (RestrictedZoneMonitor.Make init [square]) [] true).
  reflexivity.
Defined.

(** ** A session of the zone marker *)

Lemma setup_zones_mouse_ok (w : session_world) (event : mouse_event)
    (x y : Q) :
  ∃ w', setup_zones_mouse w event x y = Ok w'.
Proof.
  destruct w as [[self file] out]. unfold setup_zones_mouse.
  destruct event; simpl; [by eexists| |by eexists].
  destruct (bool_decide _); by eexists.
Qed.

Lemma setup_zones_loop_invariant (I : session_world → Prop) :
  (∀ w event x y w', I w → setup_zones_mouse w event x y = Ok w' → I w') →
  (∀ w code, I w → I (setup_zones_key w code).1) →
  ∀ inputs w, I w → ∃ w', setup_zones_loop w inputs = Ok w' ∧ I w'.
Proof.
  intros Hmouse Hkey. induction inputs as [|input inputs IH]; intros w Hw.
  - by exists w.
  - destruct input as [event x y|code]; cbn [setup_zones_loop].
    + destruct (setup_zones_mouse_ok w event x y) as [w1 Hw1].
      rewrite Hw1. cbn [mbind result_bind]. apply IH. by eapply Hmouse.
    + specialize (Hkey w code Hw).
      destruct (setup_zones_key w code) as [w1 [|]]; simpl in *.
      * by exists w1.
      * by apply IH.
Qed.

Lemma setup_zones_mouse_cases (self : ZoneMarker) (file : Config.zones_file)
    (out : list console_line) (event : mouse_event) (x y : Q)
    (w' : session_world) :
  setup_zones_mouse (self, file, out) event x y = Ok w' →
  (zones (w'.1).1 = zones self ∧ (w'.1).2 = file)
  ∨ (zones (w'.1).1 = zones self ++ [current_zone_points self]
     ∧ (w'.1).2 = Config.save_zones (zones (w'.1).1)
     ∧ (3 ≤ length (current_zone_points self))%nat).
Proof.
  unfold setup_zones_mouse. destruct event; simpl.
  - intros [= <-]. by left.
  - destruct (decide (3 ≤ length (current_zone_points self))%nat) as [Hge|Hlt].
    + rewrite bool_decide_eq_true_2 by done. intros [= <-]. by right.
    + rewrite bool_decide_eq_false_2 by done. intros [= <-]. by left.
  - intros [= <-]. by left.
Qed.

Lemma setup_zones_key_cases (self : ZoneMarker) (file : Config.zones_file)
    (out : list console_line) (code : Z) :
  let w' := (setup_zones_key (self, file, out) code).1 in
  (zones (w'.1).1 = zones self ∧ (w'.1).2 = file)
  ∨ (zones (w'.1).1 = removelast (zones self)
     ∧ (w'.1).2 = Config.save_zones (zones (w'.1).1)).
Proof.
  unfold setup_zones_key.
  destruct (bool_decide _ || bool_decide _); [by left|].
  destruct (bool_decide (_ = ord_c)).
  { destruct (current_zone_points self); by left. }
  destruct (bool_decide (_ = ord_d)); [|by left].
  destruct (zones self) eqn:Hz; [by left|by right].
Qed.

Lemma Forall_removelast {A} (P : A → Prop) (l : list A) :
  Forall P l → Forall P (removelast l).
Proof.
  induction 1 as [|a l Ha Hl IH]; [constructor|].
  simpl. destruct l; [constructor|]. by constructor.
Qed.

Lemma clicks_loop (pts pre : list point) (zs : list polygon)
    (file : Config.zones_file) (out : list console_line)
    (rest : list marker_input) :
  setup_zones_loop (Marker pre zs, file, out) (clicks pts ++ rest)
  = setup_zones_loop (Marker (pre ++ pts) zs, file, out) rest.
Proof.
  revert pre. induction pts as [|[px py] pts IH]; intros pre.
  - by rewrite app_nil_r.
  - cbn [clicks map app setup_zones_loop setup_zones_mouse
         mark_zones_callback mbind result_bind fst snd fmap list_fmap
         current_zone_points zones].
    rewrite app_nil_r. fold (clicks pts). rewrite IH.
    by rewrite <- app_assoc.
Qed.

(** X15. When a session of the zone marker returns, whatever the mouse
    events and the keys it went through, the zone file reads back as the
    zones the session returns; so when [RestrictedZoneMonitor.load_zones]
    then returns, it monitors exactly the zones marked. *)
Theorem session_zones_are_in_file (file : Config.zones_file)
    (inputs : list marker_input) (self : ZoneMarker)
    (file' : Config.zones_file) (out : list console_line) :
  setup_zones file inputs = Ok (self, file', out) →
  Config.load_zones file' = Ok (zones self)
  ∧ ∀ app printed app' printed' ok,
      RestrictedZoneMonitor.load_zones app file' printed
      = Ok (app', printed', ok) →
      RestrictedZoneMonitor.zones app' = zones self.
Proof.
  unfold setup_zones.
  destruct (Config.load_zones file) as [zones0|e] eqn:Hload; [|done].
  cbn [mbind result_bind]. intros Hrun.
  destruct (setup_zones_loop_invariant
              (λ w, Config.load_zones (w.1).2 = Ok (zones (w.1).1)))
    with (inputs := inputs) (w := (Marker [] zones0, file, @nil console_line))
    as (w' & Hrun' & Hinv).
  - intros [[self1 file1] out1] event x y w1 Hw Hstep. simpl in Hw.
    destruct (setup_zones_mouse_cases _ _ _ _ _ _ _ Hstep)
      as [[-> ->]|(_ & -> & _)]; [done|apply load_saved_zones].
  - intros [[self1 file1] out1] code Hw. simpl in Hw.
    destruct (setup_zones_key_cases self1 file1 out1 code)
      as [[-> ->]|(_ & ->)]; [done|apply load_saved_zones].
  - done.
  - rewrite Hrun in Hrun'. injection Hrun' as <-. simpl in Hinv.
    split; [done|].
    intros app printed app' printed' ok.
    unfold RestrictedZoneMonitor.load_zones.
    rewrite Hinv. cbn [mbind result_bind].
    destruct (zones self); by intros [= <- _ _].
Qed.

Lemma session_zones_are_in_file_witness :
  Config.load_zones (Config.save_zones [square])
  = Ok (zones (Marker [] [square]))
  ∧ ∀ app printed app' printed' ok,
      RestrictedZoneMonitor.load_zones app (Config.save_zones [square])
                                       printed
      = Ok (app', printed', ok) →
      RestrictedZoneMonitor.zones app' = zones (Marker [] [square]).
Proof.
  apply (session_zones_are_in_file None
           (clicks square ++ [Mouse EVENT_RBUTTONDOWN 1 1; Key ord_q])
           (Marker [] [square]) (Config.save_zones [square])
           [Callback_line (Zone_saved 1)]).
  reflexivity.
Defined.

(** X16. When every zone of the file has at least 3 vertices, so has every
    zone a session of the marker returns, whatever the mouse events and the
    keys of the session. *)
Theorem session_keeps_three_vertices (file : Config.zones_file)
    (inputs : list marker_input) (zones0 : list polygon) (self : ZoneMarker)
    (file' : Config.zones_file) (out : list console_line) :
  Config.load_zones file = Ok zones0 →
  Forall (λ zone, (3 ≤ length zone)%nat) zones0 →
  setup_zones file inputs = Ok (self, file', out) →
  Forall (λ zone, (3 ≤ length zone)%nat) (zones self).
Proof.
  intros Hload Hall. unfold setup_zones. rewrite Hload.
  cbn [mbind result_bind]. intros Hrun.
  destruct (setup_zones_loop_invariant
              (λ w, Forall (λ zone, (3 ≤ length zone)%nat) (zones (w.1).1)))
    with (inputs := inputs) (w := (Marker [] zones0, file, @nil console_line))
    as (w' & Hrun' & Hinv).
  - intros [[self1 file1] out1] event x y w1 Hw Hstep. simpl in Hw.
    destruct (setup_zones_mouse_cases _ _ _ _ _ _ _ Hstep)
      as [[-> _]|(-> & _ & Hge)]; [done|].
    apply Forall_app. split; [done|]. by repeat constructor.
  - intros [[self1 file1] out1] code Hw. simpl in Hw.
    destruct (setup_zones_key_cases self1 file1 out1 code)
      as [[-> _]|(-> & _)]; [done|]. by apply Forall_removelast.
  - done.
  - rewrite Hrun in Hrun'. by injection Hrun' as <-.
Qed.

Lemma session_keeps_three_vertices_witness :
  Forall (λ zone, (3 ≤ length zone)%nat)
         (zones (Marker [] [square; segment ++ [(0, 0); (4, 0); (0, 4)]])).
Proof.
  apply (session_keeps_three_vertices
           (Config.save_zones [square; segment ++ [(5, 0)]])
           (clicks segment
            ++ [Mouse EVENT_RBUTTONDOWN 1 1; Key ord_d;
                Mouse EVENT_LBUTTONDOWN 0 0; Mouse EVENT_LBUTTONDOWN 4 0;
                Mouse EVENT_LBUTTONDOWN 0 4; Key ord_c;
                Mouse EVENT_LBUTTONDOWN 0 4; Mouse EVENT_RBUTTONDOWN 1 1;
                Key ord_q])
           [square; segment ++ [(5, 0)]]
           (Marker [] [square; segment ++ [(0, 0); (4, 0); (0, 4)]])
           (Config.save_zones [square; segment ++ [(0, 0); (4, 0); (0, 4)]])
           [Callback_line Need_at_least_3_points; Last_zone_deleted 1;
            Callback_line (Zone_saved 2)]).
  - apply load_saved_zones.
  - repeat (apply Forall_cons_2; [simpl; lia|]). apply Forall_nil_2.
  - reflexivity.
Defined.

(** X17. Marking a polygon: left clicks on points and then a right click,
    when the points marked so far and the new ones are at least 3, register
    all of them, in order, as the last zone, write the zones to the file,
    print the new total and leave no current point. *)
Theorem mark_polygon (self : ZoneMarker) (file : Config.zones_file)
    (out : list console_line) (pts : list point) (x y : Q)
    (rest : list marker_input) :
  (3 ≤ length (current_zone_points self ++ pts))%nat →
  setup_zones_loop (self, file, out)
                   (clicks pts ++ Mouse EVENT_RBUTTONDOWN x y :: rest)
  = setup_zones_loop
      (Marker [] (zones self ++ [current_zone_points self ++ pts]),
       Config.save_zones (zones self ++ [current_zone_points self ++ pts]),
       out ++ [Callback_line (Zone_saved (S (length (zones self))))])
      rest.
Proof.
  intros Hge. destruct self as [pre zs]. rewrite clicks_loop.
  cbn [setup_zones_loop setup_zones_mouse mark_zones_callback
       current_zone_points zones].
  rewrite bool_decide_eq_true_2 by done.
  cbn [mbind result_bind fst snd fmap list_fmap app].
  by rewrite length_app, Nat.add_1_r.
Qed.

Lemma mark_polygon_witness :
  setup_zones_loop (Marker [] [], None, [])
                   (clicks square ++ Mouse EVENT_RBUTTONDOWN 1 1 :: [])
  = setup_zones_loop
      (Marker [] ([] ++ [[] ++ square]),
       Config.save_zones ([] ++ [[] ++ square]),
       [] ++ [Callback_line (Zone_saved 1)])
      [].
Proof.
  apply (mark_polygon (Marker [] []) None [] square 1 1 []).
  simpl. lia.
Defined.

(** X18. Undo in the marker.  The key 'c' right after a left click leaves
    the session as it was before the click.  The key 'd' right after a right
    click that registered a zone takes that zone off again and writes the
    former zones to the file, but the points of the zone are not given back:
    no current point is left.  Only the low 8 bits of the key code count. *)
Theorem marker_undo (self : ZoneMarker) (file : Config.zones_file)
    (out : list console_line) (x y : Q) (code : Z)
    (rest : list marker_input) :
  (Z.land code 255 = ord_c →
   setup_zones_loop (self, file, out)
                    (Mouse EVENT_LBUTTONDOWN x y :: Key code :: rest)
   = setup_zones_loop (self, file, out) rest)
  ∧ (Z.land code 255 = ord_d →
     (3 ≤ length (current_zone_points self))%nat →
     setup_zones_loop (self, file, out)
                      (Mouse EVENT_RBUTTONDOWN x y :: Key code :: rest)
     = setup_zones_loop
         (Marker [] (zones self), Config.save_zones (zones self),
          out ++ [Callback_line (Zone_saved (S (length (zones self))));
                  Last_zone_deleted (length (zones self))])
         rest).
Proof.
  destruct self as [pts zs]. split.
  - intros Hc.
    cbn [setup_zones_loop setup_zones_mouse mark_zones_callback
         current_zone_points zones mbind result_bind fst snd fmap list_fmap].
    unfold setup_zones_key. rewrite Hc.
    rewrite (bool_decide_eq_false_2 (ord_c = ord_q)) by done.
    rewrite (bool_decide_eq_false_2 (ord_c = key_esc)) by done.
    rewrite (bool_decide_eq_true_2 (ord_c = ord_c)) by done.
    cbn [orb current_zone_points zones].
    destruct (pts ++ [(x, y)]) as [|p l] eqn:Hl.
    { by destruct pts. }
    rewrite <- Hl, removelast_last, app_nil_r. reflexivity.
  - intros Hd Hge.
    cbn [setup_zones_loop setup_zones_mouse mark_zones_callback
         current_zone_points zones].
    rewrite bool_decide_eq_true_2 by done.
    cbn [mbind result_bind fst snd fmap list_fmap app].
    unfold setup_zones_key. rewrite Hd.
    rewrite (bool_decide_eq_false_2 (ord_d = ord_q)) by done.
    rewrite (bool_decide_eq_false_2 (ord_d = key_esc)) by done.
    rewrite (bool_decide_eq_false_2 (ord_d = ord_c)) by done.
    rewrite (bool_decide_eq_true_2 (ord_d = ord_d)) by done.
    cbn [orb current_zone_points zones].
    destruct (zs ++ [pts]) as [|z l] eqn:Hl.
    { by destruct zs. }
    rewrite <- Hl, removelast_last. cbn [snd fst].
    rewrite length_app, Nat.add_1_r, <- app_assoc. reflexivity.
Qed.

Lemma marker_undo_witness :
  setup_zones_loop (Marker segment [square], None, [])
                   (Mouse EVENT_LBUTTONDOWN 5 0 :: Key 355 :: [])
  = setup_zones_loop (Marker segment [square], None, []) []
  ∧ setup_zones_loop (Marker square [square], None, [])
                     (Mouse EVENT_RBUTTONDOWN 5 0 :: Key 100 :: [])
    = setup_zones_loop
        (Marker [] [square], Config.save_zones [square],
         [] ++ [Callback_line (Zone_saved 2); Last_zone_deleted 1])
        [].
Proof.
  split.
  - apply (proj1 (marker_undo (Marker segment [square]) None [] 5 0 355 [])).
    reflexivity.
  - apply (proj2 (marker_undo (Marker square [square]) None [] 5 0 100 [])).
    + reflexivity.
    + simpl. lia.
Defined.
